(** * gw2api: request and cache orchestration of the Guild Wars 2 API client

    A shallow embedding of the orchestration core of class [GW2API]
    (latest revision of the client: [_request], [_findInCache],
    [_setCacheObjects], [_idListToParams], [_apiRequest] and
    [_apiDetailsRequest]), of its public methods, and of the same core in
    the earlier revision of [src/gw2api.js] (module [Legacy]), followed by
    the properties of the specification that concern them and by further
    properties of the code.

    Conventions of the embedding.
    - The identifiers of the API are integers ([Z]) and are printed by
      [String(n)] in decimal; a parameter value can also be negative
      zero, [NaN] or an infinity.  Fractions are not modelled.
    - A promise chain is one synchronous flow: a computation in the state
      monad [M] over the cache store and a chronological log of the I/O
      performed (cache reads, cache writes, Transport calls).
    - The Transport ([request-promise]) and the JSON decoder
      ([JSON.parse]) are external collaborators: they are the Section
      variables [transport] and [json_parse].
    - The cache store ([cache-manager], memory store) is a finite map from
      key strings to entries.  It is the store while it has room and its
      entries are live: the eviction of the entry used least recently,
      when a write exceeds [maxCacheObjects], and the expiry of an entry
      are not modelled (the time-to-live in force is recorded in the
      entry).  A property about what the store holds after several writes
      therefore assumes [has_room]. *)

From Stdlib Require Import ZArith List String Ascii Bool Lia.
From Stdlib Require Import DecimalString DecimalZ.
From Stdlib Require Import Sorting.Permutation Sorting.Sorted.
From stdpp Require Import gmap strings.

Import ListNotations.
Set Warnings "-register-all".
Local Open Scope string_scope.
Local Open Scope Z_scope.

(** ** JavaScript values *)

(** Values produced by [JSON.parse]. *)
Inductive json : Type :=
| JNull
| JBool (b : bool)
| JNum (n : Z)
| JStr (s : string)
| JArr (xs : list json)
| JObj (fields : list (string * json)).

(** Primitive values: a non-array [ids] argument and the values of query
    parameters.  The numbers are the integers, negative zero, [NaN] and the
    two infinities; fractions are not modelled. *)
Inductive scalar : Type :=
| SUndef
| SNull
| SBool (b : bool)
| SNum (n : Z)
| SStr (s : string)
| SNegZero
| SNaN
| SInf (negative : bool).

(** The [ids] argument of a detail fetch: [ids instanceof Array] or not. *)
Inductive idarg : Type :=
| Many (ids : list Z)
| Single (id : scalar).

(** Errors thrown by the client or by the runtime. *)
Inductive js_error : Type :=
| Error (message : string)
| TypeError (message : string).

(** What a promise of the client settles with.  A resolved promise carries
    [undefined], a decoded JSON value or an [Error] object passed on as a
    plain value. *)
Inductive jsvalue : Type :=
| VUndefined
| VJson (j : json)
| VError (e : js_error).

Inductive outcome : Type :=
| Resolved (v : jsvalue)
| Rejected (e : js_error).

(** [String(n)] for an integer. *)
Definition string_of_Z (n : Z) : string :=
  NilZero.string_of_int (Z.to_int n).

(** Truthiness, [ToBoolean]. *)
Definition truthy_json (j : json) : bool :=
  match j with
  | JNull => false
  | JBool b => b
  | JNum n => negb (n =? 0)
  | JStr s => negb (String.eqb s "")
  | JArr _ | JObj _ => true
  end.

Definition truthy_scalar (s : scalar) : bool :=
  match s with
  | SUndef | SNull => false
  | SBool b => b
  | SNum n => negb (n =? 0)
  | SStr s => negb (String.eqb s "")
  | SNegZero | SNaN => false
  | SInf _ => true
  end.

Definition truthy_opt (o : option json) : bool :=
  match o with
  | Some j => truthy_json j
  | None => false
  end.

Definition truthy_string (o : option string) : bool :=
  match o with
  | Some s => negb (String.eqb s "")
  | None => false
  end.

(** [Array.prototype.join]. *)
Fixpoint join (sep : string) (l : list string) : string :=
  match l with
  | [] => ""
  | [x] => x
  | x :: rest => x +:+ sep +:+ join sep rest
  end.

(** [String(v)], as a template literal computes it. *)
Definition string_of_scalar (s : scalar) : string :=
  match s with
  | SUndef => "undefined"
  | SNull => "null"
  | SBool true => "true"
  | SBool false => "false"
  | SNum n => string_of_Z n
  | SStr s => s
  | SNegZero => "0"
  | SNaN => "NaN"
  | SInf false => "Infinity"
  | SInf true => "-Infinity"
  end.

Fixpoint string_of_json (j : json) : string :=
  match j with
  | JNull => "null"
  | JBool true => "true"
  | JBool false => "false"
  | JNum n => string_of_Z n
  | JStr s => s
  | JArr xs =>
      join "," (map (fun x => match x with
                              | JNull => ""
                              | _ => string_of_json x
                              end) xs)
  | JObj _ => "[object Object]"
  end.

(** Property lookup in a decoded object. *)
Fixpoint assoc {A : Type} (k : string) (l : list (string * A)) : option A :=
  match l with
  | [] => None
  | (k', v) :: rest => if String.eqb k k' then Some v else assoc k rest
  end.

(** [v.id]: [None] is [undefined]; reading a property of [null] throws. *)
Definition get_id (v : json) : js_error + option json :=
  match v with
  | JNull => inl (TypeError "Cannot read property 'id' of null")
  | JObj fields => inr (assoc "id" fields)
  | _ => inr None
  end.

Definition string_of_opt_json (o : option json) : string :=
  match o with
  | Some j => string_of_json j
  | None => "undefined"
  end.

(** The integer identifier of a detail object, when it has one. *)
Definition num_id (v : json) : option Z :=
  match v with
  | JObj fields =>
      match assoc "id" fields with
      | Some (JNum n) => Some n
      | _ => None
      end
  | _ => None
  end.

(** ** Query parameters and [JSON.stringify]

    A parameter object is the list of its own properties in enumeration
    order, which for names that are not array indices ([page],
    [page_size], [lang], [ids], ...) is the order of insertion. *)

Definition params : Type := list (string * scalar).

(** [o.k]: an absent property reads as [undefined]. *)
Definition get_prop (k : string) (o : params) : scalar :=
  match assoc k o with
  | Some v => v
  | None => SUndef
  end.

(** [o.k = v] for a name that is not an array index: an existing property
    keeps its place, a new one goes last. *)
Fixpoint set_prop (k : string) (v : scalar) (o : params) : params :=
  match o with
  | [] => [(k, v)]
  | (k', v') :: rest =>
      if String.eqb k k' then (k, v) :: rest
      else (k', v') :: set_prop k v rest
  end.

Definition hex_digit (n : N) : ascii :=
  match n with
  | 0 => "0" | 1 => "1" | 2 => "2" | 3 => "3" | 4 => "4" | 5 => "5"
  | 6 => "6" | 7 => "7" | 8 => "8" | 9 => "9" | 10 => "a" | 11 => "b"
  | 12 => "c" | 13 => "d" | 14 => "e" | _ => "f"
  end%N%char.

(** The quotation mark, code unit 34. *)
Definition dq : ascii := Ascii false true false false false true false false.

(** The escape of one code unit in [QuoteJSONString]. *)
Definition escape_char (c : ascii) : string :=
  let n := N_of_ascii c in
  if (n =? 8)%N then "\b"
  else if (n =? 9)%N then "\t"
  else if (n =? 10)%N then "\n"
  else if (n =? 12)%N then "\f"
  else if (n =? 13)%N then "\r"
  else if (n =? 34)%N then String "\" (String dq "")
  else if (n =? 92)%N then "\\"
  else if (n <? 32)%N then
    String "\" (String "u" (String "0" (String "0"
      (String (hex_digit (n / 16)) (String (hex_digit (n mod 16)) "")))))
  else String c "".

Fixpoint escape (s : string) : string :=
  match s with
  | EmptyString => ""
  | String c rest => escape_char c +:+ escape rest
  end.

Definition quote (s : string) : string :=
  String dq (escape s +:+ String dq "").

(** The serialization of one property value; [None] for [undefined],
    whose property is left out.  Negative zero is written as [0], and a
    number that is not finite as [null]. *)
Definition stringify_scalar (v : scalar) : option string :=
  match v with
  | SUndef => None
  | SNull => Some "null"
  | SBool true => Some "true"
  | SBool false => Some "false"
  | SNum n => Some (string_of_Z n)
  | SStr s => Some (quote s)
  | SNegZero => Some "0"
  | SNaN | SInf _ => Some "null"
  end.

Definition stringify_members (o : params) : list string :=
  omap (fun kv => match stringify_scalar (snd kv) with
                  | Some t => Some (quote (fst kv) +:+ ":" +:+ t)
                  | None => None
                  end) o.

(** [JSON.stringify(params)]. *)
Definition JSON_stringify (o : params) : string :=
  "{" +:+ join "," (stringify_members o) +:+ "}".

(** ** Sorting and the lookup object *)

(** [Array.prototype.sort] with a comparator that subtracts integer keys:
    ascending by key, elements with equal keys keep their order. *)
Fixpoint insert_on {A : Type} (key : A -> Z) (x : A) (l : list A) : list A :=
  match l with
  | [] => [x]
  | y :: rest =>
      if key x <=? key y then x :: y :: rest
      else y :: insert_on key x rest
  end.

Definition sort_on {A : Type} (key : A -> Z) (l : list A) : list A :=
  fold_right (insert_on key) [] l.

(** [ids.sort((a, b) => a - b)]. *)
Definition sort_ids (ids : list Z) : list Z := sort_on (fun n => n) ids.

(** An object whose property names are the decimal forms of integers
    ([objectLookup]), as the list of its properties in the order of
    [Object.keys]: array indices (0 to 2^32 - 2) first, ascending, then
    the other names in the order of their creation. *)
Definition lookup_obj : Type := list (Z * json).

Definition is_array_index (k : Z) : bool :=
  (0 <=? k) && (k <? 4294967295).

(** [o[k] = v]. *)
Fixpoint obj_set (k : Z) (v : json) (o : lookup_obj) : lookup_obj :=
  match o with
  | [] => [(k, v)]
  | (k', v') :: rest =>
      if k =? k' then (k, v) :: rest
      else if is_array_index k && (negb (is_array_index k') || (k <? k'))
      then (k, v) :: (k', v') :: rest
      else (k', v') :: obj_set k v rest
  end.

(** [Object.keys(o)] and [Object.keys(o).map(key => o[key])]. *)
Definition obj_keys (o : lookup_obj) : list Z := map fst o.
Definition obj_values (o : lookup_obj) : list json := map snd o.

(** ** Configuration, cache store and I/O log *)

Record config : Type := {
  defaultLang : string;
  cacheTimeout : Z;
  maxCacheObjects : Z
}.

(** The object passed to [new GW2API(config)]; [None] is an absent
    property. *)
Record raw_config : Type := {
  raw_defaultLang : option string;
  raw_cacheTimeout : option Z;
  raw_maxCacheObjects : option Z
}.

Definition or_string (o : option string) (d : string) : string :=
  match o with
  | Some s => if String.eqb s "" then d else s
  | None => d
  end.

Definition or_Z (o : option Z) (d : Z) : Z :=
  match o with
  | Some n => if n =? 0 then d else n
  | None => d
  end.

Definition constructor (c : raw_config) : config :=
  {| defaultLang := or_string (raw_defaultLang c) "en";
     cacheTimeout := or_Z (raw_cacheTimeout c) 1800;
     maxCacheObjects := or_Z (raw_maxCacheObjects c) 1000 |}.

(** A stored value and the time-to-live, in seconds, it was stored with. *)
Record entry : Type := { value : json; ttl : Z }.

Record http_request : Type := {
  url : string;
  qs : params;
  headers : list (string * string)
}.

Inductive event : Type :=
| CacheGet (key : string)
| CacheSet (key : string) (v : json)
| HttpGet (req : http_request).

Record world : Type := {
  cache : gmap string entry;
  log : list event
}.

Definition emit (e : event) (w : world) : world :=
  {| cache := cache w; log := log w ++ [e] |}.

(** The store is created with [max: maxCacheObjects]: a write to a store
    that is full evicts the entry that was used least recently.  The
    store of this model is the store while it has room, where a write
    adds or replaces its own entry and touches no other.
    [has_room this n w] says that [n] more entries fit into the store of
    [w], so that none of the next [n] writes evicts. *)
Definition has_room (this : config) (n : nat) (w : world) : bool :=
  Z.of_nat (size (cache w)) + Z.of_nat n <=? maxCacheObjects this.

(** What the Transport settles with: a failure of the call itself, or a
    response of any status ([simple: false]). *)
Inductive reply : Type :=
| NetworkFailure (e : js_error)
| Response (statusCode : Z) (hdrs : list (string * string)) (body : string).

(** ** The state monad of the client *)

Definition M (A : Type) : Type := world -> A * world.

Definition ret {A : Type} (a : A) : M A := fun w => (a, w).

Definition bind {A B : Type} (m : M A) (k : A -> M B) : M B :=
  fun w => let (a, w') := m w in k a w'.

Notation "'do' x <- m ; k" := (bind m (fun x => k))
  (at level 10, x name, m at level 100, k at level 200).

Fixpoint mapM {A B : Type} (f : A -> M B) (l : list A) : M (list B) :=
  match l with
  | [] => ret []
  | x :: rest =>
      do y <- f x;
      do ys <- mapM f rest;
      ret (y :: ys)
  end.

Fixpoint forM_ {A : Type} (f : A -> M unit) (l : list A) : M unit :=
  match l with
  | [] => ret tt
  | x :: rest => do _ <- f x; forM_ f rest
  end.

(** ** The client *)

(** The second argument of the generic requests: a parameter object, or
    (when it is not an object) the API key or nothing. *)
Inductive arg : Type :=
| ArgUndef
| ArgStr (s : string)
| ArgObj (o : params).

(** The value [_findInCache] settles with: one lookup, or the array of
    [Promise.all]. *)
Inductive cached : Type :=
| COne (v : option json)
| CAll (vs : list (option json)).

Record meta : Type := {
  pageSize : option string;
  pageTotal : option string;
  resultCount : option string;
  resultTotal : option string;
  httpStatus : Z
}.

Record request_result : Type := { meta_of : meta; data : json }.

Definition jsvalue_of_opt (o : option json) : jsvalue :=
  match o with
  | Some j => VJson j
  | None => VUndefined
  end.

(** The decoded objects of a response array together with their integer
    identifiers; [None] when an element has none. *)
Fixpoint as_objects (xs : list json) : option (list (Z * json)) :=
  match xs with
  | [] => Some []
  | x :: rest =>
      match num_id x, as_objects rest with
      | Some n, Some l => Some ((n, x) :: l)
      | _, _ => None
      end
  end.

(** The value a promise settles with when the source returns
    [cachedResult]; an array is only returned when no lookup was
    [undefined]. *)
Definition jsvalue_of_cached (c : cached) : jsvalue :=
  match c with
  | COne v => jsvalue_of_opt v
  | CAll vs => VJson (JArr (omap (fun v => v) vs))
  end.

(** What [_setCacheObjects] stored: one object, or the elements of an
    array, which it has sorted in place. *)
Inductive stored : Type :=
| StoredOne
| StoredMany (sorted : list (Z * json)).

(** [ids.length <= 0]: a number and a boolean have no [length]
    ([undefined <= 0] is false), [undefined] and [null] throw. *)
Definition length_le_0 (ids : idarg) : js_error + bool :=
  match ids with
  | Many l => inr (length l <=? 0)%nat
  | Single (SStr s) => inr (String.length s <=? 0)%nat
  | Single SUndef =>
      inl (TypeError "Cannot read property 'length' of undefined")
  | Single SNull =>
      inl (TypeError "Cannot read property 'length' of null")
  | Single _ => inr false
  end.

(** [_idListToParams]. *)
Definition _idListToParams (ids : idarg) : params :=
  match ids with
  | Many l => [("ids", SStr (join "," (map string_of_Z l)))]
  | Single s => [("id", s)]
  end.

(** The pathname as [URL.format] writes it: every [#] and every [?] is
    percent-encoded, the other characters are kept. *)
Fixpoint escape_pathname (s : string) : string :=
  match s with
  | EmptyString => EmptyString
  | String c rest =>
      (if Ascii.eqb c "#" then "%23"
       else if Ascii.eqb c "?" then "%3F"
       else String c EmptyString) +:+ escape_pathname rest
  end.

(** [_buildURL]: [URL.format] of the protocol [https], the host
    [api.guildwars2.com/v2] and the pathname [/path]. *)
Definition _buildURL (path : string) : string :=
  "https://api.guildwars2.com/v2" +:+ escape_pathname ("/" +:+ path).

(** The split of the sorted ids by the cache lookups: the ids that are not
    cached, and the lookup object of those that are. *)
Fixpoint split_cached (ids : list Z) (cachedResult : list (option json))
    (idsNotInCache : list Z) (objectLookup : lookup_obj)
    : list Z * lookup_obj :=
  match ids, cachedResult with
  | id :: ids', None :: rest =>
      split_cached ids' rest (idsNotInCache ++ [id]) objectLookup
  | id :: ids', Some v :: rest =>
      split_cached ids' rest idsNotInCache (obj_set id v objectLookup)
  | id :: ids', [] =>
      split_cached ids' [] (idsNotInCache ++ [id]) objectLookup
  | [], _ => (idsNotInCache, objectLookup)
  end.

Definition set_all (objs : list (Z * json)) (o : lookup_obj) : lookup_obj :=
  fold_left (fun acc kv => obj_set (fst kv) (snd kv) acc) objs o.

(** The headers of a request: the API key, when there is one, as a
    bearer token. *)
Definition auth_headers (apiKey : option string) : list (string * string) :=
  match apiKey with
  | Some k => if truthy_string apiKey
              then [("Authorization", "Bearer " +:+ k)]
              else []
  | None => []
  end.

Section Client.

(** The configuration of the instance, the Transport and the JSON
    decoder. *)
Variable this : config.
Variable transport : http_request -> reply.
Variable json_parse : string -> option json.

(** [this.cache.get(key)]. *)
Definition cache_get (key : string) : M (option json) :=
  fun w => (value <$> cache w !! key, emit (CacheGet key) w).

(** [this.cache.set(key, object)] while the store has room ([has_room]):
    no time-to-live is passed, the one the store was created with
    applies. *)
Definition cache_set (key : string) (object : json) : M unit :=
  fun w =>
    (tt, {| cache := <[key := {| value := object; ttl := cacheTimeout this |}]> (cache w);
            log := log w ++ [CacheSet key object] |}).

(** [request(options)]. *)
Definition http_get (options : http_request) : M reply :=
  fun w => (transport options, emit (HttpGet options) w).

Definition _jsonParse (jsonString : string) : js_error + json :=
  match json_parse jsonString with
  | Some j => inr j
  | None => inl (Error ("Error parsing JSON response: " +:+ jsonString))
  end.

(** The handler of [_request]: what a response settles the request
    with. *)
Definition on_response (response : reply) : js_error + request_result :=
  match response with
  | NetworkFailure e => inl e
  | Response statusCode hdrs body =>
      if negb (statusCode =? 200) && negb (statusCode =? 206)
      then inl (Error ("{ httpStatusCode : " +:+ string_of_Z statusCode
                       +:+ ", responseBody : " +:+ body +:+ " }"))
      else match _jsonParse body with
           | inl e => inl e
           | inr j =>
               inr {| meta_of :=
                        {| pageSize := assoc "X-Page-Size" hdrs;
                           pageTotal := assoc "X-Page-Total" hdrs;
                           resultCount := assoc "X-Result-Count" hdrs;
                           resultTotal := assoc "X-Result-Total" hdrs;
                           httpStatus := statusCode |};
                      data := j |}
           end
  end.

Definition _request (path : string) (parameters : params)
    (apiKey : option string) : M (js_error + request_result) :=
  let options :=
    {| url := _buildURL path;
       qs := parameters;
       headers := auth_headers apiKey |} in
  do response <- http_get options;
  ret (on_response response).

Definition _findInCacheSimple (baseKey : string) : M (option json) :=
  cache_get baseKey.

Definition _findInCache (baseKey : string) (ids : idarg) : M cached :=
  match ids with
  | Single s =>
      if negb (truthy_scalar s)
      then do v <- _findInCacheSimple baseKey; ret (COne v)
      else do v <- cache_get (baseKey +:+ "#" +:+ string_of_scalar s);
           ret (COne v)
  | Many l =>
      do vs <- mapM (fun id => cache_get (baseKey +:+ "#" +:+ string_of_Z id)) l;
      ret (CAll vs)
  end.

Definition _setCacheObject (key : string) (object : json) : M unit :=
  cache_set key object.

(** The two shapes of the arguments, and the [lang] default. *)
Definition normalize_args (a : arg) (apiKey : option string)
    : params * option string :=
  match a with
  | ArgObj o => (o, apiKey)
  | ArgStr s => ([], Some s)
  | ArgUndef => ([], None)
  end.

Definition with_lang (p : params) : params :=
  if negb (truthy_scalar (get_prop "lang" p))
  then set_prop "lang" (SStr (defaultLang this)) p
  else p.

Definition cache_key (path : string) (apiKey : option string)
    (p : params) : string :=
  match apiKey with
  | Some k =>
      if truthy_string apiKey
      then path +:+ "#apiKey:" +:+ k +:+ "#params:" +:+ JSON_stringify p
      else path +:+ "#params:" +:+ JSON_stringify p
  | None => path +:+ "#params:" +:+ JSON_stringify p
  end.

(** [_apiRequest(path, params, apiKey)]: the collection fetch. *)
Definition _apiRequest (path : string) (a : arg) (apiKey0 : option string)
    : M outcome :=
  let (params0, apiKey) := normalize_args a apiKey0 in
  let params := with_lang params0 in
  let cacheKey := cache_key path apiKey params in
  (* _findInCache(cacheKey): ids is undefined, so the lookup is that of
     _findInCacheSimple and its result is never the array of Promise.all *)
  do found <- _findInCache cacheKey (Single SUndef);
  match found with
  | COne cacheResult =>
      if truthy_opt cacheResult
      then ret (Resolved (jsvalue_of_opt cacheResult))
      else
        do r <- _request path params apiKey;
        match r with
        | inr requestResult =>
            do _ <- _setCacheObject cacheKey (data requestResult);
            ret (Resolved (VJson (data requestResult)))
        | inl requestFailure => ret (Resolved (VError requestFailure))
        end
  | CAll vs => ret (Resolved (jsvalue_of_cached found))
  end.

(** [_setCacheObjects(baseKey, objects)].  An array is sorted in place by
    [id] before it is stored element by element; the result carries the
    array as the sort leaves it.  [None]: an element of the array has no
    integer [id], where the order (a comparator yielding [NaN]) and the
    keys are outside this model. *)
Definition _setCacheObjects (baseKey : string) (objects : json)
    : M (option (js_error + stored)) :=
  match objects with
  | JArr xs =>
      match as_objects xs with
      | None => ret None
      | Some objs =>
          let sorted := sort_on fst objs in
          do _ <- forM_ (fun kv =>
                    _setCacheObject
                      (baseKey +:+ "#" +:+ string_of_Z (fst kv)) (snd kv))
                  sorted;
          ret (Some (inr (StoredMany sorted)))
      end
  | _ =>
      match get_id objects with
      | inl e => ret (Some (inl e))
      | inr id =>
          do _ <- _setCacheObject
                    (baseKey +:+ "#" +:+ string_of_opt_json id) objects;
          ret (Some (inr StoredOne))
      end
  end.

(** The rest of the detail fetch once the cache has been consulted: the
    test [ids.length <= 0], the request for [ids] and its two
    handlers. *)
Definition fetch_missing (path cacheKey : string) (apiKey : option string)
    (ids : idarg) (objectLookup : lookup_obj) (cachedResult : jsvalue)
    : M (option outcome) :=
  match length_le_0 ids with
  | inl e => ret (Some (Rejected e))
  | inr true => ret (Some (Resolved cachedResult))
  | inr false =>
      let params := _idListToParams ids in
      do r <- _request path params apiKey;
      match r with
      | inr requestResult =>
          do st <- _setCacheObjects cacheKey (data requestResult);
          ret match st with
              | None => None
              | Some (inl e) => Some (Rejected e)
              | Some (inr StoredOne) =>
                  Some (Resolved (VJson (data requestResult)))
              | Some (inr (StoredMany sorted)) =>
                  Some (Resolved (VJson (JArr
                    (obj_values (set_all sorted objectLookup)))))
              end
      | inl requestFailure =>
          ret (Some (Resolved
            (if (0 <? length (obj_keys objectLookup))%nat
             then VJson (JArr (obj_values objectLookup))
             else VError requestFailure)))
      end
  end.

(** [_apiDetailsRequest(path, ids, params, apiKey)]: the detail fetch.
    [None]: a non-empty string id whose cache entry is an array, where
    the source walks the characters of the string.  The last case of the
    match pairs an array of ids with a single lookup or a single id with
    an array of lookups, which [_findInCache] never produces. *)
Definition _apiDetailsRequest (path : string) (ids0 : idarg) (a : arg)
    (apiKey0 : option string) : M (option outcome) :=
  let (params0, apiKey) := normalize_args a apiKey0 in
  let params := with_lang params0 in
  let cacheKey := cache_key path apiKey params in
  let ids := match ids0 with
             | Many l => Many (sort_ids l)
             | Single s => Single s
             end in
  do cachedResult <- _findInCache cacheKey ids;
  match ids, cachedResult with
  | Many l, CAll vs =>
      let (idsNotInCache, objectLookup) := split_cached l vs [] [] in
      fetch_missing path cacheKey apiKey (Many idsNotInCache) objectLookup
        (jsvalue_of_cached cachedResult)
  | Single s, COne (Some (JArr xs)) =>
      match s with
      | SUndef =>
          ret (Some (Rejected
            (TypeError "Cannot read property 'length' of undefined")))
      | SNull =>
          ret (Some (Rejected
            (TypeError "Cannot read property 'length' of null")))
      | SStr (String _ _) => ret None
      | _ =>
          fetch_missing path cacheKey apiKey (Many []) []
            (jsvalue_of_cached cachedResult)
      end
  | Single s, COne (Some j) =>
      if truthy_json j
      then ret (Some (Resolved (VJson j)))
      else fetch_missing path cacheKey apiKey ids []
             (jsvalue_of_cached cachedResult)
  | Single s, COne None =>
      fetch_missing path cacheKey apiKey ids []
        (jsvalue_of_cached cachedResult)
  | _, _ => ret None
  end.

End Client.

(** ** Observations on a run *)

Definition is_http (e : event) : bool :=
  match e with HttpGet _ => true | _ => false end.

Definition is_write (e : event) : bool :=
  match e with CacheSet _ _ => true | _ => false end.

Definition is_read (e : event) : bool :=
  match e with CacheGet _ => true | _ => false end.

Definition transport_calls (l : list event) : nat :=
  length (List.filter is_http l).

Definition cache_writes (l : list event) : nat :=
  length (List.filter is_write l).

Definition cache_reads (l : list event) : nat :=
  length (List.filter is_read l).

(** The I/O performed between two states of the world. *)
Definition new_events (w w' : world) : list event :=
  drop (length (log w)) (log w').

(** The parameters and the API key a generic request works with, the key
    of a collection fetch and the request it sends on a miss. *)
Definition effective_params (this : config) (a : arg) (apiKey0 : option string)
    : params :=
  with_lang this (fst (normalize_args a apiKey0)).

Definition effective_apiKey (a : arg) (apiKey0 : option string)
    : option string :=
  snd (normalize_args a apiKey0).

Definition request_key (this : config) (path : string) (a : arg)
    (apiKey0 : option string) : string :=
  cache_key path (effective_apiKey a apiKey0) (effective_params this a apiKey0).

Definition collection_request (this : config) (path : string) (a : arg)
    (apiKey0 : option string) : http_request :=
  {| url := _buildURL path;
     qs := effective_params this a apiKey0;
     headers := auth_headers (effective_apiKey a apiKey0) |}.

(** The message of the error [_request] throws on a status that is neither
    200 nor 206. *)
Definition status_message (statusCode : Z) (body : string) : string :=
  "{ httpStatusCode : " +:+ string_of_Z statusCode
  +:+ ", responseBody : " +:+ body +:+ " }".

(** The cache after [set(key, v)] on a client configured with [this]. *)
Definition stored_as (this : config) (v : json) : entry :=
  {| value := v; ttl := cacheTimeout this |}.

(** The key of the cache entry of one detail object. *)
Definition detail_key (this : config) (path : string) (a : arg)
    (apiKey0 : option string) (id : Z) : string :=
  request_key this path a apiKey0 +:+ "#" +:+ string_of_Z id.

(** ** The pieces of a detail fetch *)

Definition is_undefined (o : option json) : bool :=
  match o with
  | Some _ => false
  | None => true
  end.

(** The cache lookup of one identifier under a base key. *)
Definition lookup_id (w : world) (base : string) (id : Z) : option json :=
  value <$> cache w !! (base +:+ "#" +:+ string_of_Z id).

(** Of the sorted ids, those the cache does not hold, and those it holds
    with their objects. *)
Definition missing_of (w : world) (base : string) (sorted : list Z) : list Z :=
  List.filter (fun id => is_undefined (lookup_id w base id)) sorted.

Definition cached_of (w : world) (base : string) (sorted : list Z)
    : list (Z * json) :=
  omap (fun id => match lookup_id w base id with
                  | Some v => Some (id, v)
                  | None => None
                  end) sorted.

(** The request a detail fetch sends for [ids]. *)
Definition details_request (path : string) (apiKey : option string)
    (ids : idarg) : http_request :=
  {| url := _buildURL path;
     qs := _idListToParams ids;
     headers := auth_headers apiKey |}.

(** The Transport answers [req] with status 200 or 206 and a body that
    decodes to an array of objects with integer ids, [objs]. *)
Definition answers (transport : http_request -> reply)
    (json_parse : string -> option json) (req : http_request)
    (objs : list (Z * json)) : Prop :=
  exists (statusCode : Z) (hdrs : list (string * string)) (body : string)
         (xs : list json),
    transport req = Response statusCode hdrs body /\
    (statusCode = 200 \/ statusCode = 206) /\
    json_parse body = Some (JArr xs) /\
    as_objects xs = Some objs.

(** The request for [req] fails: the call itself, the status or the
    decoding of the body. *)
Definition fails (transport : http_request -> reply)
    (json_parse : string -> option json) (req : http_request)
    (e : js_error) : Prop :=
  on_response json_parse (transport req) = inl e.

(** Every object the cache holds for one of [ids] carries that id. *)
Definition coherent (w : world) (base : string) (ids : list Z) : Prop :=
  forall (id : Z) (v : json),
    In id ids -> lookup_id w base id = Some v -> num_id v = Some id.

Definition all_indices (ids : list Z) : Prop :=
  Forall (fun id => is_array_index id = true) ids.

(** The identifiers of a sequence of returned objects. *)
Definition ids_of (objs : list json) : list (option Z) := map num_id objs.

(** The objects of a response are for exactly the ids that were asked
    for. *)
Definition covers (objs : list (Z * json)) (missing : list Z) : Prop :=
  forall id : Z, In id (map fst objs) <-> In id missing.

(** The lookup object at the end of a successful batch: the cached
    objects, then the fetched ones in the order of the sorted response. *)
Definition merged (w : world) (base : string) (sorted : list Z)
    (objs : list (Z * json)) : lookup_obj :=
  set_all (sort_on fst objs) (set_all (cached_of w base sorted) []).

(** ** Reading back what [JSON.stringify] wrote

    The functions of this part serve the analysis of the cache keys: a
    reader for the strings and numbers of a serialized parameter object,
    and a scanner that tells the inside of a string literal from the
    outside. *)





(** The API key as the key derivation sees it: an empty string counts as
    no key. *)
Definition key_part (apiKey : option string) : option string :=
  match apiKey with
  | Some k => if truthy_string apiKey then Some k else None
  | None => None
  end.









Definition Z_of_string (s : string) : option Z :=
  option_map Z.of_int (NilZero.int_of_string s).








(** ** A concrete client and Transport, for the examples *)

Definition default_config : config :=
  constructor {| raw_defaultLang := None;
                 raw_cacheTimeout := None;
                 raw_maxCacheObjects := None |}.

Definition item (n : Z) (name : string) : json :=
  JObj [("id", JNum n); ("name", JStr name)].

Definition empty_world : world := {| cache := ∅; log := [] |}.

(** A decoder that knows the bodies the example Transport sends. *)
Definition demo_parse (s : string) : option json :=
  assoc s [("[item 15]", JArr [item 15 "Abomination Hammer"]);
           ("[item 2016]", JArr [item 2016 "Guard Emblem"]);
           ("[item 2016, item 15]",
            JArr [item 2016 "Guard Emblem"; item 15 "Abomination Hammer"]);
           ("[1, 2, 3]", JArr [JNum 1; JNum 2; JNum 3]);
           ("0", JNum 0)].

(** A Transport that answers detail requests for the items 15 and 2016,
    the first page of a collection, and fails on everything else. *)
Definition demo_transport (req : http_request) : reply :=
  match assoc "ids" (qs req), assoc "page" (qs req) with
  | Some (SStr "15"), _ => Response 200 [] "[item 15]"
  | Some (SStr "2016"), _ => Response 200 [] "[item 2016]"
  | Some (SStr "15,2016"), _ => Response 200 [] "[item 2016, item 15]"
  | Some (SStr "15,15"), _ => Response 200 [] "[item 15]"
  | _, Some (SNum 1) => Response 206 [] "[1, 2, 3]"
  | _, Some (SNum 2) => Response 200 [] "0"
  | _, _ => Response 404 [] "no such id"
  end.

(** A world whose cache holds the given values, stored by a client
    configured with [this], and whose log is empty. *)
Definition world_with (this : config) (l : list (string * json)) : world :=
  {| cache := fold_right (fun kv c => <[fst kv := stored_as this (snd kv)]> c)
                         ∅ l;
     log := [] |}.

(** The example client with page 1 of the items in its cache. *)
Definition page1_world : world :=
  world_with default_config
    [(request_key default_config "items" (ArgObj [("page", SNum 1)]) None,
      JArr [JNum 1; JNum 2; JNum 3])].

(** The example client with item 15 in its cache, and with the items 15
    and 2016. *)
Definition item15_world : world :=
  world_with default_config
    [(detail_key default_config "items" ArgUndef None 15,
      item 15 "Abomination Hammer")].

Definition items_world : world :=
  world_with default_config
    [(detail_key default_config "items" ArgUndef None 15,
      item 15 "Abomination Hammer");
     (detail_key default_config "items" ArgUndef None 2016,
      item 2016 "Guard Emblem")].

(** ** Frames of the two fetches *)

(** [key] is a per-id key under [base]. *)
Definition under (base key : string) : Prop :=
  exists s : string, key = base +:+ "#" +:+ s.

(** The events are cache writes of per-id keys under [base]. *)
Definition writes_under (base : string) (evs : list event) : Prop :=
  List.Forall (fun e => exists key v, e = CacheSet key v /\ under base key) evs.

(** Two caches agree outside of the per-id keys under [base]. *)
Definition same_outside (base : string) (c c' : gmap string entry) : Prop :=
  forall key : string, ~ under base key -> c' !! key = c !! key.

(** ** A Transport for single items *)

(** A decoder and a Transport that answer the request for the single item
    15 with the item, the request for item 16 with item 15 as well, and
    fail on everything else. *)
Definition item_parse (s : string) : option json :=
  assoc s [("item 15", item 15 "Abomination Hammer")].

Definition item_transport (req : http_request) : reply :=
  match assoc "id" (qs req) with
  | Some (SNum 15) => Response 200 [] "item 15"
  | Some (SNum 16) => Response 200 [] "item 15"
  | _ => Response 404 [] "no such id"
  end.

(** The example client with the list of all item ids in its cache, as a
    collection fetch without parameters stores it. *)
Definition list_world : world :=
  world_with default_config
    [(request_key default_config "items" ArgUndef None,
      JArr [JNum 1; JNum 2; JNum 3])].

(** A Transport that knows item 15 only: asked for the items 15 and 16, it
    answers with item 15 and leaves 16 out. *)
Definition partial_transport (req : http_request) : reply :=
  match assoc "ids" (qs req) with
  | Some (SStr "15,16") => Response 200 [] "[item 15]"
  | _ => Response 404 [] "no such id"
  end.

(** ** The public methods

    Every public method of the class returns one of the two generic
    requests on a path and some of its parameters.  A method is kept as
    its name, its parameters and the call of its body; the class is the
    list of its method definitions in the order of the source. *)

(** An argument of a public method: a primitive value, an array of
    integers or a flat object. *)
Inductive jsarg : Type :=
| AVal (s : scalar)
| AArr (ids : list Z)
| AObj (o : params).

(** A path is a string literal or a template literal: text, and
    parameters of the method inserted as [String] leaves them. *)
Inductive piece : Type :=
| Lit (s : string)
| Par (x : string).

(** An argument expression of the call: a parameter of the method, or an
    object literal whose members are parameters. *)
Inductive expr : Type :=
| Var (x : string)
| Obj (fields : list (string * string)).

(** [return this._apiRequest(path, ...)] and
    [return this._apiDetailsRequest(path, ...)], with the arguments that
    follow the path. *)
Inductive call_expr : Type :=
| Request (path : list piece) (args : list expr)
| Details (path : list piece) (args : list expr).

Record method : Type := {
  method_name : string;
  method_formals : list string;
  method_body : call_expr
}.

Definition methods : list method := [
  {| method_name := "listAchievements";
     method_formals := ["page"; "pageSize"];
     method_body := Request [Lit "achievements"]
         [Obj [("page", "page"); ("page_size", "pageSize")]] |};
  {| method_name := "getAchievements";
     method_formals := ["ids"];
     method_body := Details [Lit "achievements"] [Var "ids"] |};
  {| method_name := "getDailyAchievements";
     method_formals := [];
     method_body := Request [Lit "achievements/daily"] [] |};
  {| method_name := "listAchievementGroups";
     method_formals := ["page"; "pageSize"];
     method_body := Request [Lit "achievements/groups"]
         [Obj [("page", "page"); ("page_size", "pageSize")]] |};
  {| method_name := "getAchievementGroups";
     method_formals := ["ids"];
     method_body := Details [Lit "achievements/groups"] [Var "ids"] |};
  {| method_name := "listAchievementCategories";
     method_formals := ["page"; "pageSize"];
     method_body := Request [Lit "achievements/categories"]
         [Obj [("page", "page"); ("page_size", "pageSize")]] |};
  {| method_name := "getAchievementCategories";
     method_formals := ["ids"];
     method_body := Details [Lit "achievements/categories"] [Var "ids"] |};
  {| method_name := "getAccount";
     method_formals := ["apiKey"];
     method_body := Request [Lit "account"] [Var "apiKey"] |};
  {| method_name := "getAccountAchievements";
     method_formals := ["apiKey"];
     method_body := Request [Lit "account/achievements"] [Var "apiKey"] |};
  {| method_name := "getAccountBank";
     method_formals := ["apiKey"];
     method_body := Request [Lit "account/bank"] [Var "apiKey"] |};
  {| method_name := "getAccountDyes";
     method_formals := ["apiKey"];
     method_body := Request [Lit "account/dyes"] [Var "apiKey"] |};
  {| method_name := "getAccountInventory";
     method_formals := ["apiKey"];
     method_body := Request [Lit "account/inventory"] [Var "apiKey"] |};
  {| method_name := "getAccountMaterials";
     method_formals := ["apiKey"];
     method_body := Request [Lit "account/materials"] [Var "apiKey"] |};
  {| method_name := "getAccountMinis";
     method_formals := ["apiKey"];
     method_body := Request [Lit "account/minis"] [Var "apiKey"] |};
  {| method_name := "getAccountSkins";
     method_formals := ["apiKey"];
     method_body := Request [Lit "account/skins"] [Var "apiKey"] |};
  {| method_name := "getAccountWallet";
     method_formals := ["apiKey"];
     method_body := Request [Lit "account/wallet"] [Var "apiKey"] |};
  {| method_name := "listCharacters";
     method_formals := ["apiKey"; "page"; "pageSize"];
     method_body := Request [Lit "characters"]
         [Obj [("page", "page"); ("page_size", "pageSize")]; Var "apiKey"] |};
  {| method_name := "getCharacters";
     method_formals := ["apiKey"; "ids"];
     method_body := Details [Lit "characters"] [Var "ids"; Var "apiKey"] |};
  {| method_name := "getCurrentBuyTransactions";
     method_formals := ["apiKey"];
     method_body := Request [Lit "commerce/transactions/current/buys"]
         [Var "apiKey"] |};
  {| method_name := "getCurrentSellTransactions";
     method_formals := ["apiKey"];
     method_body := Request [Lit "commerce/transactions/current/sells"]
         [Var "apiKey"] |};
  {| method_name := "getHistoricalBuyTransactions";
     method_formals := ["apiKey"];
     method_body := Request [Lit "commerce/transactions/history/buys"]
         [Var "apiKey"] |};
  {| method_name := "getHistoricalSellTransactions";
     method_formals := ["apiKey"];
     method_body := Request [Lit "commerce/transactions/history/sells"]
         [Var "apiKey"] |};
  {| method_name := "getPvPStats";
     method_formals := ["apiKey"];
     method_body := Request [Lit "pvp/stats"] [Var "apiKey"] |};
  {| method_name := "listPvPGames";
     method_formals := ["apiKey"; "page"; "pageSize"];
     method_body := Request [Lit "pvp/games"]
         [Obj [("page", "page"); ("page_size", "pageSize")]; Var "apiKey"] |};
  {| method_name := "getPvPGames";
     method_formals := ["apiKey"; "ids"];
     method_body := Details [Lit "pvp/games"] [Var "ids"; Var "apiKey"] |};
  {| method_name := "getPvPStandings";
     method_formals := ["apiKey"];
     method_body := Request [Lit "pvp/standings"] [Var "apiKey"] |};
  {| method_name := "getTokenInfo";
     method_formals := ["apiKey"];
     method_body := Request [Lit "tokeninfo"] [Var "apiKey"] |};
  {| method_name := "listSpecializations";
     method_formals := ["page"; "pageSize"];
     method_body := Request [Lit "specializations"]
         [Obj [("page", "page"); ("page_size", "pageSize")]] |};
  {| method_name := "getSpecializations";
     method_formals := ["ids"];
     method_body := Details [Lit "specializations"] [Var "ids"] |};
  {| method_name := "listSkills";
     method_formals := ["page"; "pageSize"];
     method_body := Request [Lit "skills"]
         [Obj [("page", "page"); ("page_size", "pageSize")]] |};
  {| method_name := "getSkills";
     method_formals := ["ids"];
     method_body := Details [Lit "skills"] [Var "ids"] |};
  {| method_name := "listTraits";
     method_formals := ["page"; "pageSize"];
     method_body := Request [Lit "traits"]
         [Obj [("page", "page"); ("page_size", "pageSize")]] |};
  {| method_name := "getTraits";
     method_formals := ["ids"];
     method_body := Details [Lit "traits"] [Var "ids"] |};
  {| method_name := "listEmblemForegrounds";
     method_formals := ["page"; "pageSize"];
     method_body := Request [Lit "emblem/foregrounds"]
         [Obj [("page", "page"); ("page_size", "pageSize")]] |};
  {| method_name := "getEmblemForegrounds";
     method_formals := ["ids"];
     method_body := Details [Lit "emblem/foregrounds"] [Var "ids"] |};
  {| method_name := "listEmblemBackgrounds";
     method_formals := ["page"; "pageSize"];
     method_body := Request [Lit "emblem/backgrounds"]
         [Obj [("page", "page"); ("page_size", "pageSize")]] |};
  {| method_name := "getEmblemBackgrounds";
     method_formals := ["ids"];
     method_body := Details [Lit "emblem/backgrounds"] [Var "ids"] |};
  {| method_name := "listGuildPermissions";
     method_formals := ["page"; "pageSize"];
     method_body := Request [Lit "guild/permissions"]
         [Obj [("page", "page"); ("page_size", "pageSize")]] |};
  {| method_name := "getGuildPermissions";
     method_formals := ["ids"];
     method_body := Details [Lit "guild/permissions"] [Var "ids"] |};
  {| method_name := "listGuildPermissions";
     method_formals := ["page"; "pageSize"];
     method_body := Request [Lit "guild/upgrades"]
         [Obj [("page", "page"); ("page_size", "pageSize")]] |};
  {| method_name := "getGuildPermissions";
     method_formals := ["ids"];
     method_body := Details [Lit "guild/upgrades"] [Var "ids"] |};
  {| method_name := "getGuildLog";
     method_formals := ["apiKey"; "guildId"];
     method_body := Request [Lit "guild/"; Par "guildId"; Lit "/log"]
         [Var "apiKey"] |};
  {| method_name := "getGuildMembers";
     method_formals := ["apiKey"; "guildId"];
     method_body := Request [Lit "guild/"; Par "guildId"; Lit "/members"]
         [Var "apiKey"] |};
  {| method_name := "getGuildRanks";
     method_formals := ["apiKey"; "guildId"];
     method_body := Request [Lit "guild/"; Par "guildId"; Lit "/ranks"]
         [Var "apiKey"] |};
  {| method_name := "getGuildStash";
     method_formals := ["apiKey"; "guildId"];
     method_body := Request [Lit "guild/"; Par "guildId"; Lit "/stash"]
         [Var "apiKey"] |};
  {| method_name := "getGuildTreasury";
     method_formals := ["apiKey"; "guildId"];
     method_body := Request [Lit "guild/"; Par "guildId"; Lit "/treasury"]
         [Var "apiKey"] |};
  {| method_name := "getGuildTreasury";
     method_formals := ["apiKey"; "guildId"];
     method_body := Request [Lit "guild/"; Par "guildId"; Lit "/teams"]
         [Var "apiKey"] |};
  {| method_name := "getGuildUpgrades";
     method_formals := ["apiKey"; "guildId"];
     method_body := Request [Lit "guild/"; Par "guildId"; Lit "/upgrades"]
         [Var "apiKey"] |};
  {| method_name := "listItems";
     method_formals := ["page"; "pageSize"];
     method_body := Request [Lit "items"]
         [Obj [("page", "page"); ("page_size", "pageSize")]] |};
  {| method_name := "getItems";
     method_formals := ["ids"];
     method_body := Details [Lit "items"] [Var "ids"] |};
  {| method_name := "listMaterials";
     method_formals := ["page"; "pageSize"];
     method_body := Request [Lit "materials"]
         [Obj [("page", "page"); ("page_size", "pageSize")]] |};
  {| method_name := "getMaterials";
     method_formals := ["ids"];
     method_body := Details [Lit "materials"] [Var "ids"] |};
  {| method_name := "listRecipes";
     method_formals := ["page"; "pageSize"];
     method_body := Request [Lit "recipes"]
         [Obj [("page", "page"); ("page_size", "pageSize")]] |};
  {| method_name := "getRecipes";
     method_formals := ["ids"];
     method_body := Details [Lit "recipes"] [Var "ids"] |};
  {| method_name := "searchRecipes";
     method_formals := ["query"];
     method_body := Request [Lit "recipes/search"] [Var "query"] |};
  {| method_name := "listSkins";
     method_formals := ["page"; "pageSize"];
     method_body := Request [Lit "skins"]
         [Obj [("page", "page"); ("page_size", "pageSize")]] |};
  {| method_name := "getSkins";
     method_formals := ["ids"];
     method_body := Details [Lit "skins"] [Var "ids"] |};
  {| method_name := "listContinents";
     method_formals := ["page"; "pageSize"];
     method_body := Request [Lit "continents"]
         [Obj [("page", "page"); ("page_size", "pageSize")]] |};
  {| method_name := "listFloors";
     method_formals := ["continentId"; "page"; "pageSize"];
     method_body := Request
         [Lit "continents/"; Par "continentId"; Lit "/floors"]
         [Obj [("page", "page"); ("page_size", "pageSize")]] |};
  {| method_name := "listRegions";
     method_formals := ["continentId"; "floorId"; "page"; "pageSize"];
     method_body := Request
         [Lit "continents/"; Par "continentId"; Lit "/floors/"; Par "floorId";
          Lit "/regions"]
         [Obj [("page", "page"); ("page_size", "pageSize")]] |};
  {| method_name := "listMapsFromRegion";
     method_formals := ["continentId"; "floorId"; "regionId"; "page"; "pageSize"];
     method_body := Request
         [Lit "continents/"; Par "continentId"; Lit "/floors/"; Par "floorId";
          Lit "/regions/"; Par "regionId"; Lit "/maps"]
         [Obj [("page", "page"); ("page_size", "pageSize")]] |};
  {| method_name := "listSectors";
     method_formals :=
       ["continentId"; "floorId"; "regionId"; "mapId"; "page"; "pageSize"];
     method_body := Request
         [Lit "continents/"; Par "continentId"; Lit "/floors/"; Par "floorId";
          Lit "/regions/"; Par "regionId"; Lit "/maps/"; Par "mapId";
          Lit "/sectors"]
         [Obj [("page", "page"); ("page_size", "pageSize")]] |};
  {| method_name := "listPOIs";
     method_formals :=
       ["continentId"; "floorId"; "regionId"; "mapId"; "page"; "pageSize"];
     method_body := Request
         [Lit "continents/"; Par "continentId"; Lit "/floors/"; Par "floorId";
          Lit "/regions/"; Par "regionId"; Lit "/maps/"; Par "mapId";
          Lit "/pois"]
         [Obj [("page", "page"); ("page_size", "pageSize")]] |};
  {| method_name := "listTasks";
     method_formals :=
       ["continentId"; "floorId"; "regionId"; "mapId"; "page"; "pageSize"];
     method_body := Request
         [Lit "continents/"; Par "continentId"; Lit "/floors/"; Par "floorId";
          Lit "/regions/"; Par "regionId"; Lit "/maps/"; Par "mapId";
          Lit "/tasks"]
         [Obj [("page", "page"); ("page_size", "pageSize")]] |};
  {| method_name := "listSeasons";
     method_formals := ["page"; "pageSize"];
     method_body := Request [Lit "pvp/season"]
         [Obj [("page", "page"); ("page_size", "pageSize")]] |};
  {| method_name := "getSeasons";
     method_formals := ["ids"];
     method_body := Details [Lit "pvp/season"] [Var "ids"] |};
  {| method_name := "listBuySellListings";
     method_formals := ["page"; "pageSize"];
     method_body := Request [Lit "commerce/listings"]
         [Obj [("page", "page"); ("page_size", "pageSize")]] |};
  {| method_name := "getBuySellListings";
     method_formals := ["ids"];
     method_body := Details [Lit "commerce/listings"] [Var "ids"] |};
  {| method_name := "getCoinExchange";
     method_formals := ["quantity"];
     method_body := Request [Lit "commerce/exchange/coins"]
         [Obj [("quantity", "quantity")]] |};
  {| method_name := "getGemExchange";
     method_formals := ["quantity"];
     method_body := Request [Lit "commerce/exchange/gems"]
         [Obj [("quantity", "quantity")]] |};
  {| method_name := "listPrices";
     method_formals := ["page"; "pageSize"];
     method_body := Request [Lit "commerce/prices"]
         [Obj [("page", "page"); ("page_size", "pageSize")]] |};
  {| method_name := "getPrices";
     method_formals := ["ids"];
     method_body := Details [Lit "commerce/prices"] [Var "ids"] |};
  {| method_name := "listMatches";
     method_formals := ["page"; "pageSize"];
     method_body := Request [Lit "wvw/matches"]
         [Obj [("page", "page"); ("page_size", "pageSize")]] |};
  {| method_name := "getMatches";
     method_formals := ["ids"];
     method_body := Details [Lit "wvw/matches"] [Var "ids"] |};
  {| method_name := "getMatchByWorld";
     method_formals := ["worldId"];
     method_body := Request [Lit "wvw/matches"] [Obj [("world", "worldId")]] |};
  {| method_name := "listObjectives";
     method_formals := ["page"; "pageSize"];
     method_body := Request [Lit "wvw/objectives"]
         [Obj [("page", "page"); ("page_size", "pageSize")]] |};
  {| method_name := "getObjectives";
     method_formals := ["ids"];
     method_body := Details [Lit "wvw/objectives"] [Var "ids"] |};
  {| method_name := "getCurrentBuild";
     method_formals := [];
     method_body := Request [Lit "build"] [] |};
  {| method_name := "listColors";
     method_formals := ["page"; "pageSize"];
     method_body := Request [Lit "colors"]
         [Obj [("page", "page"); ("page_size", "pageSize")]] |};
  {| method_name := "getColors";
     method_formals := ["ids"];
     method_body := Details [Lit "colors"] [Var "ids"] |};
  {| method_name := "listCurrencies";
     method_formals := ["page"; "pageSize"];
     method_body := Request [Lit "currencies"]
         [Obj [("page", "page"); ("page_size", "pageSize")]] |};
  {| method_name := "getCurrencies";
     method_formals := ["ids"];
     method_body := Details [Lit "currencies"] [Var "ids"] |};
  {| method_name := "listFiles";
     method_formals := ["page"; "pageSize"];
     method_body := Request [Lit "files"]
         [Obj [("page", "page"); ("page_size", "pageSize")]] |};
  {| method_name := "getFiles";
     method_formals := ["ids"];
     method_body := Details [Lit "files"] [Var "ids"] |};
  {| method_name := "listQuaggans";
     method_formals := ["page"; "pageSize"];
     method_body := Request [Lit "quaggans"]
         [Obj [("page", "page"); ("page_size", "pageSize")]] |};
  {| method_name := "getQuaggans";
     method_formals := ["ids"];
     method_body := Details [Lit "quaggans"] [Var "ids"] |};
  {| method_name := "listMinis";
     method_formals := ["page"; "pageSize"];
     method_body := Request [Lit "minis"]
         [Obj [("page", "page"); ("page_size", "pageSize")]] |};
  {| method_name := "getMinis";
     method_formals := ["ids"];
     method_body := Details [Lit "minis"] [Var "ids"] |};
  {| method_name := "listWorlds";
     method_formals := ["page"; "pageSize"];
     method_body := Request [Lit "worlds"]
         [Obj [("page", "page"); ("page_size", "pageSize")]] |};
  {| method_name := "getWorlds";
     method_formals := ["ids"];
     method_body := Details [Lit "worlds"] [Var "ids"] |}
].

(** Of two methods of the same name in a class body, the later definition
    replaces the earlier one. *)
Definition find_method (name : string) : option method :=
  List.find (fun m => String.eqb name (method_name m)) (rev methods).

(** The value of a parameter in a call: an argument that is left out is
    [undefined]. *)
Definition actual (formals : list string) (actuals : list jsarg)
    (x : string) : jsarg :=
  match assoc x (combine formals actuals) with
  | Some v => v
  | None => AVal SUndef
  end.

(** [String(v)], as a template literal computes it. *)
Definition string_of_jsarg (v : jsarg) : string :=
  match v with
  | AVal s => string_of_scalar s
  | AArr l => join "," (map string_of_Z l)
  | AObj _ => "[object Object]"
  end.

Fixpoint render (formals : list string) (actuals : list jsarg)
    (path : list piece) : string :=
  match path with
  | [] => ""
  | Lit s :: rest => s +:+ render formals actuals rest
  | Par x :: rest =>
      string_of_jsarg (actual formals actuals x)
      +:+ render formals actuals rest
  end.

(** The members of an object literal; [None] when a member is an array
    or an object, which a parameter object of this model does not hold. *)
Fixpoint eval_fields (formals : list string) (actuals : list jsarg)
    (fields : list (string * string)) : option params :=
  match fields with
  | [] => Some []
  | (f, x) :: rest =>
      match actual formals actuals x, eval_fields formals actuals rest with
      | AVal s, Some p => Some ((f, s) :: p)
      | _, _ => None
      end
  end.

Definition eval_expr (formals : list string) (actuals : list jsarg)
    (e : expr) : option jsarg :=
  match e with
  | Var x => Some (actual formals actuals x)
  | Obj fields =>
      match eval_fields formals actuals fields with
      | Some p => Some (AObj p)
      | None => None
      end
  end.

Fixpoint eval_args (formals : list string) (actuals : list jsarg)
    (args : list expr) : option (list jsarg) :=
  match args with
  | [] => Some []
  | e :: rest =>
      match eval_expr formals actuals e, eval_args formals actuals rest with
      | Some v, Some vs => Some (v :: vs)
      | _, _ => None
      end
  end.

(** A call of one of the two generic requests. *)
Inductive call : Type :=
| CallRequest (path : string) (a : arg) (apiKey : option string)
| CallDetails (path : string) (ids : idarg) (a : arg)
    (apiKey : option string).

(** The [params] argument of a generic request.  A value that is not an
    object is taken for the API key, which counts when it is truthy and is
    then used as [String] leaves it; an array is outside this model. *)
Definition as_arg (v : jsarg) : option arg :=
  match v with
  | AObj o => Some (ArgObj o)
  | AVal s =>
      Some (if truthy_scalar s then ArgStr (string_of_scalar s) else ArgUndef)
  | AArr _ => None
  end.

(** The [apiKey] argument of a generic request. *)
Definition as_key (v : jsarg) : option (option string) :=
  match v with
  | AVal s =>
      Some (if truthy_scalar s then Some (string_of_scalar s) else None)
  | _ => None
  end.

(** The [ids] argument of a detail fetch. *)
Definition as_ids (v : jsarg) : option idarg :=
  match v with
  | AVal s => Some (Single s)
  | AArr l => Some (Many l)
  | AObj _ => None
  end.

Definition nth_arg (i : nat) (vs : list jsarg) : jsarg :=
  nth i vs (AVal SUndef).

Definition eval_body (formals : list string) (actuals : list jsarg)
    (b : call_expr) : option call :=
  match b with
  | Request path args =>
      match eval_args formals actuals args with
      | Some vs =>
          match as_arg (nth_arg 0 vs), as_key (nth_arg 1 vs) with
          | Some a, Some k =>
              Some (CallRequest (render formals actuals path) a k)
          | _, _ => None
          end
      | None => None
      end
  | Details path args =>
      match eval_args formals actuals args with
      | Some vs =>
          match as_ids (nth_arg 0 vs), as_arg (nth_arg 1 vs),
                as_key (nth_arg 2 vs) with
          | Some ids, Some a, Some k =>
              Some (CallDetails (render formals actuals path) ids a k)
          | _, _, _ => None
          end
      | None => None
      end
  end.

(** The generic request a method call comes down to; [None] when there is
    no such method or an argument is outside this model. *)
Definition target (name : string) (actuals : list jsarg) : option call :=
  match find_method name with
  | Some m => eval_body (method_formals m) actuals (method_body m)
  | None => None
  end.

Definition path_of (c : call) : string :=
  match c with
  | CallRequest path _ _ => path
  | CallDetails path _ _ _ => path
  end.

(** The API key a call works with. *)
Definition key_of (c : call) : option string :=
  match c with
  | CallRequest _ a k => key_part (effective_apiKey a k)
  | CallDetails _ _ a k => key_part (effective_apiKey a k)
  end.

Definition run (this : config) (transport : http_request -> reply)
    (json_parse : string -> option json) (c : call) : M (option outcome) :=
  match c with
  | CallRequest path a k =>
      fun w => let (r, w') := _apiRequest this transport json_parse path a k w
               in (Some r, w')
  | CallDetails path ids a k =>
      _apiDetailsRequest this transport json_parse path ids a k
  end.

Definition invoke (this : config) (transport : http_request -> reply)
    (json_parse : string -> option json) (name : string)
    (actuals : list jsarg) : option (M (option outcome)) :=
  match target name actuals with
  | Some c => Some (run this transport json_parse c)
  | None => None
  end.

(** ** Paths that end in a given segment

    A scanner for the strings that end in a pattern made of a slash and a
    word without slash.  Its state is the length of the longest prefix of
    the pattern the text read so far ends in. *)

Definition slash : ascii := "/"%char.

Definition restart (c : ascii) : nat :=
  if Ascii.eqb c slash then 1%nat else 0%nat.

Definition suffix_step (pat : string) (q : nat) (c : ascii) : nat :=
  match String.get q pat with
  | Some p => if Ascii.eqb c p then S q else restart c
  | None => restart c
  end.

Fixpoint suffix_run (pat : string) (q : nat) (s : string) : nat :=
  match s with
  | EmptyString => q
  | String c r => suffix_run pat (suffix_step pat q c) r
  end.

(** The last piece of a path is text that takes the scanner to no
    accepting state, whatever precedes it. *)
Definition never_ends_in (pat : string) (path : list piece) : bool :=
  match rev path with
  | Lit (String c r) :: _ =>
      forallb (fun q => (suffix_run pat q (String c r) <? String.length pat)%nat)
              (seq 0 (S (String.length pat)))
  | _ => false
  end.

(** The API key is passed where the generic request expects it: alone or
    after the parameter object for a collection, after the ids for
    details. *)
Definition passes_key (b : call_expr) : bool :=
  match b with
  | Request _ [Var x] => String.eqb x "apiKey"
  | Request _ [Obj _; Var x] => String.eqb x "apiKey"
  | Details _ [Var i; Var x] => negb (String.eqb i "apiKey") && String.eqb x "apiKey"
  | _ => false
  end.

(** No parameter is passed where an API key is expected. *)
Definition passes_no_key (b : call_expr) : bool :=
  match b with
  | Request _ [] => true
  | Request _ [Obj _] => true
  | Details _ [Var _] => true
  | _ => false
  end.

Definition pieces_of (b : call_expr) : list piece :=
  match b with
  | Request path _ => path
  | Details path _ => path
  end.

(** The definition a method name resolves to is one whose path never ends
    in the pattern. *)
Definition resolves_clear_of (pat : string) (m : method) : bool :=
  match find_method (method_name m) with
  | Some m' => never_ends_in pat (pieces_of (method_body m'))
  | None => true
  end.

Definition has_key_parameter (m : method) : bool :=
  existsb (String.eqb "apiKey") (method_formals m).

(** The body of a method passes the API key if and only if the method has
    one; [searchRecipes] passes its query in that place. *)
Definition key_is_wired (m : method) : bool :=
  if has_key_parameter m
  then passes_key (method_body m)
  else String.eqb (method_name m) "searchRecipes"
       || passes_no_key (method_body m).

(** * The earlier revision of the client

    The revision of [src/gw2api.js]: requests without API keys, cache keys
    that start with the language, and a detail fetch that stores and
    returns the objects of a response by their position. *)

Module Legacy.

Record config : Type := {
  lang : string;
  cacheTimeout : Z;
  maxCacheObjects : Z
}.

Record raw_config : Type := {
  raw_lang : option string;
  raw_cacheTimeout : option Z;
  raw_maxCacheObjects : option Z
}.

Definition constructor (c : raw_config) : config :=
  {| lang := or_string (raw_lang c) "en";
     cacheTimeout := or_Z (raw_cacheTimeout c) 1800;
     maxCacheObjects := or_Z (raw_maxCacheObjects c) 1000 |}.

(** [isInt(n)]: [Number(n) === n && n % 1 === 0], on the values an [ids]
    argument of this model takes: true of the integers and of negative
    zero, false of [NaN] and of the infinities, whose remainder is
    [NaN]. *)
Definition isInt (ids : idarg) : bool :=
  match ids with
  | Single (SNum _) | Single SNegZero => true
  | _ => false
  end.

(** [!ids]: an array is truthy, also when it is empty. *)
Definition falsy (ids : idarg) : bool :=
  match ids with
  | Single s => negb (truthy_scalar s)
  | Many _ => false
  end.

(** The characters of a string, which [ids[i]] reads when [ids] is one. *)
Fixpoint chars (s : string) : list string :=
  match s with
  | EmptyString => []
  | String c r => String c EmptyString :: chars r
  end.

(** The keys [ids[0]], ..., [ids[ids.length - 1]] of a value that is
    neither falsy nor an integer, as a template literal writes them; a
    boolean has no [length]. *)
Definition elements (ids : idarg) : list string :=
  match ids with
  | Many l => map string_of_Z l
  | Single (SStr s) => chars s
  | Single _ => []
  end.

(** [_idListToParams]. *)
Definition _idListToParams (ids : idarg) : js_error + params :=
  match ids with
  | Many l => inr [("ids", SStr (join "," (map string_of_Z l)))]
  | Single (SNum n) => inr [("id", SNum n)]
  | Single SNegZero => inr [("id", SNegZero)]
  | Single _ =>
      inl (Error "ids parameter must be an array of ids or a single id")
  end.

(** [ids.filter(...)] in the detail fetch: the ids at the positions where
    the lookup was [undefined]. *)
Fixpoint not_cached (ids : list Z) (cachedResult : list (option json))
    : list Z :=
  match ids, cachedResult with
  | id :: ids', None :: rest => id :: not_cached ids' rest
  | id :: ids', Some _ :: rest => not_cached ids' rest
  | id :: ids', [] => id :: not_cached ids' []
  | [], _ => []
  end.

(** [cachedResult[undefinedPositions[i]] = requestResult[i]]: the lookups
    that were [undefined] are replaced, in their order, by the objects of
    the response. *)
Fixpoint patch (cachedResult : list (option json)) (requestResult : list json)
    : list (option json) :=
  match cachedResult with
  | [] => []
  | Some v :: rest => Some v :: patch rest requestResult
  | None :: rest =>
      match requestResult with
      | x :: objects => Some x :: patch rest objects
      | [] => None :: patch rest []
      end
  end.

(** The error of a call of [ids.filter] on a value that is not an
    array. *)
Definition no_filter (ids : idarg) : js_error :=
  match ids with
  | Single SUndef => TypeError "Cannot read property 'filter' of undefined"
  | Single SNull => TypeError "Cannot read property 'filter' of null"
  | _ => TypeError "ids.filter is not a function"
  end.

(** [ids.length > 0] for a value that is not an array. *)
Definition has_length (s : scalar) : js_error + bool :=
  match s with
  | SUndef => inl (TypeError "Cannot read property 'length' of undefined")
  | SNull => inl (TypeError "Cannot read property 'length' of null")
  | SStr t => inr (0 <? String.length t)%nat
  | _ => inr false
  end.

(** A public method: [return this.callee(path, args)], where the
    arguments are parameters of the method. *)
Record method : Type := {
  method_name : string;
  method_formals : list string;
  callee : string;
  path : string;
  args : list string
}.

(** The public methods of the class, in the order of the source. *)
Definition methods : list method := [
  {| method_name := "listAchievements"; method_formals := ["page"; "pageSize"];
     callee := "_apiRequest"; path := "achievements";
     args := ["page"; "pageSize"] |};
  {| method_name := "getAchievements"; method_formals := ["ids"];
     callee := "_apiDetailsRequest"; path := "achievements";
     args := ["ids"] |};
  {| method_name := "getDailyAchievements"; method_formals := [];
     callee := "_apiRequest"; path := "achievements/daily";
     args := [] |};
  {| method_name := "listAchievementGroups"; method_formals := ["page"; "pageSize"];
     callee := "_apiRequest"; path := "achievements/groups";
     args := ["page"; "pageSize"] |};
  {| method_name := "getAchievementGroups"; method_formals := ["ids"];
     callee := "_apiDetailsRequest"; path := "achievements/groups";
     args := ["ids"] |};
  {| method_name := "listAchievementCategories"; method_formals := ["page"; "pageSize"];
     callee := "_apiRequest"; path := "achievements/categories";
     args := ["page"; "pageSize"] |};
  {| method_name := "getAchievementCategories"; method_formals := ["ids"];
     callee := "_apiDetailsRequest"; path := "achievements/categories";
     args := ["ids"] |};
  {| method_name := "listSpecializations"; method_formals := ["page"; "pageSize"];
     callee := "_apiRequest"; path := "specializations";
     args := ["page"; "pageSize"] |};
  {| method_name := "getSpecializations"; method_formals := ["ids"];
     callee := "_apiDetailsRequest"; path := "specializations";
     args := ["ids"] |};
  {| method_name := "listSkills"; method_formals := ["page"; "pageSize"];
     callee := "_apiRequest"; path := "skills";
     args := ["page"; "pageSize"] |};
  {| method_name := "getSkills"; method_formals := ["ids"];
     callee := "_apiDetailsRequest"; path := "skills";
     args := ["ids"] |};
  {| method_name := "listTraits"; method_formals := ["page"; "pageSize"];
     callee := "_apiRequest"; path := "traits";
     args := ["page"; "pageSize"] |};
  {| method_name := "getTraits"; method_formals := ["ids"];
     callee := "_apiDetailsRequest"; path := "traits";
     args := ["ids"] |};
  {| method_name := "listEmblemForegrounds"; method_formals := ["page"; "pageSize"];
     callee := "_apiRequest"; path := "emblem/foregrounds";
     args := ["page"; "pageSize"] |};
  {| method_name := "getEmblemForegrounds"; method_formals := ["ids"];
     callee := "_apiDetailsRequest"; path := "emblem/foregrounds";
     args := ["ids"] |};
  {| method_name := "listEmblemBackgrounds"; method_formals := ["page"; "pageSize"];
     callee := "_apiRequest"; path := "emblem/backgrounds";
     args := ["page"; "pageSize"] |};
  {| method_name := "getEmblemBackgrounds"; method_formals := ["ids"];
     callee := "_apiDetailsRequest"; path := "emblem/backgrounds";
     args := ["ids"] |};
  {| method_name := "listGuildPermissions"; method_formals := ["page"; "pageSize"];
     callee := "_apiRequest"; path := "guild/permissions";
     args := ["page"; "pageSize"] |};
  {| method_name := "getGuildPermissions"; method_formals := ["ids"];
     callee := "_apiDetailsRequest"; path := "guild/permissions";
     args := ["ids"] |};
  {| method_name := "listGuildPermissions"; method_formals := ["page"; "pageSize"];
     callee := "_apiRequest"; path := "guild/upgrades";
     args := ["page"; "pageSize"] |};
  {| method_name := "getGuildPermissions"; method_formals := ["ids"];
     callee := "_apiDetailsRequest"; path := "guild/upgrades";
     args := ["ids"] |};
  {| method_name := "listItems"; method_formals := ["page"; "pageSize"];
     callee := "_apiBasicRequest"; path := "items";
     args := ["page"; "pageSize"] |};
  {| method_name := "getItems"; method_formals := ["ids"];
     callee := "_apiDetailsRequest"; path := "items";
     args := ["ids"] |}
].

(** The other methods of the class. *)
Definition internal : list string :=
  ["constructor"; "_jsonParse"; "_request"; "_buildURL";
   "_findInCacheSimple"; "_findInCache"; "_setCacheObject";
   "_setCacheObjects"; "_idListToParams"; "_apiRequest";
   "_apiDetailsRequest"].

(** [this.name] is a method of the class. *)
Definition defines (name : string) : bool :=
  existsb (String.eqb name) (internal ++ map method_name methods).

(** Of two methods of the same name the later definition counts. *)
Definition find_method (name : string) : option method :=
  List.find (fun m => String.eqb name (method_name m)) (rev methods).


Section Client.

Variable this : config.
Variable transport : http_request -> reply.
Variable json_parse : string -> option json.

(** [this.cache.set(key, object)] while the store has room
    ([legacy_has_room]). *)
Definition cache_set (key : string) (object : json) : M unit :=
  fun w =>
    (tt, {| cache := <[key := {| value := object; ttl := cacheTimeout this |}]>
                       (cache w);
            log := log w ++ [CacheSet key object] |}).

(** The handler of [_request]: every status but 200 is an error. *)
Definition on_response (response : reply) : js_error + json :=
  match response with
  | NetworkFailure e => inl e
  | Response statusCode hdrs body =>
      if negb (statusCode =? 200)
      then inl (Error ("HTTPstatusCode: " +:+ string_of_Z statusCode
                       +:+ " - " +:+ body))
      else _jsonParse json_parse body
  end.

(** [_request(path, parameters)]: the language is added to the parameters
    of every request. *)
Definition _request (path : string) (parameters : params)
    : M (js_error + json) :=
  let parameters := set_prop "lang" (SStr (lang this)) parameters in
  let options :=
    {| url := _buildURL path; qs := parameters; headers := [] |} in
  do response <- http_get transport options;
  ret (on_response response).

Definition _findInCacheSimple (baseKey : string) : M (option json) :=
  cache_get (lang this +:+ "#" +:+ baseKey).

Definition _findInCache (baseKey : string) (ids : idarg) : M cached :=
  let all :=
    do vs <- mapM (fun x => cache_get (lang this +:+ "#" +:+ baseKey +:+ "#"
                                       +:+ x))
                  (elements ids);
    ret (CAll vs) in
  match ids with
  | Single s =>
      if falsy ids
      then do v <- _findInCacheSimple baseKey; ret (COne v)
      else if isInt ids
      then do v <- cache_get (lang this +:+ "#" +:+ baseKey +:+ "#"
                              +:+ string_of_scalar s);
           ret (COne v)
      else all
  | Many _ => all
  end.

Definition _setCacheObject (baseKey : string) (object : json) : M unit :=
  cache_set (lang this +:+ "#" +:+ baseKey) object.

(** The loop of [_setCacheObjects]: the object at a position is stored
    under the id at that position.  [false]: the objects have run out and
    [undefined] would be stored, which is outside this model. *)
Fixpoint store_at (baseKey : string) (ids : list string) (objects : list json)
    : M bool :=
  match ids, objects with
  | [], _ => ret true
  | id :: ids', x :: objects' =>
      do _ <- cache_set (lang this +:+ "#" +:+ baseKey +:+ "#" +:+ id) x;
      store_at baseKey ids' objects'
  | _ :: _, [] => ret false
  end.

(** [_setCacheObjects(baseKey, ids, objects)].  The result carries the
    array as the sort leaves it.  [None]: an element of the array has no
    integer [id], or there are fewer objects than ids. *)
Definition _setCacheObjects (baseKey : string) (ids : idarg) (objects : json)
    : M (option (js_error + stored)) :=
  let all :=
    match objects with
    | JArr xs =>
        match as_objects xs with
        | None => ret None
        | Some objs =>
            let sorted := sort_on fst objs in
            do ok <- store_at baseKey (elements ids) (map snd sorted);
            ret (if ok then Some (inr (StoredMany sorted)) else None)
        end
    | JNull =>
        ret (Some (inl (TypeError "Cannot read property 'sort' of null")))
    | _ => ret (Some (inl (TypeError "objects.sort is not a function")))
    end in
  match ids with
  | Single s =>
      if isInt ids
      then do _ <- _setCacheObject (baseKey +:+ "#" +:+ string_of_scalar s)
                     objects;
           ret (Some (inr StoredOne))
      else all
  | Many _ => all
  end.

(** [_apiRequest(path, page, pageSize)]: the collection fetch.  The cache
    key is derived before the language is added to the parameters; a
    failed request is not handled. *)
Definition _apiRequest (path : string) (page pageSize : scalar) : M outcome :=
  let params := [("page", page); ("page_size", pageSize)] in
  let cacheKey := path +:+ "#params:" +:+ JSON_stringify params in
  (* _findInCache(cacheKey): ids is undefined *)
  do found <- _findInCache cacheKey (Single SUndef);
  match found with
  | COne cacheResult =>
      if truthy_opt cacheResult
      then ret (Resolved (jsvalue_of_opt cacheResult))
      else
        do r <- _request path params;
        match r with
        | inr requestResult =>
            do _ <- _setCacheObject cacheKey requestResult;
            ret (Resolved (VJson requestResult))
        | inl e => ret (Rejected e)
        end
  | CAll _ => ret (Resolved (jsvalue_of_cached found))
  end.

(** The request for the ids that are not cached, and its handler.  What
    [console.log] prints is not part of this model.  [_setCacheObjects]
    stores one object only for an integer [ids], which an array is
    not. *)
Definition fetch_missing (path : string) (ids : list Z)
    (cachedResult : list (option json)) : M (option outcome) :=
  match _idListToParams (Many ids) with
  | inl e => ret (Some (Rejected e))
  | inr params =>
      do r <- _request path params;
      match r with
      | inl e => ret (Some (Rejected e))
      | inr requestResult =>
          do st <- _setCacheObjects path (Many ids) requestResult;
          ret match st with
              | Some (inl e) => Some (Rejected e)
              | Some (inr (StoredMany sorted)) =>
                  Some (Resolved (VJson (JArr
                    (omap (fun v => v)
                       (patch cachedResult (map snd sorted))))))
              | _ => None
              end
      end
  end.

(** [_apiDetailsRequest(path, ids)]: the detail fetch.  The last case of
    the match pairs an array of ids with a single lookup, which
    [_findInCache] never produces. *)
Definition _apiDetailsRequest (path : string) (ids0 : idarg)
    : M (option outcome) :=
  let ids := match ids0 with
             | Many l => Many (sort_ids l)
             | Single s => Single s
             end in
  do cachedResult <- _findInCache path ids;
  match ids, cachedResult with
  | Many l, CAll vs =>
      match not_cached l vs with
      | [] => ret (Some (Resolved (jsvalue_of_cached cachedResult)))
      | missing => fetch_missing path missing vs
      end
  | Single _, CAll _ => ret (Some (Rejected (no_filter ids)))
  | Single _, COne (Some (JArr _)) => ret (Some (Rejected (no_filter ids)))
  | Single s, COne v =>
      if truthy_opt v
      then ret (Some (Resolved (jsvalue_of_opt v)))
      else
        match has_length s with
        | inl e => ret (Some (Rejected e))
        | inr false => ret (Some (Resolved (jsvalue_of_opt v)))
        | inr true =>
            (* a string that is not empty; [_findInCache] looks such an
               [ids] up character by character *)
            match _idListToParams ids with
            | inl e => ret (Some (Rejected e))
            | inr _ => ret None
            end
        end
  | Many _, COne _ => ret None
  end.

(** A call of a public method: the [TypeError] of a call of a method the
    class does not define, thrown by the call itself, or the promise of a
    generic request.  [None]: there is no such method, or an argument is
    outside this model. *)
Definition invoke (name : string) (actuals : list jsarg)
    : option (js_error + M (option outcome)) :=
  match find_method name with
  | None => None
  | Some m =>
      let vs := map (actual (method_formals m) actuals) (args m) in
      if negb (defines (callee m))
      then Some (inl (TypeError ("this." +:+ callee m
                                 +:+ " is not a function")))
      else if String.eqb (callee m) "_apiRequest"
      then
        match nth_arg 0 vs, nth_arg 1 vs with
        | AVal page, AVal pageSize =>
            Some (inr (fun w =>
                         let (r, w') := _apiRequest (path m) page pageSize w
                         in (Some r, w')))
        | _, _ => None
        end
      else if String.eqb (callee m) "_apiDetailsRequest"
      then
        match as_ids (nth_arg 0 vs) with
        | Some ids => Some (inr (_apiDetailsRequest (path m) ids))
        | None => None
        end
      else None
  end.

End Client.

End Legacy.

(** ** Observations on the earlier revision *)

(** The key of a collection and the key of a detail object. *)
Definition legacy_collection_key (this : Legacy.config) (path : string)
    (page pageSize : scalar) : string :=
  Legacy.lang this +:+ "#" +:+ path +:+ "#params:"
  +:+ JSON_stringify [("page", page); ("page_size", pageSize)].

Definition legacy_detail_key (this : Legacy.config) (path : string)
    (id : string) : string :=
  Legacy.lang this +:+ "#" +:+ path +:+ "#" +:+ id.

(** The request of a collection fetch and the request for a list of
    ids. *)
Definition legacy_collection_request (this : Legacy.config) (path : string)
    (page pageSize : scalar) : http_request :=
  {| url := _buildURL path;
     qs := [("page", page); ("page_size", pageSize);
            ("lang", SStr (Legacy.lang this))];
     headers := [] |}.

Definition legacy_details_request (this : Legacy.config) (path : string)
    (ids : list Z) : http_request :=
  {| url := _buildURL path;
     qs := [("ids", SStr (join "," (map string_of_Z ids)));
            ("lang", SStr (Legacy.lang this))];
     headers := [] |}.

(** Room for [n] more entries in the store of the earlier revision, which
    is created with the same bound. *)
Definition legacy_has_room (this : Legacy.config) (n : nat) (w : world)
    : bool :=
  Z.of_nat (size (cache w)) + Z.of_nat n <=? Legacy.maxCacheObjects this.

Definition legacy_lookup (this : Legacy.config) (w : world) (path : string)
    (id : Z) : option json :=
  value <$> cache w !! legacy_detail_key this path (string_of_Z id).

Definition legacy_missing (this : Legacy.config) (w : world) (path : string)
    (sorted : list Z) : list Z :=
  List.filter (fun id => is_undefined (legacy_lookup this w path id)) sorted.

(** The cache after the objects have been stored under the ids at their
    positions. *)
Definition stored_at (this : Legacy.config) (path : string)
    (ids : list Z) (objects : list json) (c : gmap string entry)
    : gmap string entry :=
  fold_left (fun c kv =>
               <[legacy_detail_key this path (string_of_Z (fst kv))
                 := {| value := snd kv; ttl := Legacy.cacheTimeout this |}]> c)
            (combine ids objects) c.

(** A Transport of the earlier revision that answers every request with
    status 206 and a list of ids, one that answers the request for the
    items 15 and 2016 with both, out of order, and one that answers it
    with two other items. *)
Definition partial_content_transport (req : http_request) : reply :=
  Response 206 [] "[1, 2, 3]".

Definition legacy_transport (req : http_request) : reply :=
  match assoc "ids" (qs req) with
  | Some (SStr "15,2016") => Response 200 [] "[item 2016, item 15]"
  | Some (SStr "2016") => Response 200 [] "[item 2016]"
  | Some (SStr "7,8") => Response 200 [] "[item 2016, item 15]"
  | _ => Response 404 [] "no such id"
  end.

Definition legacy_config : Legacy.config :=
  Legacy.constructor {| Legacy.raw_lang := None;
                        Legacy.raw_cacheTimeout := None;
                        Legacy.raw_maxCacheObjects := None |}.

(** The earlier client with item 15 in its cache. *)
Definition legacy_item15_world : world :=
  {| cache := <[legacy_detail_key legacy_config "items" "15"
                := {| value := item 15 "Abomination Hammer";
                      ttl := Legacy.cacheTimeout legacy_config |}]> ∅;
     log := [] |}.

(** ** Responses that differ in their headers only *)

Definition same_payload (r r' : reply) : Prop :=
  match r, r' with
  | NetworkFailure e, NetworkFailure e' => e = e'
  | Response statusCode _ body, Response statusCode' _ body' =>
      statusCode = statusCode' /\ body = body'
  | _, _ => False
  end.

(** The Transport with the headers of every response replaced. *)
Definition with_headers (hdrs : list (string * string))
    (transport : http_request -> reply) (req : http_request) : reply :=
  match transport req with
  | Response statusCode _ body => Response statusCode hdrs body
  | NetworkFailure e => NetworkFailure e
  end.

(** A Transport that answers the request for item 2016 with the item
    itself and not with an array. *)
Definition bare_transport (req : http_request) : reply :=
  match assoc "ids" (qs req) with
  | Some (SStr "2016") => Response 200 [] "item 2016"
  | _ => Response 404 [] "no such id"
  end.

Definition bare_parse (s : string) : option json :=
  assoc s [("item 2016", item 2016 "Guard Emblem")].

(** A Transport that answers every request with status 200 and a list of
    ids. *)
Definition list_transport (req : http_request) : reply :=
  Response 200 [] "[1, 2, 3]".

(** * Properties *)

Lemma new_events_app (w : world) (c : gmap string entry) (l : list event) :
  new_events w {| cache := c; log := log w ++ l |} = l.
Proof. unfold new_events; simpl. apply drop_app_length. Qed.

Lemma new_events_emit (w : world) (e : event) :
  new_events w (emit e w) = [e].
Proof. unfold emit. apply new_events_app. Qed.

Lemma new_events_refl (w : world) : new_events w w = [].
Proof. unfold new_events. apply drop_all. Qed.

Section CollectionFetch.

Variable this : config.
Variable transport : http_request -> reply.
Variable json_parse : string -> option json.

Local Abbreviation apiRequest := (_apiRequest this transport json_parse).

(** The collection fetch, as a function of the cache lookup and of the
    Transport's reply. *)
Lemma apiRequest_eq (path : string) (a : arg) (k : option string) (w : world) :
  let key := request_key this path a k in
  let req := collection_request this path a k in
  apiRequest path a k w =
    if truthy_opt (value <$> cache w !! key)
    then (Resolved (jsvalue_of_opt (value <$> cache w !! key)),
          emit (CacheGet key) w)
    else match transport req with
         | NetworkFailure e =>
             (Resolved (VError e),
              {| cache := cache w; log := log w ++ [CacheGet key; HttpGet req] |})
         | Response statusCode hdrs body =>
             if negb (statusCode =? 200) && negb (statusCode =? 206)
             then (Resolved (VError (Error (status_message statusCode body))),
                   {| cache := cache w;
                      log := log w ++ [CacheGet key; HttpGet req] |})
             else match json_parse body with
                  | None =>
                      (Resolved (VError (Error ("Error parsing JSON response: " +:+ body))),
                       {| cache := cache w;
                          log := log w ++ [CacheGet key; HttpGet req] |})
                  | Some v =>
                      (Resolved (VJson v),
                       {| cache := <[key := stored_as this v]> (cache w);
                          log := log w ++ [CacheGet key; HttpGet req; CacheSet key v] |})
                  end
         end.
Proof.
  intros key req. subst key req.
  unfold _apiRequest, request_key, collection_request, effective_params,
    effective_apiKey.
  destruct (normalize_args a k) as [p0 ak]; simpl.
  unfold bind, _findInCacheSimple, cache_get; simpl.
  destruct (truthy_opt _); [reflexivity|].
  unfold _request, bind, http_get, ret, emit, on_response; simpl.
  destruct (transport _) as [e|st hdrs body]; simpl.
  - rewrite <- app_assoc. reflexivity.
  - destruct (negb (st =? 200) && negb (st =? 206)); simpl.
    + rewrite <- app_assoc. reflexivity.
    + unfold _jsonParse. destruct (json_parse body); simpl.
      * unfold _setCacheObject, cache_set, stored_as; simpl.
        repeat rewrite <- app_assoc. reflexivity.
      * rewrite <- app_assoc. reflexivity.
Qed.

Lemma apiRequest_hit (path : string) (a : arg) (k : option string)
    (w : world) (e : entry) :
  cache w !! request_key this path a k = Some e ->
  truthy_json (value e) = true ->
  apiRequest path a k w =
    (Resolved (VJson (value e)), emit (CacheGet (request_key this path a k)) w).
Proof.
  intros Hc Ht. rewrite apiRequest_eq. cbv zeta. rewrite Hc. simpl.
  rewrite Ht. reflexivity.
Qed.

Lemma apiRequest_fetched (path : string) (a : arg) (k : option string)
    (w : world) (statusCode : Z) (hdrs : list (string * string))
    (body : string) (v : json) :
  let key := request_key this path a k in
  let req := collection_request this path a k in
  truthy_opt (value <$> cache w !! key) = false ->
  transport req = Response statusCode hdrs body ->
  statusCode = 200 \/ statusCode = 206 ->
  json_parse body = Some v ->
  apiRequest path a k w =
    (Resolved (VJson v),
     {| cache := <[key := stored_as this v]> (cache w);
        log := log w ++ [CacheGet key; HttpGet req; CacheSet key v] |}).
Proof.
  intros key req Hm Ht Hs Hp. rewrite apiRequest_eq. cbv zeta.
  fold key req. rewrite Hm, Ht.
  replace (negb (statusCode =? 200) && negb (statusCode =? 206)) with false
    by (destruct Hs; subst; reflexivity).
  rewrite Hp. reflexivity.
Qed.

(** C5. A collection fetch that reaches the Transport and gets status 206
    is handled exactly as one that gets status 200: the body is decoded,
    the decoded value is stored under the cache key with the configured
    time-to-live, and the decoded value is what the caller receives. *)
Theorem C5_status_206_is_success (path : string) (a : arg)
    (k : option string) (w : world) (statusCode : Z)
    (hdrs : list (string * string)) (body : string) (v : json) :
  let key := request_key this path a k in
  truthy_opt (value <$> cache w !! key) = false ->
  transport (collection_request this path a k) = Response statusCode hdrs body ->
  statusCode = 200 \/ statusCode = 206 ->
  json_parse body = Some v ->
  let (r, w') := apiRequest path a k w in
  r = Resolved (VJson v) /\
  cache w' = <[key := {| value := v; ttl := cacheTimeout this |}]> (cache w) /\
  cache w' !! key = Some {| value := v; ttl := cacheTimeout this |}.
Proof.
  intros key Hm Ht Hs Hp.
  rewrite (apiRequest_fetched path a k w statusCode hdrs body v Hm Ht Hs Hp).
  fold key. simpl. repeat split. apply lookup_insert_eq.
Qed.

(** C4, as the code has it. A collection fetch that reaches the Transport
    and gets a status other than 200 and 206 writes nothing to the cache;
    its promise is resolved, not rejected: the value the caller receives
    is the [Error] whose message carries the status code and the raw
    body. *)
Theorem C4_error_status_is_returned_as_value (path : string) (a : arg)
    (k : option string) (w : world) (statusCode : Z)
    (hdrs : list (string * string)) (body : string) :
  truthy_opt (value <$> cache w !! request_key this path a k) = false ->
  transport (collection_request this path a k) = Response statusCode hdrs body ->
  statusCode <> 200 -> statusCode <> 206 ->
  let (r, w') := apiRequest path a k w in
  r = Resolved (VError (Error (status_message statusCode body))) /\
  cache w' = cache w /\
  cache_writes (new_events w w') = 0%nat /\
  transport_calls (new_events w w') = 1%nat.
Proof.
  intros Hm Ht H200 H206. rewrite apiRequest_eq. cbv zeta. rewrite Hm, Ht.
  replace (negb (statusCode =? 200) && negb (statusCode =? 206)) with true
    by (symmetry; apply andb_true_intro; split; apply negb_true_iff, Z.eqb_neq; assumption).
  rewrite new_events_app. repeat split.
Qed.

(** C6, as the code has it. A collection fetch whose cache key holds a
    truthy value (any array or object, a non-zero number, a non-empty
    string, [true]) returns that value with no Transport call and no cache
    write. A fetch that misses and succeeds performs exactly one Transport
    call and one cache write; when the value it decoded is truthy, the
    same fetch issued again returns the same value with no Transport call
    and no cache write. *)
Theorem C6_hit_without_io_miss_writes_once (path : string) (a : arg)
    (k : option string) (w : world) :
  let key := request_key this path a k in
  (forall e : entry,
     cache w !! key = Some e -> truthy_json (value e) = true ->
     let (r, w') := apiRequest path a k w in
     r = Resolved (VJson (value e)) /\
     cache w' = cache w /\
     transport_calls (new_events w w') = 0%nat /\
     cache_writes (new_events w w') = 0%nat)
  /\
  (forall (statusCode : Z) (hdrs : list (string * string)) (body : string)
          (v : json),
     truthy_opt (value <$> cache w !! key) = false ->
     transport (collection_request this path a k)
       = Response statusCode hdrs body ->
     statusCode = 200 \/ statusCode = 206 ->
     json_parse body = Some v ->
     let (r, w') := apiRequest path a k w in
     r = Resolved (VJson v) /\
     transport_calls (new_events w w') = 1%nat /\
     cache_writes (new_events w w') = 1%nat /\
     (truthy_json v = true ->
      let (r2, w'') := apiRequest path a k w' in
      r2 = Resolved (VJson v) /\
      cache w'' = cache w' /\
      transport_calls (new_events w' w'') = 0%nat /\
      cache_writes (new_events w' w'') = 0%nat)).
Proof.
  intros key. split.
  - intros e Hc Ht. rewrite (apiRequest_hit path a k w e Hc Ht).
    rewrite new_events_emit. repeat split.
  - intros statusCode hdrs body v Hm Htr Hs Hp.
    rewrite (apiRequest_fetched path a k w statusCode hdrs body v Hm Htr Hs Hp).
    fold key. rewrite new_events_app. repeat split.
    intros Hv.
    rewrite (apiRequest_hit path a k _ (stored_as this v)).
    + rewrite new_events_emit. repeat split.
    + simpl. apply lookup_insert_eq.
    + exact Hv.
Qed.

End CollectionFetch.

(** C5, on the example client: page 1 of the items is answered with
    status 206. *)
Lemma C5_status_206_is_success_witness :
  let (r, w') :=
    _apiRequest default_config demo_transport demo_parse "items"
      (ArgObj [("page", SNum 1)]) None empty_world in
  r = Resolved (VJson (JArr [JNum 1; JNum 2; JNum 3])) /\
  cache w' =
    <[request_key default_config "items" (ArgObj [("page", SNum 1)]) None
        := {| value := JArr [JNum 1; JNum 2; JNum 3]; ttl := 1800 |}]> ∅ /\
  cache w' !! request_key default_config "items" (ArgObj [("page", SNum 1)]) None
    = Some {| value := JArr [JNum 1; JNum 2; JNum 3]; ttl := 1800 |}.
Proof.
  apply (C5_status_206_is_success default_config demo_transport demo_parse
           "items" (ArgObj [("page", SNum 1)]) None empty_world 206 []
           "[1, 2, 3]" (JArr [JNum 1; JNum 2; JNum 3])).
  - reflexivity.
  - reflexivity.
  - right; reflexivity.
  - reflexivity.
Defined.

(** C4, on the example client: page 7 of the items is answered with
    status 404. *)
Lemma C4_error_status_is_returned_as_value_witness :
  let (r, w') :=
    _apiRequest default_config demo_transport demo_parse "items"
      (ArgObj [("page", SNum 7)]) None empty_world in
  r = Resolved (VError (Error (status_message 404 "no such id"))) /\
  cache w' = cache empty_world /\
  cache_writes (new_events empty_world w') = 0%nat /\
  transport_calls (new_events empty_world w') = 1%nat.
Proof.
  apply (C4_error_status_is_returned_as_value default_config demo_transport
           demo_parse "items" (ArgObj [("page", SNum 7)]) None empty_world
           404 [] "no such id").
  - reflexivity.
  - reflexivity.
  - lia.
  - lia.
Defined.

(** C4 as stated fails: on status 404 the promise of the collection fetch
    is resolved with the error as its value; the caller sees a normal
    return, no rejection. *)
Lemma C4_counterexample_status_404_resolves :
  let r := fst (_apiRequest default_config demo_transport demo_parse "items"
                  (ArgObj [("page", SNum 7)]) None empty_world) in
  r = Resolved (VError
        (Error "{ httpStatusCode : 404, responseBody : no such id }")) /\
  (forall e : js_error, r <> Rejected e).
Proof.
  split; [reflexivity | intros e H; discriminate H].
Qed.

(** C6, on the example client: page 1 served from a warm cache, and
    fetched into a cold one and asked for again. *)
Lemma C6_hit_without_io_miss_writes_once_witness :
  let call := _apiRequest default_config demo_transport demo_parse "items"
                (ArgObj [("page", SNum 1)]) None in
  (let (r, w') := call page1_world in
   r = Resolved (VJson (JArr [JNum 1; JNum 2; JNum 3])) /\
   cache w' = cache page1_world /\
   transport_calls (new_events page1_world w') = 0%nat /\
   cache_writes (new_events page1_world w') = 0%nat)
  /\
  (let (r, w') := call empty_world in
   r = Resolved (VJson (JArr [JNum 1; JNum 2; JNum 3])) /\
   transport_calls (new_events empty_world w') = 1%nat /\
   cache_writes (new_events empty_world w') = 1%nat /\
   (let (r2, w'') := call w' in
    r2 = Resolved (VJson (JArr [JNum 1; JNum 2; JNum 3])) /\
    cache w'' = cache w' /\
    transport_calls (new_events w' w'') = 0%nat /\
    cache_writes (new_events w' w'') = 0%nat)).
Proof.
  intros call. split.
  - apply (proj1 (C6_hit_without_io_miss_writes_once default_config
                    demo_transport demo_parse "items"
                    (ArgObj [("page", SNum 1)]) None page1_world)
             {| value := JArr [JNum 1; JNum 2; JNum 3]; ttl := 1800 |});
      reflexivity.
  - generalize (proj2 (C6_hit_without_io_miss_writes_once default_config
                    demo_transport demo_parse "items"
                    (ArgObj [("page", SNum 1)]) None empty_world)
             206 [] "[1, 2, 3]" (JArr [JNum 1; JNum 2; JNum 3])
             eq_refl eq_refl (or_intror eq_refl) eq_refl).
    fold call. destruct (call empty_world) as [r w'].
    intros (H1 & H2 & H3 & H4). repeat split; try assumption.
    apply H4. reflexivity.
Defined.

(** C6 as stated fails: a key that is present with a falsy value is
    treated as a miss. Page 2 of the example decodes to the number 0; once
    it is in the cache, the same fetch calls the Transport and writes the
    cache again. *)
Lemma C6_counterexample_falsy_entry_is_refetched :
  let call := _apiRequest default_config demo_transport demo_parse "items"
                (ArgObj [("page", SNum 2)]) None in
  let key := request_key default_config "items"
               (ArgObj [("page", SNum 2)]) None in
  let w1 := snd (call empty_world) in
  cache w1 !! key = Some {| value := JNum 0; ttl := 1800 |} /\
  fst (call w1) = Resolved (VJson (JNum 0)) /\
  transport_calls (new_events w1 (snd (call w1))) = 1%nat /\
  cache_writes (new_events w1 (snd (call w1))) = 1%nat.
Proof.
  vm_compute. repeat split.
Qed.

(** ** Sorting *)

Section SortOn.

Context {A : Type} (key : A -> Z).

Let le_key (x y : A) : Prop := key x <= key y.

Lemma insert_on_perm (x : A) (l : list A) :
  Permutation (insert_on key x l) (x :: l).
Proof.
  induction l as [|y l IH]; simpl.
  - reflexivity.
  - destruct (key x <=? key y).
    + reflexivity.
    + rewrite IH. apply perm_swap.
Qed.

Lemma sort_on_perm (l : list A) : Permutation (sort_on key l) l.
Proof.
  induction l as [|x l IH]; simpl.
  - reflexivity.
  - rewrite insert_on_perm. constructor. exact IH.
Qed.

Lemma insert_on_sorted (x : A) (l : list A) :
  StronglySorted le_key l -> StronglySorted le_key (insert_on key x l).
Proof.
  induction 1 as [|y l Hs IH Hy]; simpl.
  - repeat constructor.
  - destruct (key x <=? key y) eqn:E.
    + apply Z.leb_le in E. constructor.
      * constructor; assumption.
      * constructor; [exact E|].
        eapply List.Forall_impl; [|exact Hy]. unfold le_key. intros; simpl in *; lia.
    + apply Z.leb_gt in E. constructor; [exact IH|].
      eapply Permutation_Forall.
      * symmetry. apply insert_on_perm.
      * constructor; [unfold le_key; lia | exact Hy].
Qed.

Lemma sort_on_sorted (l : list A) : StronglySorted le_key (sort_on key l).
Proof.
  induction l as [|x l IH]; simpl.
  - constructor.
  - apply insert_on_sorted. exact IH.
Qed.

Lemma sort_on_fixed (l : list A) :
  StronglySorted le_key l -> sort_on key l = l.
Proof.
  induction 1 as [|x l Hs IH Hx]; simpl.
  - reflexivity.
  - fold (sort_on key l). rewrite IH. destruct l as [|y l']; simpl.
    + reflexivity.
    + inversion Hx as [|? ? Hxy _]; subst. unfold le_key in Hxy.
      apply Z.leb_le in Hxy. rewrite Hxy. reflexivity.
Qed.

Lemma sort_on_In (x : A) (l : list A) : In x (sort_on key l) <-> In x l.
Proof.
  split; apply Permutation_in; [|symmetry]; apply sort_on_perm.
Qed.

End SortOn.

Lemma sort_ids_perm (ids : list Z) : Permutation (sort_ids ids) ids.
Proof. apply sort_on_perm. Qed.

Lemma sort_ids_sorted (ids : list Z) : StronglySorted Z.le (sort_ids ids).
Proof. apply (sort_on_sorted (fun n => n)). Qed.

Lemma lt_sorted_le_sorted (l : list Z) :
  StronglySorted Z.lt l -> StronglySorted Z.le l.
Proof.
  induction 1 as [|x l Hs IH Hx]; constructor; [exact IH|].
  eapply List.Forall_impl; [|exact Hx]. intros; simpl in *; lia.
Qed.

Lemma sort_ids_ascending (ids : list Z) :
  StronglySorted Z.lt ids -> sort_ids ids = ids.
Proof.
  intros H. apply (sort_on_fixed (fun n => n)). apply lt_sorted_le_sorted, H.
Qed.

(** A strictly ascending list is determined by its members. *)
Lemma strictly_sorted_unique (l1 l2 : list Z) :
  StronglySorted Z.lt l1 -> StronglySorted Z.lt l2 ->
  (forall x, In x l1 <-> In x l2) -> l1 = l2.
Proof.
  intros H1. revert l2. induction H1 as [|x l1 Hs1 IH Hx]; intros l2 H2 Hin.
  - destruct l2 as [|y l2]; [reflexivity|].
    exfalso. apply (proj2 (Hin y)). left; reflexivity.
  - destruct H2 as [|y l2 Hs2 Hy].
    + exfalso. apply (proj1 (Hin x)). left; reflexivity.
    + rewrite List.Forall_forall in Hx, Hy.
      assert (x = y) as ->.
      { destruct (proj1 (Hin x) (or_introl eq_refl)) as [E|E]; [congruence|].
        destruct (proj2 (Hin y) (or_introl eq_refl)) as [E'|E']; [congruence|].
        apply Hy in E. apply Hx in E'. lia. }
      f_equal. apply IH; [exact Hs2|].
      intros z. split; intros Hz.
      * destruct (proj1 (Hin z) (or_intror Hz)) as [E|E]; [|exact E].
        subst z. apply Hx in Hz. lia.
      * destruct (proj2 (Hin z) (or_intror Hz)) as [E|E]; [|exact E].
        subst z. apply Hy in Hz. lia.
Qed.

Lemma strictly_sorted_NoDup (l : list Z) :
  StronglySorted Z.lt l -> List.NoDup l.
Proof.
  induction 1 as [|x l Hs IH Hx]; [apply List.NoDup_nil|].
  apply List.NoDup_cons; [|exact IH].
  intros Hin. rewrite List.Forall_forall in Hx. apply Hx in Hin. lia.
Qed.

(** ** The lookup object *)

Lemma obj_set_keys_In (k : Z) (v : json) (o : lookup_obj) (k' : Z) :
  In k' (obj_keys (obj_set k v o)) <-> k' = k \/ In k' (obj_keys o).
Proof.
  unfold obj_keys. induction o as [|[k0 v0] o IH]; simpl.
  - intuition.
  - destruct (k =? k0) eqn:E.
    + apply Z.eqb_eq in E. subst k0. simpl. intuition.
    + destruct (is_array_index k && (negb (is_array_index k0) || (k <? k0)));
        simpl; [intuition|]. rewrite IH. intuition.
Qed.

Lemma obj_set_Forall (P : Z * json -> Prop) (k : Z) (v : json)
    (o : lookup_obj) :
  P (k, v) -> List.Forall P o -> List.Forall P (obj_set k v o).
Proof.
  intros Hk. induction 1 as [|[k0 v0] o H0 Ho IH]; simpl.
  - repeat constructor. exact Hk.
  - destruct (k =? k0); [constructor; assumption|].
    destruct (is_array_index k && (negb (is_array_index k0) || (k <? k0))).
    + repeat constructor; assumption.
    + constructor; assumption.
Qed.

Lemma obj_set_In_new (k : Z) (v : json) (o : lookup_obj) :
  In (k, v) (obj_set k v o).
Proof.
  induction o as [|[k0 v0] o IH]; simpl.
  - left; reflexivity.
  - destruct (k =? k0); [left; reflexivity|].
    destruct (is_array_index k && (negb (is_array_index k0) || (k <? k0)));
      [left; reflexivity | right; exact IH].
Qed.

Lemma obj_set_In_old (k : Z) (v : json) (o : lookup_obj) (k' : Z) (v' : json) :
  k' <> k -> In (k', v') o -> In (k', v') (obj_set k v o).
Proof.
  intros Hne. induction o as [|[k0 v0] o IH]; simpl.
  - intros [].
  - intros [E|Hin].
    + inversion E; subst k0 v0.
      destruct (k =? k') eqn:Ek; [apply Z.eqb_eq in Ek; congruence|].
      destruct (is_array_index k && (negb (is_array_index k') || (k <? k')));
        simpl; auto.
    + destruct (k =? k0); [right; exact Hin|].
      destruct (is_array_index k && (negb (is_array_index k0) || (k <? k0)));
        simpl; auto.
Qed.

(** On array indices the properties stay in strictly ascending order. *)
Lemma obj_set_sorted (k : Z) (v : json) (o : lookup_obj) :
  is_array_index k = true ->
  all_indices (obj_keys o) ->
  StronglySorted Z.lt (obj_keys o) ->
  StronglySorted Z.lt (obj_keys (obj_set k v o)).
Proof.
  intros Hk. unfold all_indices.
  induction o as [|[k0 v0] o IH]; simpl; intros Hidx Hs.
  - repeat constructor.
  - inversion Hidx as [|? ? Hk0 Hidx']; subst.
    inversion Hs as [|? ? Hs' Hlt]; subst.
    destruct (k =? k0) eqn:E.
    + apply Z.eqb_eq in E. subst k0. simpl. constructor; assumption.
    + apply Z.eqb_neq in E. simpl in Hk0. rewrite Hk, Hk0. simpl.
      destruct (k <? k0) eqn:El; simpl.
      * apply Z.ltb_lt in El. constructor; [constructor; assumption|].
        constructor; [exact El|].
        eapply List.Forall_impl; [|exact Hlt]. intros; simpl in *; lia.
      * apply Z.ltb_ge in El. constructor; [apply IH; assumption|].
        apply List.Forall_forall. intros x Hx.
        apply obj_set_keys_In in Hx. destruct Hx as [->|Hx]; [lia|].
        rewrite List.Forall_forall in Hlt. apply Hlt, Hx.
Qed.

Lemma set_all_keys_In (kvs : list (Z * json)) (o : lookup_obj) (k : Z) :
  In k (obj_keys (set_all kvs o)) <-> In k (map fst kvs) \/ In k (obj_keys o).
Proof.
  unfold set_all. revert o. induction kvs as [|[k0 v0] kvs IH]; intros o; simpl.
  - intuition.
  - rewrite IH, obj_set_keys_In. simpl. intuition.
Qed.

Lemma set_all_Forall (P : Z * json -> Prop) (kvs : list (Z * json))
    (o : lookup_obj) :
  List.Forall P kvs -> List.Forall P o -> List.Forall P (set_all kvs o).
Proof.
  unfold set_all. intros H. revert o.
  induction H as [|[k0 v0] kvs H0 Hk IH]; intros o Ho; simpl.
  - exact Ho.
  - apply IH. apply obj_set_Forall; assumption.
Qed.

Lemma set_all_sorted (kvs : list (Z * json)) (o : lookup_obj) :
  all_indices (map fst kvs) ->
  all_indices (obj_keys o) ->
  StronglySorted Z.lt (obj_keys o) ->
  StronglySorted Z.lt (obj_keys (set_all kvs o)).
Proof.
  unfold set_all, all_indices. revert o.
  induction kvs as [|[k0 v0] kvs IH]; intros o Hk Ho Hs; simpl.
  - exact Hs.
  - inversion Hk as [|? ? Hk0 Hk']; subst. simpl in Hk0. apply IH.
    + exact Hk'.
    + apply List.Forall_forall. intros x Hx.
      apply obj_set_keys_In in Hx. destruct Hx as [->|Hx]; [exact Hk0|].
      rewrite List.Forall_forall in Ho. apply Ho, Hx.
    + apply obj_set_sorted; assumption.
Qed.

Lemma set_all_In_old (kvs : list (Z * json)) (o : lookup_obj)
    (k : Z) (v : json) :
  ~ In k (map fst kvs) -> In (k, v) o -> In (k, v) (set_all kvs o).
Proof.
  unfold set_all. revert o.
  induction kvs as [|[k0 v0] kvs IH]; intros o Hn Hin; simpl.
  - exact Hin.
  - simpl in Hn. apply IH; [tauto|].
    apply obj_set_In_old; [|exact Hin]. intros E. apply Hn. left. congruence.
Qed.

Lemma set_all_In_new (kvs : list (Z * json)) (o : lookup_obj) (k : Z) :
  In k (map fst kvs) ->
  exists v : json, In (k, v) kvs /\ In (k, v) (set_all kvs o).
Proof.
  revert o. induction kvs as [|[k0 v0] kvs IH]; intros o Hin; simpl in *.
  - destruct Hin.
  - destruct (in_dec Z.eq_dec k (map fst kvs)) as [Hk|Hk].
    + destruct (IH (obj_set k0 v0 o) Hk) as (v & H1 & H2).
      exists v. split; [right; exact H1 | exact H2].
    + destruct Hin as [E|Hin]; [|contradiction]. subst k0.
      exists v0. split; [left; reflexivity|].
      apply (set_all_In_old kvs); [exact Hk | apply obj_set_In_new].
Qed.

Lemma set_all_app (l1 l2 : list (Z * json)) (o : lookup_obj) :
  set_all (l1 ++ l2) o = set_all l2 (set_all l1 o).
Proof. unfold set_all. apply fold_left_app. Qed.

(** The objects of a lookup object carry the ids they are filed under. *)
Lemma ids_of_values (o : lookup_obj) :
  List.Forall (fun kv => num_id (snd kv) = Some (fst kv)) o ->
  ids_of (obj_values o) = map Some (obj_keys o).
Proof.
  unfold ids_of, obj_values, obj_keys.
  induction 1 as [|[k v] o H Ho IH]; simpl; [reflexivity|].
  simpl in H. rewrite H, IH. reflexivity.
Qed.

Lemma split_cached_eq (w : world) (base : string) (l acc : list Z)
    (o : lookup_obj) :
  split_cached l (map (lookup_id w base) l) acc o =
    ((acc ++ missing_of w base l)%list, set_all (cached_of w base l) o).
Proof.
  unfold missing_of, cached_of, set_all. revert acc o.
  induction l as [|id l IH]; intros acc o; simpl.
  - rewrite app_nil_r. reflexivity.
  - destruct (lookup_id w base id) as [v|] eqn:E; simpl.
    + rewrite IH. reflexivity.
    + rewrite IH, <- app_assoc. reflexivity.
Qed.

Lemma as_objects_ids (xs : list json) (objs : list (Z * json)) :
  as_objects xs = Some objs ->
  List.Forall (fun kv => num_id (snd kv) = Some (fst kv)) objs /\
  map snd objs = xs.
Proof.
  revert objs. induction xs as [|x xs IH]; simpl; intros objs H.
  - inversion H. split; [constructor | reflexivity].
  - destruct (num_id x) as [n|] eqn:En; [|discriminate].
    destruct (as_objects xs) as [l|]; [|discriminate].
    inversion H; subst. destruct (IH l eq_refl) as [H1 H2].
    split; [constructor; assumption | simpl; congruence].
Qed.

Lemma cached_of_ids (w : world) (base : string) (l : list Z) :
  coherent w base l ->
  List.Forall (fun kv => num_id (snd kv) = Some (fst kv)) (cached_of w base l).
Proof.
  unfold cached_of. induction l as [|id l IH]; intros Hc; simpl.
  - constructor.
  - assert (coherent w base l) as Hc'.
    { intros i v Hi. apply Hc. right; exact Hi. }
    destruct (lookup_id w base id) as [v|] eqn:E; simpl.
    + constructor; [|apply IH, Hc']. simpl. apply Hc; [left; reflexivity|exact E].
    + apply IH, Hc'.
Qed.

Lemma cached_of_keys_In (w : world) (base : string) (l : list Z) (id : Z) :
  In id (map fst (cached_of w base l)) <->
  In id l /\ is_undefined (lookup_id w base id) = false.
Proof.
  unfold cached_of. induction l as [|x l IH]; simpl.
  - tauto.
  - destruct (lookup_id w base x) as [v|] eqn:E; simpl.
    + rewrite IH. split.
      * intros [->|[H1 H2]]; [rewrite E; auto | auto].
      * intros [[->|H1] H2]; auto.
    + rewrite IH. split.
      * intros [H1 H2]; auto.
      * intros [[->|H1] H2]; [rewrite E in H2; discriminate | auto].
Qed.

Lemma missing_of_In (w : world) (base : string) (l : list Z) (id : Z) :
  In id (missing_of w base l) <->
  In id l /\ is_undefined (lookup_id w base id) = true.
Proof. unfold missing_of. apply List.filter_In. Qed.

(** ** The detail fetch, step by step *)

Lemma mapM_cache_get (f : Z -> string) (l : list Z) (w : world) :
  mapM (fun id => cache_get (f id)) l w =
    (map (fun id => value <$> cache w !! f id) l,
     {| cache := cache w;
        log := log w ++ map (fun id => CacheGet (f id)) l |}).
Proof.
  revert w. induction l as [|id l IH]; intros w; simpl.
  - unfold ret. rewrite app_nil_r. destruct w; reflexivity.
  - unfold bind at 1. unfold cache_get at 1. unfold bind at 1.
    rewrite IH. unfold ret, emit; simpl. rewrite <- app_assoc. reflexivity.
Qed.

Section DetailFetch.

Variable this : config.
Variable transport : http_request -> reply.
Variable json_parse : string -> option json.

Local Abbreviation apiDetailsRequest :=
  (_apiDetailsRequest this transport json_parse).
Local Abbreviation fetchMissing :=
  (fetch_missing this transport json_parse).

(** The cache after the objects of a response have been stored. *)
Lemma forM_cache_set (f : Z * json -> string) (l : list (Z * json))
    (w : world) :
  forM_ (fun kv => _setCacheObject this (f kv) (snd kv)) l w =
    (tt,
     {| cache := fold_left (fun c kv => <[f kv := stored_as this (snd kv)]> c)
                           l (cache w);
        log := log w ++ map (fun kv => CacheSet (f kv) (snd kv)) l |}).
Proof.
  revert w. induction l as [|kv l IH]; intros w; simpl.
  - unfold ret. rewrite app_nil_r. destruct w; reflexivity.
  - unfold bind, _setCacheObject, cache_set. rewrite IH. simpl.
    rewrite <- app_assoc. reflexivity.
Qed.

Lemma on_response_ok (req : http_request) (statusCode : Z)
    (hdrs : list (string * string)) (body : string) (j : json) :
  transport req = Response statusCode hdrs body ->
  statusCode = 200 \/ statusCode = 206 ->
  json_parse body = Some j ->
  exists m : meta,
    on_response json_parse (transport req) = inr {| meta_of := m; data := j |}.
Proof.
  intros Ht Hs Hp. rewrite Ht. unfold on_response.
  replace (negb (statusCode =? 200) && negb (statusCode =? 206)) with false
    by (destruct Hs; subst; reflexivity).
  unfold _jsonParse. rewrite Hp. eexists. reflexivity.
Qed.

(** The probes of a batch: every sorted id is looked up, in order, and
    the rest of the fetch works on the ids that were not found. *)
Lemma details_many_eq (path : string) (ids : list Z) (a : arg)
    (k : option string) (w : world) :
  let base := request_key this path a k in
  let sorted := sort_ids ids in
  apiDetailsRequest path (Many ids) a k w =
    fetchMissing path base (effective_apiKey a k)
      (Many (missing_of w base sorted))
      (set_all (cached_of w base sorted) [])
      (VJson (JArr (omap (fun v => v) (map (lookup_id w base) sorted))))
      {| cache := cache w;
         log := log w
                ++ map (fun id => CacheGet (base +:+ "#" +:+ string_of_Z id))
                       sorted |}.
Proof.
  intros base sorted. subst base sorted.
  unfold _apiDetailsRequest, request_key, effective_params, effective_apiKey.
  destruct (normalize_args a k) as [p0 ak]; simpl.
  unfold bind at 1. unfold _findInCache. unfold bind at 1.
  rewrite mapM_cache_get. unfold ret at 1.
  change (map (fun id => value <$> cache w !! (?b +:+ "#" +:+ string_of_Z id)) ?l)
    with (map (lookup_id w b) l).
  rewrite split_cached_eq. simpl. reflexivity.
Qed.

Lemma fetch_missing_nothing (path base : string) (ak : option string)
    (o : lookup_obj) (cachedResult : jsvalue) (w : world) :
  fetchMissing path base ak (Many []) o cachedResult w =
    (Some (Resolved cachedResult), w).
Proof. reflexivity. Qed.

Lemma fetch_missing_failed (path base : string) (ak : option string)
    (missing : list Z) (o : lookup_obj) (cachedResult : jsvalue) (w : world)
    (e : js_error) :
  missing <> [] ->
  fails transport json_parse (details_request path ak (Many missing)) e ->
  fetchMissing path base ak (Many missing) o cachedResult w =
    (Some (Resolved (if (0 <? length (obj_keys o))%nat
                     then VJson (JArr (obj_values o))
                     else VError e)),
     emit (HttpGet (details_request path ak (Many missing))) w).
Proof.
  intros Hne Hf. unfold fetch_missing, fails, details_request in *.
  destruct missing as [|id missing]; [congruence|].
  change (length_le_0 (Many (id :: missing))) with (@inr js_error bool false).
  cbv iota. unfold bind, _request, http_get, bind, ret. rewrite Hf.
  reflexivity.
Qed.

Lemma fetch_missing_answered (path base : string) (ak : option string)
    (missing : list Z) (o : lookup_obj) (cachedResult : jsvalue) (w : world)
    (objs : list (Z * json)) :
  missing <> [] ->
  answers transport json_parse (details_request path ak (Many missing)) objs ->
  let req := details_request path ak (Many missing) in
  let key := fun kv : Z * json => base +:+ "#" +:+ string_of_Z (fst kv) in
  fetchMissing path base ak (Many missing) o cachedResult w =
    (Some (Resolved (VJson (JArr (obj_values (set_all (sort_on fst objs) o))))),
     {| cache := fold_left (fun c kv => <[key kv := stored_as this (snd kv)]> c)
                           (sort_on fst objs) (cache w);
        log := log w ++ HttpGet req
                 :: map (fun kv => CacheSet (key kv) (snd kv))
                        (sort_on fst objs) |}).
Proof.
  intros Hne (st & hdrs & body & xs & Ht & Hs & Hp & Ho) req key.
  destruct (on_response_ok _ _ _ _ _ Ht Hs Hp) as [m Hr].
  unfold fetch_missing. fold req in Hr |- *.
  destruct missing as [|id missing]; [congruence|].
  change (length_le_0 (Many (id :: missing))) with (@inr js_error bool false).
  cbv iota. unfold bind at 1. unfold _request. unfold bind at 1.
  unfold http_get, ret at 1.
  fold (details_request path ak (Many (id :: missing))). fold req.
  rewrite Hr. simpl data.
  unfold bind at 1. unfold _setCacheObjects. rewrite Ho.
  unfold bind at 1. rewrite forM_cache_set. unfold ret, emit. simpl.
  rewrite <- app_assoc. reflexivity.
Qed.

End DetailFetch.

(** ** What a batch returns *)


Lemma all_indices_perm (l l' : list Z) :
  Permutation l l' -> all_indices l -> all_indices l'.
Proof. intros Hp. unfold all_indices. apply Permutation_Forall, Hp. Qed.

Lemma all_indices_incl (l l' : list Z) :
  (forall id, In id l' -> In id l) -> all_indices l -> all_indices l'.
Proof.
  unfold all_indices. intros Hi H. rewrite List.Forall_forall in *.
  intros id Hid. apply H, Hi, Hid.
Qed.

Lemma cached_of_values (w : world) (base : string) (l : list Z) :
  List.Forall (fun kv => lookup_id w base (fst kv) = Some (snd kv))
    (cached_of w base l).
Proof.
  unfold cached_of. induction l as [|id l IH]; simpl; [constructor|].
  destruct (lookup_id w base id) as [v|] eqn:E; simpl; [|exact IH].
  constructor; [exact E | exact IH].
Qed.

Lemma values_of_keys (f : Z -> option json) (o : lookup_obj) :
  List.Forall (fun kv => f (fst kv) = Some (snd kv)) o ->
  map Some (obj_values o) = map f (obj_keys o).
Proof.
  unfold obj_values, obj_keys.
  induction 1 as [|[k v] o H Ho IH]; simpl; [reflexivity|].
  simpl in H. rewrite H, IH. reflexivity.
Qed.

(** On array indices [o[k] = v] replaces the property [k] and keeps the
    others. *)
Lemma obj_set_In_inv (k : Z) (v : json) (o : lookup_obj) (k' : Z) (v' : json) :
  is_array_index k = true ->
  all_indices (obj_keys o) ->
  StronglySorted Z.lt (obj_keys o) ->
  In (k', v') (obj_set k v o) ->
  (k', v') = (k, v) \/ (k' <> k /\ In (k', v') o).
Proof.
  intros Hk. unfold all_indices.
  induction o as [|[k0 v0] o IH]; simpl; intros Hidx Hs Hin.
  - destruct Hin as [E|[]]. left. symmetry. exact E.
  - inversion Hidx as [|? ? Hk0 Hidx']; subst.
    inversion Hs as [|? ? Hs' Hlt]; subst.
    rewrite List.Forall_forall in Hlt.
    assert (forall u, In (k', u) o -> k0 < k') as Hgt
      by (intros u Hu; apply Hlt; apply (in_map fst _ (k', u)), Hu).
    destruct (k =? k0) eqn:E.
    + apply Z.eqb_eq in E. subst k0.
      destruct Hin as [E'|Hin]; [left; symmetry; exact E'|].
      right. split; [|right; exact Hin]. specialize (Hgt _ Hin). lia.
    + apply Z.eqb_neq in E. simpl in Hk0. rewrite Hk, Hk0 in Hin.
      simpl in Hin. destruct (k <? k0) eqn:El.
      * apply Z.ltb_lt in El.
        destruct Hin as [E'|[E'|Hin]].
        -- left; symmetry; exact E'.
        -- inversion E'; subst k' v'. right.
           split; [congruence|left; reflexivity].
        -- right. split; [|right; exact Hin]. specialize (Hgt _ Hin). lia.
      * destruct Hin as [E'|Hin].
        -- inversion E'; subst k' v'. right.
           split; [congruence|left; reflexivity].
        -- destruct (IH Hidx' Hs' Hin) as [H|[H1 H2]];
             [left; exact H | right; split; [exact H1|right; exact H2]].
Qed.

(** What [set_all] leaves in the lookup object: its own properties, and
    those of the old properties that it does not name. *)
Lemma set_all_In_inv (kvs : list (Z * json)) (o : lookup_obj) (k : Z)
    (v : json) :
  all_indices (map fst kvs) ->
  all_indices (obj_keys o) ->
  StronglySorted Z.lt (obj_keys o) ->
  In (k, v) (set_all kvs o) ->
  In (k, v) kvs \/ (~ In k (map fst kvs) /\ In (k, v) o).
Proof.
  unfold set_all. revert o.
  induction kvs as [|[k0 v0] kvs IH]; intros o Hk Ho Hs Hin; simpl in *.
  - right. split; [tauto | exact Hin].
  - unfold all_indices in Hk. inversion Hk as [|? ? Hk0 Hk']; subst.
    simpl in Hk0.
    assert (all_indices (obj_keys (obj_set k0 v0 o))) as Ho'.
    { apply List.Forall_forall. intros x Hx.
      apply obj_set_keys_In in Hx. destruct Hx as [->|Hx]; [exact Hk0|].
      unfold all_indices in Ho. rewrite List.Forall_forall in Ho.
      apply Ho, Hx. }
    destruct (IH (obj_set k0 v0 o) Hk' Ho' (obj_set_sorted k0 v0 o Hk0 Ho Hs)
                Hin) as [H|[Hn H]].
    + left. right. exact H.
    + destruct (obj_set_In_inv k0 v0 o k v Hk0 Ho Hs H) as [E|[Hne Hold]].
      * left. left. symmetry. exact E.
      * right. split; [|exact Hold]. intros [E|E]; [congruence|tauto].
Qed.

Lemma Forall2_keys_values (P : Z -> json -> Prop) (o : lookup_obj) :
  List.Forall (fun kv => P (fst kv) (snd kv)) o ->
  List.Forall2 P (obj_keys o) (obj_values o).
Proof.
  unfold obj_keys, obj_values.
  induction 1 as [|[k v] o H Ho IH]; simpl; constructor; assumption.
Qed.

(** The lookup object of the cached ids alone. *)
Lemma cached_lookup_facts (w : world) (base : string) (ids : list Z) :
  all_indices ids ->
  let o := set_all (cached_of w base (sort_ids ids)) [] in
  StronglySorted Z.lt (obj_keys o) /\
  (forall id, In id (obj_keys o) <->
              In id ids /\ is_undefined (lookup_id w base id) = false) /\
  map Some (obj_values o) = map (lookup_id w base) (obj_keys o).
Proof.
  intros Hidx o. subst o. split; [|split].
  - apply set_all_sorted; [|constructor|constructor].
    eapply all_indices_incl; [|exact Hidx]. intros id Hid.
    apply cached_of_keys_In in Hid. apply (sort_on_In (fun n => n)), Hid.
  - intros id. rewrite set_all_keys_In, cached_of_keys_In. simpl.
    unfold sort_ids. rewrite (sort_on_In (fun n => n)). tauto.
  - apply values_of_keys. apply set_all_Forall; [apply cached_of_values|constructor].
Qed.

(** The lookup object after a successful fetch of the missing ids. *)
Lemma merged_facts (w : world) (base : string) (ids : list Z)
    (objs : list (Z * json)) :
  all_indices ids ->
  covers objs (missing_of w base (sort_ids ids)) ->
  let o := merged w base (sort_ids ids) objs in
  StronglySorted Z.lt (obj_keys o) /\
  (forall id, In id (obj_keys o) <-> In id ids) /\
  (forall id v, In id ids -> lookup_id w base id = Some v ->
                In v (obj_values o)) /\
  (forall id, In id (missing_of w base (sort_ids ids)) ->
              exists v, In (id, v) objs /\ In v (obj_values o)).
Proof.
  intros Hidx Hcov o. subst o. unfold merged.
  assert (forall id, In id (sort_ids ids) <-> In id ids) as Hsort
    by (intros id; apply (sort_on_In (fun n => n))).
  assert (forall id, In id (map fst (sort_on fst objs)) <-> In id (map fst objs))
    as Hso.
  { intros id. split; apply Permutation_in, Permutation_map;
      [|symmetry]; apply sort_on_perm. }
  assert (forall id, In id (map fst objs) ->
            In id ids /\ is_undefined (lookup_id w base id) = true) as Hobjs.
  { intros id Hid. apply Hcov, missing_of_In in Hid.
    rewrite Hsort in Hid. exact Hid. }
  repeat split.
  - apply set_all_sorted.
    + eapply all_indices_incl; [|exact Hidx]. intros id Hid.
      apply Hso, Hobjs in Hid. apply Hid.
    + eapply all_indices_incl; [|exact Hidx]. intros id Hid.
      apply set_all_keys_In in Hid. destruct Hid as [Hid|[]].
      apply cached_of_keys_In in Hid. apply Hsort, Hid.
    + apply set_all_sorted; [|constructor|constructor].
      eapply all_indices_incl; [|exact Hidx]. intros id Hid.
      apply cached_of_keys_In in Hid. apply Hsort, Hid.
  - rewrite !set_all_keys_In, Hso, cached_of_keys_In, Hsort. simpl.
    intros [H|[[H _]|[]]]; [apply Hobjs, H | exact H].
  - intros Hid. rewrite !set_all_keys_In, Hso, cached_of_keys_In, Hsort.
    destruct (is_undefined (lookup_id w base id)) eqn:E.
    + left. apply Hcov, missing_of_In. rewrite Hsort. auto.
    + right; left; auto.
  - intros id v Hid Hv. unfold obj_values.
    apply (in_map snd _ (id, v)).
    apply set_all_In_old.
    + intros Hin. apply Hso, Hobjs in Hin. rewrite Hv in Hin.
      destruct Hin as [_ Hin]. discriminate Hin.
    + pose proof (cached_of_values w base (sort_ids ids)) as Hvals.
      destruct (set_all_In_new (cached_of w base (sort_ids ids)) [] id)
        as (v' & Hin & Hin').
      * apply cached_of_keys_In. rewrite Hsort, Hv. auto.
      * rewrite List.Forall_forall in Hvals. apply Hvals in Hin. simpl in Hin.
        congruence.
  - intros id Hid. apply Hcov, Hso in Hid.
    destruct (set_all_In_new (sort_on fst objs)
                (set_all (cached_of w base (sort_ids ids)) []) id Hid)
      as (v & Hin & Hin').
    exists v. split; [apply (sort_on_In fst), Hin|].
    unfold obj_values. apply (in_map snd _ (id, v)), Hin'.
Qed.

Lemma merged_ids (w : world) (base : string) (ids : list Z)
    (xs : list json) (objs : list (Z * json)) :
  coherent w base ids ->
  as_objects xs = Some objs ->
  let o := merged w base (sort_ids ids) objs in
  ids_of (obj_values o) = map Some (obj_keys o).
Proof.
  intros Hc Ho o. subst o. apply ids_of_values. unfold merged.
  apply set_all_Forall.
  - eapply Permutation_Forall; [symmetry; apply sort_on_perm|].
    apply (as_objects_ids xs), Ho.
  - apply set_all_Forall; [|constructor]. apply cached_of_ids.
    intros id v Hid. apply Hc. apply (sort_on_In (fun n => n)), Hid.
Qed.

(** Where the properties of the lookup object of a successful batch come
    from: an object of the response is filed under the id it carries, also
    when the cache held an object for that id; the other properties are
    the cached objects of the requested ids. *)
Lemma merged_source (w : world) (base : string) (ids : list Z)
    (objs : list (Z * json)) :
  all_indices ids ->
  all_indices (map fst objs) ->
  List.Forall
    (fun kv => In kv objs \/
               (~ In (fst kv) (map fst objs) /\ In (fst kv) ids /\
                lookup_id w base (fst kv) = Some (snd kv)))
    (merged w base (sort_ids ids) objs).
Proof.
  intros Hidx Hobjs. apply List.Forall_forall. intros [k v] Hin.
  unfold merged in Hin. simpl.
  assert (all_indices (map fst (cached_of w base (sort_ids ids)))) as Hck.
  { eapply all_indices_incl; [|exact Hidx]. intros id Hid.
    apply cached_of_keys_In in Hid. apply (sort_on_In (fun n => n)), Hid. }
  destruct (cached_lookup_facts w base ids Hidx) as (Hs & Hkeys & _).
  apply set_all_In_inv in Hin.
  - destruct Hin as [H|[Hn H]].
    + left. apply (sort_on_In fst), H.
    + right. split.
      * intros Hk. apply Hn.
        eapply Permutation_in; [|exact Hk].
        apply Permutation_map. symmetry. apply sort_on_perm.
      * apply set_all_In_inv in H;
          [|exact Hck|constructor|constructor].
        destruct H as [H|[_ []]].
        pose proof (cached_of_values w base (sort_ids ids)) as Hv.
        rewrite List.Forall_forall in Hv.
        split; [|apply (Hv (k, v)), H].
        assert (In k (map fst (cached_of w base (sort_ids ids)))) as Hk
          by (apply (in_map fst _ (k, v)), H).
        apply cached_of_keys_In in Hk.
        apply (sort_on_In (fun n => n)), Hk.
  - eapply all_indices_incl; [|exact Hobjs]. intros id Hid.
    eapply Permutation_in; [|exact Hid].
    apply Permutation_map, sort_on_perm.
  - eapply all_indices_incl; [|exact Hidx]. intros id Hid.
    apply Hkeys in Hid. apply Hid.
  - exact Hs.
Qed.

(** When nothing is missing, the lookups of the sorted ids are the
    result. *)
Lemma all_cached_values (w : world) (base : string) (l : list Z) :
  missing_of w base l = [] ->
  map Some (omap (fun v => v) (map (lookup_id w base) l))
    = map (lookup_id w base) l.
Proof.
  unfold missing_of. induction l as [|id l IH]; simpl; [reflexivity|].
  destruct (lookup_id w base id) as [v|] eqn:E; simpl; [|discriminate].
  intros H. f_equal. exact (IH H).
Qed.

Lemma all_cached_ids (w : world) (base : string) (l : list Z) :
  missing_of w base l = [] ->
  coherent w base l ->
  ids_of (omap (fun v => v) (map (lookup_id w base) l)) = map Some l.
Proof.
  unfold missing_of, ids_of. induction l as [|id l IH]; simpl; [reflexivity|].
  destruct (lookup_id w base id) as [v|] eqn:E; simpl; [|discriminate].
  intros H Hc. rewrite (Hc id v (or_introl eq_refl) E). f_equal.
  apply IH; [exact H|]. intros i u Hi. apply Hc. right; exact Hi.
Qed.

Section BatchFetch.

Variable this : config.
Variable transport : http_request -> reply.
Variable json_parse : string -> option json.

Local Abbreviation apiDetailsRequest :=
  (_apiDetailsRequest this transport json_parse).

(** A batch whose ids are all cached. *)
Lemma details_all_cached (path : string) (ids : list Z) (a : arg)
    (k : option string) (w : world) :
  let base := request_key this path a k in
  missing_of w base (sort_ids ids) = [] ->
  apiDetailsRequest path (Many ids) a k w =
    (Some (Resolved (VJson (JArr
       (omap (fun v => v) (map (lookup_id w base) (sort_ids ids)))))),
     {| cache := cache w;
        log := log w
               ++ map (fun id => CacheGet (base +:+ "#" +:+ string_of_Z id))
                      (sort_ids ids) |}).
Proof.
  intros base Hm. rewrite details_many_eq. cbv zeta. fold base. rewrite Hm.
  apply fetch_missing_nothing.
Qed.

(** A batch with missing ids that the Transport answers. *)
Lemma details_answered (path : string) (ids : list Z) (a : arg)
    (k : option string) (w : world) (objs : list (Z * json)) :
  let base := request_key this path a k in
  let missing := missing_of w base (sort_ids ids) in
  let req := details_request path (effective_apiKey a k) (Many missing) in
  let key := fun kv : Z * json => base +:+ "#" +:+ string_of_Z (fst kv) in
  missing <> [] ->
  answers transport json_parse req objs ->
  apiDetailsRequest path (Many ids) a k w =
    (Some (Resolved (VJson (JArr
       (obj_values (merged w base (sort_ids ids) objs))))),
     {| cache := fold_left (fun c kv => <[key kv := stored_as this (snd kv)]> c)
                           (sort_on fst objs) (cache w);
        log := log w
               ++ map (fun id => CacheGet (base +:+ "#" +:+ string_of_Z id))
                      (sort_ids ids)
               ++ HttpGet req
                  :: map (fun kv => CacheSet (key kv) (snd kv))
                         (sort_on fst objs) |}).
Proof.
  intros base missing req key Hne Ha. rewrite details_many_eq. cbv zeta.
  fold base missing.
  rewrite (fetch_missing_answered this transport json_parse path base _
             missing _ _ _ objs Hne Ha).
  simpl. rewrite <- app_assoc. reflexivity.
Qed.

(** A batch with missing ids whose request fails. *)
Lemma details_failed (path : string) (ids : list Z) (a : arg)
    (k : option string) (w : world) (e : js_error) :
  let base := request_key this path a k in
  let missing := missing_of w base (sort_ids ids) in
  let req := details_request path (effective_apiKey a k) (Many missing) in
  let o := set_all (cached_of w base (sort_ids ids)) [] in
  missing <> [] ->
  fails transport json_parse req e ->
  apiDetailsRequest path (Many ids) a k w =
    (Some (Resolved (if (0 <? length (obj_keys o))%nat
                     then VJson (JArr (obj_values o))
                     else VError e)),
     {| cache := cache w;
        log := log w
               ++ map (fun id => CacheGet (base +:+ "#" +:+ string_of_Z id))
                      (sort_ids ids)
               ++ [HttpGet req] |}).
Proof.
  intros base missing req o Hne Hf. rewrite details_many_eq. cbv zeta.
  fold base missing o.
  rewrite (fetch_missing_failed this transport json_parse path base _
             missing _ _ _ e Hne Hf).
  unfold emit. simpl. rewrite <- app_assoc. reflexivity.
Qed.

Lemma count_reads (f : Z -> string) (l : list Z) (rest : list event) :
  transport_calls (map (fun id => CacheGet (f id)) l ++ rest)
    = transport_calls rest /\
  cache_writes (map (fun id => CacheGet (f id)) l ++ rest)
    = cache_writes rest.
Proof.
  unfold transport_calls, cache_writes.
  induction l as [|id l IH]; simpl; [split; reflexivity | exact IH].
Qed.

Lemma count_writes (f : Z * json -> string) (l : list (Z * json)) :
  transport_calls (map (fun kv => CacheSet (f kv) (snd kv)) l) = 0%nat.
Proof.
  unfold transport_calls. induction l as [|kv l IH]; simpl; [reflexivity | exact IH].
Qed.

(** C10. A detail fetch with an empty array of ids resolves to an empty
    array and performs no I/O at all: no Transport request, no cache
    write, and no cache read either. *)
Theorem C10_empty_ids_resolve_to_empty_array (path : string) (a : arg)
    (k : option string) (w : world) :
  apiDetailsRequest path (Many []) a k w
    = (Some (Resolved (VJson (JArr []))), w) /\
  transport_calls (new_events w (snd (apiDetailsRequest path (Many []) a k w)))
    = 0%nat /\
  cache_writes (new_events w (snd (apiDetailsRequest path (Many []) a k w)))
    = 0%nat /\
  cache_reads (new_events w (snd (apiDetailsRequest path (Many []) a k w)))
    = 0%nat.
Proof.
  assert (apiDetailsRequest path (Many []) a k w
          = (Some (Resolved (VJson (JArr []))), w)) as H.
  { rewrite details_all_cached by reflexivity. simpl.
    rewrite app_nil_r. destruct w; reflexivity. }
  rewrite H. simpl. rewrite new_events_refl. repeat split.
Qed.

(** The result of a batch, position by position: the object the cache
    held under the id or, for an id that was missing, the object of the
    response that carries it. *)
Lemma merged_by_position (w : world) (base : string) (ids : list Z)
    (xs : list json) (objs : list (Z * json)) :
  all_indices ids ->
  as_objects xs = Some objs ->
  covers objs (missing_of w base (sort_ids ids)) ->
  List.Forall2
    (fun id v =>
       lookup_id w base id = Some v \/
       (lookup_id w base id = None /\ In (id, v) objs /\ num_id v = Some id))
    (obj_keys (merged w base (sort_ids ids) objs))
    (obj_values (merged w base (sort_ids ids) objs)).
Proof.
  intros Hidx Ho Hcov.
  assert (all_indices (map fst objs)) as Hobjs.
  { eapply all_indices_incl; [|exact Hidx]. intros id Hid.
    apply Hcov, missing_of_In in Hid.
    apply (sort_on_In (fun n => n)), Hid. }
  apply Forall2_keys_values.
  eapply List.Forall_impl; [|apply (merged_source w base ids objs Hidx Hobjs)].
  intros [id v]. simpl. intros [Hin|(_ & _ & Hv)]; [right | left; exact Hv].
  split; [|split; [exact Hin|]].
  - assert (In id (map fst objs)) as Hid
      by (apply (in_map fst _ (id, v)), Hin).
    apply Hcov, missing_of_In in Hid. destruct Hid as [_ Hid].
    destruct (lookup_id w base id); [discriminate Hid | reflexivity].
  - destruct (as_objects_ids xs objs Ho) as [Hids _].
    rewrite List.Forall_forall in Hids. apply (Hids (id, v)), Hin.
Qed.

Lemma all_cached_by_position (w : world) (base : string) (l : list Z) :
  missing_of w base l = [] ->
  List.Forall2 (fun id v => lookup_id w base id = Some v) l
    (omap (fun v => v) (map (lookup_id w base) l)).
Proof.
  unfold missing_of. induction l as [|id l IH]; simpl; [constructor|].
  destruct (lookup_id w base id) as [v|] eqn:E; simpl; [|discriminate].
  intros H. constructor; [exact E | exact (IH H)].
Qed.

(** C1, as the code has it. The ids of a batch are sorted in place and
    the result follows that order, not the caller's. For ids that are
    array indices, when every id is cached or the Transport answers the
    request for the missing ids with an array of exactly their objects,
    the returned sequence runs along a list [L] that holds exactly the
    requested ids in ascending order: the element at the position of an id
    is the object the cache held under that id or, for a missing id, the
    object of the response that carries it. [L] is the caller's list
    whenever the caller passed its ids in strictly ascending order, and
    the ids of the returned objects are [L] when every cached object
    carries the id it is filed under. *)
Theorem C1_result_follows_ascending_id_order (path : string) (ids : list Z)
    (a : arg) (k : option string) (w : world) (objs : list (Z * json)) :
  let base := request_key this path a k in
  let missing := missing_of w base (sort_ids ids) in
  let req := details_request path (effective_apiKey a k) (Many missing) in
  all_indices ids ->
  missing = [] \/ (answers transport json_parse req objs /\ covers objs missing) ->
  exists (result : list json) (L : list Z),
    fst (apiDetailsRequest path (Many ids) a k w)
      = Some (Resolved (VJson (JArr result))) /\
    StronglySorted Z.le L /\
    (forall id, In id L <-> In id ids) /\
    List.Forall2
      (fun id v =>
         lookup_id w base id = Some v \/
         (lookup_id w base id = None /\ In (id, v) objs /\
          num_id v = Some id)) L result /\
    (StronglySorted Z.lt ids -> L = ids) /\
    (coherent w base ids -> ids_of result = map Some L).
Proof.
  intros base missing req Hidx Hup.
  destruct (decide (missing = [])) as [Hm|Hm].
  - exists (omap (fun v => v) (map (lookup_id w base) (sort_ids ids))),
      (sort_ids ids).
    rewrite (details_all_cached path ids a k w Hm). simpl.
    split; [reflexivity|]. split; [apply sort_ids_sorted|].
    split; [intros id; apply (sort_on_In (fun n => n))|]. split; [|split].
    + eapply List.Forall2_impl; [|apply all_cached_by_position, Hm].
      intros id v H. left. exact H.
    + apply sort_ids_ascending.
    + intros Hc. apply all_cached_ids; [exact Hm|].
      intros id v Hid. apply Hc. apply (sort_on_In (fun n => n)), Hid.
  - destruct Hup as [Hup|[Ha Hcov]]; [contradiction|].
    destruct (merged_facts w base ids objs Hidx Hcov) as (Hs & Hin & _).
    exists (obj_values (merged w base (sort_ids ids) objs)),
      (obj_keys (merged w base (sort_ids ids) objs)).
    rewrite (details_answered path ids a k w objs Hm Ha). simpl.
    destruct Ha as (st & hdrs & body & xs & _ & _ & _ & Ho).
    split; [reflexivity|]. split; [apply lt_sorted_le_sorted, Hs|].
    split; [exact Hin|]. split; [|split].
    + apply (merged_by_position w base ids xs objs Hidx Ho Hcov).
    + intros Hasc. apply strictly_sorted_unique; assumption.
    + intros Hc. apply (merged_ids w base ids xs objs Hc Ho).
Qed.

(** C3, as the code has it. When the request for the missing ids of a
    batch fails, nothing is written. If at least one requested id was
    cached, the call returns the cached objects, one per distinct cached
    id in ascending order of id; if none was, the promise is resolved with
    the failure as its value, it is not rejected. *)
Theorem C3_failed_fetch_degrades_to_cache_or_error_value (path : string)
    (ids : list Z) (a : arg) (k : option string) (w : world) (e : js_error) :
  let base := request_key this path a k in
  let missing := missing_of w base (sort_ids ids) in
  let req := details_request path (effective_apiKey a k) (Many missing) in
  all_indices ids ->
  missing <> [] ->
  fails transport json_parse req e ->
  let (r, w') := apiDetailsRequest path (Many ids) a k w in
  cache w' = cache w /\
  transport_calls (new_events w w') = 1%nat /\
  cache_writes (new_events w w') = 0%nat /\
  ((forall id, In id ids -> lookup_id w base id = None) ->
   r = Some (Resolved (VError e))) /\
  ((exists id, In id ids /\ lookup_id w base id <> None) ->
   exists (result : list json) (L : list Z),
     r = Some (Resolved (VJson (JArr result))) /\
     map Some result = map (lookup_id w base) L /\
     StronglySorted Z.lt L /\
     (forall id, In id L <-> In id ids /\ lookup_id w base id <> None)).
Proof.
  intros base missing req Hidx Hm Hf.
  rewrite (details_failed path ids a k w e Hm Hf). fold base.
  rewrite new_events_app.
  destruct (count_reads (fun id => base +:+ "#" +:+ string_of_Z id)
              (sort_ids ids) [HttpGet req]) as [Ht Hw].
  destruct (cached_lookup_facts w base ids Hidx) as (Hs & Hin & Hv).
  set (o := set_all (cached_of w base (sort_ids ids)) []) in *.
  assert (forall id, is_undefined (lookup_id w base id) = false
                     <-> lookup_id w base id <> None) as Hu.
  { intros id. destruct (lookup_id w base id); simpl; split;
      congruence. }
  repeat split.
  - exact Ht.
  - exact Hw.
  - intros Hnone. destruct (obj_keys o) as [|id l]; [reflexivity|].
    exfalso. destruct (proj1 (Hin id) (or_introl eq_refl)) as [Hid Hd].
    rewrite (Hnone id Hid) in Hd. discriminate Hd.
  - intros (id & Hid & Hsome).
    exists (obj_values o), (obj_keys o).
    assert (In id (obj_keys o)) as Hk by (apply Hin; split; [|apply Hu]; assumption).
    replace (0 <? length (obj_keys o))%nat with true
      by (destruct (obj_keys o); [destruct Hk | reflexivity]).
    repeat split.
    + exact Hv.
    + exact Hs.
    + apply Hin in H. apply H.
    + apply Hu, Hin, H.
    + intros [H1 H2]. apply Hin. split; [|apply Hu]; assumption.
Qed.

End BatchFetch.

(** ** The batch claims on the example client *)

Lemma item15_world_coherent :
  coherent item15_world (request_key default_config "items" ArgUndef None)
    [15; 2016].
Proof.
  intros id v [<-|[<-|[]]]; vm_compute; intros H; inversion H; reflexivity.
Qed.

Lemma demo_answers_2016 :
  answers demo_transport demo_parse
    (details_request "items" None (Many [2016]))
    [(2016, item 2016 "Guard Emblem")].
Proof.
  exists 200, [], "[item 2016]", [item 2016 "Guard Emblem"].
  repeat split. left; reflexivity.
Qed.

Lemma demo_covers_2016 :
  covers [(2016, item 2016 "Guard Emblem")] [2016].
Proof. intros id. simpl. tauto. Qed.

Lemma demo_fails_7 :
  fails demo_transport demo_parse (details_request "items" None (Many [7]))
    (Error (status_message 404 "no such id")).
Proof. reflexivity. Qed.

(** C1, on the example client: items 15 and 2016, the first one cached. *)
Lemma C1_result_follows_ascending_id_order_witness :
  let base := request_key default_config "items" ArgUndef None in
  exists (result : list json) (L : list Z),
    fst (_apiDetailsRequest default_config demo_transport demo_parse "items"
           (Many [15; 2016]) ArgUndef None item15_world)
      = Some (Resolved (VJson (JArr result))) /\
    StronglySorted Z.le L /\
    (forall id, In id L <-> In id [15; 2016]) /\
    List.Forall2
      (fun id v =>
         lookup_id item15_world base id = Some v \/
         (lookup_id item15_world base id = None /\
          In (id, v) [(2016, item 2016 "Guard Emblem")] /\
          num_id v = Some id)) L result /\
    (StronglySorted Z.lt [15; 2016] -> L = [15; 2016]) /\
    (coherent item15_world base [15; 2016] -> ids_of result = map Some L).
Proof.
  apply (C1_result_follows_ascending_id_order default_config demo_transport
           demo_parse "items" [15; 2016] ArgUndef None item15_world
           [(2016, item 2016 "Guard Emblem")]).
  - repeat constructor.
  - right. split; [exact demo_answers_2016 | exact demo_covers_2016].
Defined.

(** C1 as stated fails: asked for the items 2016 and 15 in that order, the
    client returns item 15 first, from a warm cache as well as from a cold
    one. *)
Lemma C1_counterexample_descending_request :
  let call := _apiDetailsRequest default_config demo_transport demo_parse
                "items" (Many [2016; 15]) ArgUndef None in
  let returned := [item 15 "Abomination Hammer"; item 2016 "Guard Emblem"] in
  fst (call items_world) = Some (Resolved (VJson (JArr returned))) /\
  fst (call empty_world) = Some (Resolved (VJson (JArr returned))) /\
  ids_of returned = [Some 15; Some 2016] /\
  ids_of returned <> map Some [2016; 15].
Proof.
  vm_compute. repeat split. intros H. discriminate H.
Qed.

(** C2 on the example client. Asked for item 15 twice, the client returns
    the item twice when it is cached: the path that finds every id cached
    returns one object per occurrence. When the item has to be fetched,
    the objects are merged in an object keyed by id and the client
    returns the item once; asked for item 15 twice and item 2016, with
    item 15 cached, it returns two objects for the three ids. *)
Theorem C2_duplicate_ids_are_dropped_on_a_fetch :
  let call := fun ids w =>
    fst (_apiDetailsRequest default_config demo_transport demo_parse "items"
           (Many ids) ArgUndef None w) in
  let item15 := item 15 "Abomination Hammer" in
  let item2016 := item 2016 "Guard Emblem" in
  call [15; 15] item15_world
    = Some (Resolved (VJson (JArr [item15; item15]))) /\
  call [15; 15] empty_world = Some (Resolved (VJson (JArr [item15]))) /\
  length [item15] <> length [15; 15] /\
  call [15; 15; 2016] item15_world
    = Some (Resolved (VJson (JArr [item15; item2016]))) /\
  length [item15; item2016] <> length [15; 15; 2016].
Proof.
  cbv zeta. split; [vm_compute; reflexivity|].
  split; [vm_compute; reflexivity|]. split; [simpl; lia|].
  split; [vm_compute; reflexivity | simpl; lia].
Qed.

(** C3, on the example client: item 7 does not exist; asked for alone,
    and together with the cached item 15. *)
Lemma C3_failed_fetch_degrades_to_cache_or_error_value_witness :
  (let (r, w') :=
     _apiDetailsRequest default_config demo_transport demo_parse "items"
       (Many [7]) ArgUndef None empty_world in
   cache w' = cache empty_world /\
   r = Some (Resolved (VError (Error (status_message 404 "no such id")))))
  /\
  (let (r, w') :=
     _apiDetailsRequest default_config demo_transport demo_parse "items"
       (Many [15; 7]) ArgUndef None item15_world in
   cache_writes (new_events item15_world w') = 0%nat /\
   exists (result : list json) (L : list Z),
     r = Some (Resolved (VJson (JArr result))) /\
     map Some result
       = map (lookup_id item15_world
                (request_key default_config "items" ArgUndef None)) L /\
     StronglySorted Z.lt L).
Proof.
  split.
  - generalize (C3_failed_fetch_degrades_to_cache_or_error_value
                  default_config demo_transport demo_parse "items" [7]
                  ArgUndef None empty_world
                  (Error (status_message 404 "no such id"))
                  ltac:(repeat constructor)
                  ltac:(vm_compute; discriminate)
                  demo_fails_7).
    destruct (_apiDetailsRequest _ _ _ _ _ _ _ _) as [r w'].
    intros (H1 & _ & _ & H4 & _). split; [exact H1|].
    apply H4. intros id [<-|[]]. reflexivity.
  - generalize (C3_failed_fetch_degrades_to_cache_or_error_value
                  default_config demo_transport demo_parse "items" [15; 7]
                  ArgUndef None item15_world
                  (Error (status_message 404 "no such id"))
                  ltac:(repeat constructor)
                  ltac:(vm_compute; discriminate)
                  demo_fails_7).
    destruct (_apiDetailsRequest _ _ _ _ _ _ _ _) as [r w'].
    intros (_ & _ & H3 & _ & H5). split; [exact H3|].
    destruct H5 as (result & L & Hr & Hv & Hs & _).
    + exists 15. split; [left; reflexivity | vm_compute; discriminate].
    + exists result, L. auto.
Defined.

(** C3 as stated fails twice. With nothing cached, the failure of the
    request is the value the promise is resolved with: no rejection. With
    the items 2016 and 15 cached and asked for in that order before the
    failing item 7, the cached objects come back in ascending order of id,
    not in the order of the request. *)
Lemma C3_counterexample_failure_is_resolved :
  let r1 := fst (_apiDetailsRequest default_config demo_transport demo_parse
                   "items" (Many [7]) ArgUndef None empty_world) in
  let r2 := fst (_apiDetailsRequest default_config demo_transport demo_parse
                   "items" (Many [2016; 15; 7]) ArgUndef None items_world) in
  r1 = Some (Resolved (VError
         (Error "{ httpStatusCode : 404, responseBody : no such id }"))) /\
  (forall e : js_error, r1 <> Some (Rejected e)) /\
  r2 = Some (Resolved (VJson (JArr
         [item 15 "Abomination Hammer"; item 2016 "Guard Emblem"]))) /\
  r2 <> Some (Resolved (VJson (JArr
         [item 2016 "Guard Emblem"; item 15 "Abomination Hammer"]))).
Proof.
  vm_compute. repeat split; intros; discriminate.
Qed.


(** ** A detail fetch with an argument that is not an array *)

Section SingleFetch.

Variable this : config.
Variable transport : http_request -> reply.
Variable json_parse : string -> option json.

Local Abbreviation apiDetailsRequest :=
  (_apiDetailsRequest this transport json_parse).
Local Abbreviation fetchMissing :=
  (fetch_missing this transport json_parse).

(** The key a non-array argument is looked up under: the base key itself
    when the argument is falsy. *)
Lemma details_single_eq (path : string) (s : scalar) (a : arg)
    (k : option string) (w : world) :
  let base := request_key this path a k in
  let ak := effective_apiKey a k in
  let probe := if truthy_scalar s
               then base +:+ "#" +:+ string_of_scalar s else base in
  let w1 := emit (CacheGet probe) w in
  apiDetailsRequest path (Single s) a k w =
    match value <$> cache w !! probe with
    | Some (JArr xs) =>
        match s with
        | SUndef =>
            (Some (Rejected
               (TypeError "Cannot read property 'length' of undefined")), w1)
        | SNull =>
            (Some (Rejected
               (TypeError "Cannot read property 'length' of null")), w1)
        | SStr (String _ _) => (None, w1)
        | _ => fetchMissing path base ak (Many []) [] (VJson (JArr xs)) w1
        end
    | Some j =>
        if truthy_json j
        then (Some (Resolved (VJson j)), w1)
        else fetchMissing path base ak (Single s) [] (VJson j) w1
    | None => fetchMissing path base ak (Single s) [] VUndefined w1
    end.
Proof.
  intros base ak probe w1. subst base ak probe w1.
  unfold _apiDetailsRequest, request_key, effective_params, effective_apiKey.
  destruct (normalize_args a k) as [p0 ak]; simpl.
  unfold bind at 1. unfold _findInCache, _findInCacheSimple.
  destruct (truthy_scalar s); simpl;
    (destruct (value <$> cache w !! _) as [j|]; [|reflexivity];
     destruct j as [| | | |xs|]; simpl;
     try (match goal with
          | |- context [if ?c then _ else _] => destruct c
          end);
     try reflexivity;
     destruct s as [| | | |[|c s']| | |]; reflexivity).
Qed.

Lemma setCacheObjects_log (base : string) (j : json) (w : world) :
  (exists rest,
     log (snd (_setCacheObjects this base j w)) = (log w ++ rest)%list) /\
  (forall e, fst (_setCacheObjects this base j w) = Some (inl e) ->
             exists m, e = TypeError m).
Proof.
  unfold _setCacheObjects.
  assert (forall o : js_error + option json, get_id j = o ->
            (exists rest,
               log (snd (match o with
                         | inl e => ret (Some (inl e))
                         | inr id =>
                             do _ <- _setCacheObject this
                                       (base +:+ "#" +:+ string_of_opt_json id) j;
                             ret (Some (inr StoredOne))
                         end w)) = (log w ++ rest)%list) /\
            (forall e,
               fst (match o with
                    | inl e => ret (Some (inl e))
                    | inr id =>
                        do _ <- _setCacheObject this
                                  (base +:+ "#" +:+ string_of_opt_json id) j;
                        ret (Some (inr StoredOne))
                    end w) = Some (inl e) -> exists m, e = TypeError m)) as Hone.
  { intros [e|id] Ho; simpl.
    - split; [exists []; rewrite app_nil_r; reflexivity|].
      intros e' He'. inversion He'; subst e'.
      destruct j; simpl in Ho; inversion Ho. eexists; reflexivity.
    - split; [eexists; reflexivity | intros e He; discriminate He]. }
  destruct j as [| | | |xs|]; try (apply Hone; reflexivity).
  destruct (as_objects xs) as [objs|].
  - unfold bind. rewrite forM_cache_set. simpl. split.
    + eexists; reflexivity.
    + intros e He. discriminate He.
  - simpl. split; [exists []; rewrite app_nil_r; reflexivity|].
    intros e He; discriminate He.
Qed.

Lemma fetch_missing_eq (path base : string) (ak : option string)
    (ids : idarg) (o : lookup_obj) (cachedResult : jsvalue) (w : world) :
  fetchMissing path base ak ids o cachedResult w =
    match length_le_0 ids with
    | inl e => (Some (Rejected e), w)
    | inr true => (Some (Resolved cachedResult), w)
    | inr false =>
        let req := details_request path ak ids in
        let w1 := emit (HttpGet req) w in
        match on_response json_parse (transport req) with
        | inl e =>
            (Some (Resolved (if (0 <? length (obj_keys o))%nat
                             then VJson (JArr (obj_values o))
                             else VError e)), w1)
        | inr res =>
            (match fst (_setCacheObjects this base (data res) w1) with
             | None => None
             | Some (inl e) => Some (Rejected e)
             | Some (inr StoredOne) => Some (Resolved (VJson (data res)))
             | Some (inr (StoredMany sorted)) =>
                 Some (Resolved (VJson (JArr
                   (obj_values (set_all sorted o)))))
             end,
             snd (_setCacheObjects this base (data res) w1))
        end
    end.
Proof.
  unfold fetch_missing.
  destruct (length_le_0 ids) as [e|[|]]; try reflexivity.
  unfold bind at 1. unfold _request, bind at 1, http_get, ret at 1.
  fold (details_request path ak ids). cbv zeta.
  destruct (on_response json_parse (transport (details_request path ak ids)))
    as [e|res]; [reflexivity|].
  unfold bind.
  destruct (_setCacheObjects this base (data res) _) as [st w2]. reflexivity.
Qed.

(** What the rest of a detail fetch can do: it appends to the log, it
    starts with the request when [ids.length <= 0] is false, and it
    rejects with nothing but a [TypeError]. *)
Lemma fetch_missing_log (path base : string) (ak : option string)
    (ids : idarg) (o : lookup_obj) (cachedResult : jsvalue) (w : world) :
  let r := fst (fetchMissing path base ak ids o cachedResult w) in
  let w' := snd (fetchMissing path base ak ids o cachedResult w) in
  (forall msg, r <> Some (Rejected (Error msg))) /\
  (exists rest, log w' = (log w ++ rest)%list) /\
  (length_le_0 ids = inr false ->
   exists rest,
     log w' = (log w ++ HttpGet (details_request path ak ids) :: rest)%list) /\
  (forall e, length_le_0 ids = inl e ->
             r = Some (Rejected e) /\ w' = w).
Proof.
  cbv zeta. rewrite fetch_missing_eq.
  destruct (length_le_0 ids) as [e|[|]] eqn:El; simpl.
  - split; [|split; [|split]].
    + intros msg H. inversion H; subst e.
      destruct ids as [l|[| | | | | | |]]; simpl in El; discriminate El.
    + exists []. rewrite app_nil_r. reflexivity.
    + intros H; discriminate H.
    + intros e' H. inversion H. split; reflexivity.
  - split; [|split; [|split]]; try (intros; discriminate).
    exists []. rewrite app_nil_r. reflexivity.
  - destruct (on_response json_parse (transport (details_request path ak ids)))
      as [e|res]; simpl.
    + split; [|split; [|split]]; try (intros; discriminate).
      * eexists; reflexivity.
      * intros _. exists []. reflexivity.
    + destruct (setCacheObjects_log base (data res)
                  (emit (HttpGet (details_request path ak ids)) w))
        as [[rest Hl] He].
      destruct (_setCacheObjects this base (data res)
                  (emit (HttpGet (details_request path ak ids)) w))
        as [st w2]. simpl in *.
      split; [|split; [|split]]; try (intros; discriminate).
      * intros msg H. destruct st as [[e|[|sorted]]|]; try discriminate H.
        inversion H; subst e. destruct (He _ eq_refl) as [m Hm].
        discriminate Hm.
      * exists (HttpGet (details_request path ak ids) :: rest).
        rewrite Hl, <- app_assoc. reflexivity.
      * intros _. exists rest. rewrite Hl, <- app_assoc. reflexivity.
Qed.

(** C9, as the code has it. The ids argument of a detail fetch is not
    validated and no invalid-argument error exists. Whatever the argument
    that is not an array, the first thing the call does is read the cache;
    the call never rejects with an [Error] of the client. On a miss a
    boolean, a number or a non-empty string goes to the Transport as the
    [id] parameter; [undefined] and [null] make the call reject, after
    the cache read, with the [TypeError] of the runtime. *)
Theorem C9_ids_are_not_validated (path : string) (s : scalar) (a : arg)
    (k : option string) (w : world) :
  let base := request_key this path a k in
  let probe := if truthy_scalar s
               then base +:+ "#" +:+ string_of_scalar s else base in
  let (r, w') := apiDetailsRequest path (Single s) a k w in
  (exists rest, new_events w w' = CacheGet probe :: rest) /\
  (forall msg, r <> Some (Rejected (Error msg))) /\
  (cache w !! probe = None ->
   length_le_0 (Single s) = inr false ->
   exists rest,
     new_events w w'
       = CacheGet probe
         :: HttpGet (details_request path (effective_apiKey a k) (Single s))
         :: rest) /\
  (cache w !! probe = None ->
   s = SUndef \/ s = SNull ->
   (exists m, r = Some (Rejected (TypeError m))) /\
   new_events w w' = [CacheGet probe]).
Proof.
  intros base probe.
  pose proof (details_single_eq path s a k w) as Heq. cbv zeta in Heq.
  fold base probe in Heq.
  assert (forall ids o cr,
            let r := fst (fetchMissing path base (effective_apiKey a k) ids o cr
                            (emit (CacheGet probe) w)) in
            let w' := snd (fetchMissing path base (effective_apiKey a k) ids o cr
                            (emit (CacheGet probe) w)) in
            (exists rest, new_events w w' = CacheGet probe :: rest) /\
            (forall msg, r <> Some (Rejected (Error msg)))) as Hfm.
  { intros ids o cr r w'.
    destruct (fetch_missing_log path base (effective_apiKey a k) ids o cr
                (emit (CacheGet probe) w)) as (H1 & [rest H2] & _).
    split; [|exact H1]. exists rest. subst r w'. unfold new_events.
    rewrite H2. simpl. rewrite <- app_assoc. apply drop_app_length. }
  destruct (cache w !! probe) as [en|] eqn:Ec; simpl in Heq.
  - assert ((exists rest,
               new_events w (snd (apiDetailsRequest path (Single s) a k w))
                 = CacheGet probe :: rest) /\
            (forall msg, fst (apiDetailsRequest path (Single s) a k w)
                           <> Some (Rejected (Error msg)))) as [H1 H2].
    { rewrite Heq.
      assert ((exists rest,
                 new_events w (emit (CacheGet probe) w) = CacheGet probe :: rest))
        as Hemit by (exists []; apply new_events_emit).
      destruct (value en) as [| | | |xs|] eqn:Ev;
        try (destruct (truthy_json _); [split; [exact Hemit | intros; discriminate] | apply Hfm]).
      destruct s as [| | | |[|c s']| | |];
        try (split; [exact Hemit | intros; discriminate]); apply Hfm. }
    destruct (apiDetailsRequest path (Single s) a k w) as [r w']. simpl in *.
    repeat split; try assumption; intros; discriminate.
  - rewrite Heq.
    destruct (fetch_missing_log path base (effective_apiKey a k) (Single s) []
                VUndefined (emit (CacheGet probe) w)) as (H1 & [rest H2] & H3 & H4).
    destruct (fetchMissing path base (effective_apiKey a k) (Single s) []
                VUndefined (emit (CacheGet probe) w)) as [r w'] eqn:Er.
    simpl in *.
    assert (forall l, log w' = ((log w ++ [CacheGet probe]) ++ l)%list ->
                      new_events w w' = CacheGet probe :: l) as Hnew.
    { intros l Hl. unfold new_events. rewrite Hl, <- app_assoc.
      apply drop_app_length. }
    repeat split.
    + exists rest. apply Hnew, H2.
    + exact H1.
    + intros _ Hlen. destruct (H3 Hlen) as [rest' Hr]. exists rest'.
      apply Hnew, Hr.
    + destruct H0 as [->| ->]; (edestruct H4 as [Hr _]; [reflexivity|]);
        eexists; exact Hr.
    + destruct H0 as [->| ->]; (edestruct H4 as [_ Hw]; [reflexivity|]);
        subst w'; apply new_events_emit.
Qed.

End SingleFetch.

(** C9, on the example client: the boolean [true] as ids. *)
Lemma C9_ids_are_not_validated_witness :
  let probe := request_key default_config "items" ArgUndef None +:+ "#true" in
  let (r, w') :=
    _apiDetailsRequest default_config demo_transport demo_parse "items"
      (Single (SBool true)) ArgUndef None empty_world in
  (exists rest, new_events empty_world w' = CacheGet probe :: rest) /\
  (forall msg, r <> Some (Rejected (Error msg))) /\
  (exists rest,
     new_events empty_world w'
       = CacheGet probe
         :: HttpGet (details_request "items" None (Single (SBool true)))
         :: rest).
Proof.
  intros probe.
  generalize (C9_ids_are_not_validated default_config demo_transport
                demo_parse "items" (SBool true) ArgUndef None empty_world).
  cbv zeta.
  destruct (_apiDetailsRequest _ _ _ _ _ _ _ _) as [r w'].
  intros (H1 & H2 & H3 & _). split; [exact H1|]. split; [exact H2|].
  apply H3; reflexivity.
Defined.

(** C9 as stated fails. The boolean [true] is no identifier, yet the call
    reads the cache, sends it to the Transport as the [id] parameter and
    resolves with what came back. With [undefined] the call does fail, but
    after a cache read and with the [TypeError] of the runtime. *)
Lemma C9_counterexample_invalid_ids_reach_io :
  let run s :=
    _apiDetailsRequest default_config demo_transport demo_parse "items"
      (Single s) ArgUndef None empty_world in
  let base := request_key default_config "items" ArgUndef None in
  new_events empty_world (snd (run (SBool true)))
    = [CacheGet (base +:+ "#true");
       HttpGet {| url := "https://api.guildwars2.com/v2/items";
                  qs := [("id", SBool true)];
                  headers := [] |}] /\
  fst (run (SBool true))
    = Some (Resolved (VError
        (Error "{ httpStatusCode : 404, responseBody : no such id }"))) /\
  new_events empty_world (snd (run SUndef)) = [CacheGet base] /\
  fst (run SUndef)
    = Some (Rejected
        (TypeError "Cannot read property 'length' of undefined")).
Proof.
  vm_compute. repeat split.
Qed.

(** ** The cache key *)

Lemma append_cons (x : ascii) (a b : string) :
  String x a +:+ b = String x (a +:+ b).
Proof. reflexivity. Qed.

Lemma append_assoc (a b c : string) : (a +:+ b) +:+ c = a +:+ (b +:+ c).
Proof.
  induction a as [|x a IH]; [reflexivity|].
  rewrite !append_cons. f_equal. exact IH.
Qed.

Lemma append_inv_head (a b c : string) : a +:+ b = a +:+ c -> b = c.
Proof.
  induction a as [|x a IH]; intros H; [exact H|].
  rewrite !append_cons in H. inversion H. apply IH. assumption.
Qed.

(** *** Strings *)





(** *** Numbers *)



Lemma string_of_Z_nonempty (z : Z) : string_of_Z z <> EmptyString.
Proof.
  unfold string_of_Z, NilZero.string_of_int, NilZero.string_of_uint.
  destruct (Z.to_int z) as [d|d]; destruct d; discriminate.
Qed.

Lemma to_int_not_nil (z : Z) :
  Z.to_int z <> Decimal.Pos Decimal.Nil /\ Z.to_int z <> Decimal.Neg Decimal.Nil.
Proof.
  assert (forall p, Pos.to_uint p <> Decimal.Nil) as Hp.
  { intros p E. pose proof (DecimalPos.Unsigned.of_to p) as H.
    rewrite E in H. discriminate H. }
  destruct z as [|p|p]; simpl; split; try discriminate;
    intros E; inversion E as [E']; apply (Hp p); exact E'.
Qed.

Lemma Z_of_string_of_Z (z : Z) : Z_of_string (string_of_Z z) = Some z.
Proof.
  unfold Z_of_string, string_of_Z.
  destruct (to_int_not_nil z) as [H1 H2].
  rewrite NilZero.isi by assumption. simpl.
  rewrite DecimalZ.of_to. reflexivity.
Qed.



(** *** Values *)






(** *** Parameter objects *)








(** *** Inside and outside of string literals *)











(** *** The key *)




Lemma key_part_truthy (k : option string) :
  truthy_string k = true -> exists s, k = Some s /\ key_part k = Some s.
Proof.
  unfold key_part. destruct k as [s|]; [|discriminate].
  intros H. rewrite H. exists s. split; reflexivity.
Qed.

Lemma key_part_falsy (k : option string) :
  truthy_string k = false -> key_part k = None.
Proof.
  unfold key_part. destruct k as [s|]; [|reflexivity].
  intros H. rewrite H. reflexivity.
Qed.






Lemma get_set_prop (k : string) (v : scalar) (o : params) :
  get_prop k (set_prop k v o) = v.
Proof.
  unfold get_prop. induction o as [|[k' v'] o IH]; simpl.
  - rewrite String.eqb_refl. reflexivity.
  - destruct (String.eqb k k') eqn:E; simpl.
    + rewrite String.eqb_refl. reflexivity.
    + rewrite E. exact IH.
Qed.






(** * Further properties of the client *)

(** ** What a fetch can touch *)

Lemma fold_insert_outside (this : config) (base : string)
    (f : Z * json -> string) (l : list (Z * json)) (c : gmap string entry) :
  (forall kv, under base (f kv)) ->
  same_outside base c
    (fold_left (fun c kv => <[f kv := stored_as this (snd kv)]> c) l c).
Proof.
  intros Hf. revert c. induction l as [|kv l IH]; intros c key Hk; simpl.
  - reflexivity.
  - rewrite IH by exact Hk. apply lookup_insert_ne.
    intros E. apply Hk. rewrite <- E. apply Hf.
Qed.

Lemma writes_under_map (base : string) (l : list (Z * json)) :
  writes_under base
    (map (fun kv => CacheSet (base +:+ "#" +:+ string_of_Z (fst kv)) (snd kv)) l).
Proof.
  unfold writes_under. apply List.Forall_forall. intros e He.
  apply in_map_iff in He. destruct He as (kv & <- & _).
  eexists _, _. split; [reflexivity|]. eexists; reflexivity.
Qed.

Section Frames.

Variable this : config.
Variable transport : http_request -> reply.
Variable json_parse : string -> option json.

Local Abbreviation apiRequest := (_apiRequest this transport json_parse).
Local Abbreviation apiDetailsRequest :=
  (_apiDetailsRequest this transport json_parse).
Local Abbreviation fetchMissing :=
  (fetch_missing this transport json_parse).

(** [_setCacheObjects] writes per-id keys under its base key and nothing
    else. *)
Lemma setCacheObjects_frame (base : string) (j : json) (w : world) :
  let w' := snd (_setCacheObjects this base j w) in
  exists writes : list event,
    log w' = (log w ++ writes)%list /\
    writes_under base writes /\
    same_outside base (cache w) (cache w').
Proof.
  unfold _setCacheObjects.
  assert (forall w0 : world,
            exists writes : list event,
              log w0 = (log w0 ++ writes)%list /\ writes_under base writes /\
              same_outside base (cache w0) (cache w0)) as Hnil.
  { intros w0. exists []. rewrite app_nil_r.
    split; [reflexivity|]. split; [constructor | intros key _; reflexivity]. }
  assert (forall (key : string) (v : json) (e : entry),
            under base key ->
            exists writes : list event,
              (log w ++ [CacheSet key v])%list = (log w ++ writes)%list /\
              writes_under base writes /\
              same_outside base (cache w) (<[key := e]> (cache w))) as Hone.
  { intros key v e Hk. exists [CacheSet key v]. split; [reflexivity|]. split.
    - constructor; [|constructor]. eexists _, _. split; [reflexivity|exact Hk].
    - intros key' Hk'. apply lookup_insert_ne. intros E. apply Hk'.
      rewrite <- E. exact Hk. }
  destruct j as [| | | |xs|fields]; simpl; try apply Hnil;
    try (apply Hone; eexists; reflexivity).
  destruct (as_objects xs) as [objs|]; [|apply Hnil].
  unfold bind. rewrite forM_cache_set. simpl.
  eexists. split; [reflexivity|]. split.
  - apply writes_under_map.
  - apply (fold_insert_outside this base
             (fun kv => base +:+ "#" +:+ string_of_Z (fst kv))).
    intros kv. eexists; reflexivity.
Qed.

(** The rest of a detail fetch performs nothing, or one request for
    [ids] followed by writes under the base key. *)
Lemma fetch_missing_frame (path base : string) (ak : option string)
    (ids : idarg) (o : lookup_obj) (cachedResult : jsvalue) (w : world) :
  let w' := snd (fetchMissing path base ak ids o cachedResult w) in
  exists evs : list event,
    log w' = (log w ++ evs)%list /\
    (evs = [] \/
     exists writes, evs = HttpGet (details_request path ak ids) :: writes /\
                    writes_under base writes) /\
    same_outside base (cache w) (cache w').
Proof.
  cbv zeta. rewrite fetch_missing_eq.
  assert (exists evs : list event,
            log w = (log w ++ evs)%list /\
            (evs = [] \/
             exists writes, evs = HttpGet (details_request path ak ids) :: writes /\
                            writes_under base writes) /\
            same_outside base (cache w) (cache w)) as Hnil.
  { exists []. rewrite app_nil_r. split; [reflexivity|].
    split; [left; reflexivity | intros key _; reflexivity]. }
  destruct (length_le_0 ids) as [e|[|]]; try exact Hnil.
  cbv zeta.
  destruct (on_response json_parse (transport (details_request path ak ids)))
    as [e|res]; simpl.
  - exists [HttpGet (details_request path ak ids)].
    split; [reflexivity|]. split.
    + right. exists []. split; [reflexivity | constructor].
    + intros key _. reflexivity.
  - destruct (setCacheObjects_frame base (data res)
                (emit (HttpGet (details_request path ak ids)) w))
      as (writes & Hl & Hw & Hc). simpl in Hl, Hc.
    exists (HttpGet (details_request path ak ids) :: writes).
    split; [rewrite Hl, <- app_assoc; reflexivity|]. split.
    + right. exists writes. split; [reflexivity | exact Hw].
    + exact Hc.
Qed.

Lemma count_app (l1 l2 : list event) :
  transport_calls (l1 ++ l2) = (transport_calls l1 + transport_calls l2)%nat /\
  cache_writes (l1 ++ l2) = (cache_writes l1 + cache_writes l2)%nat /\
  cache_reads (l1 ++ l2) = (cache_reads l1 + cache_reads l2)%nat.
Proof.
  unfold transport_calls, cache_writes, cache_reads.
  rewrite !List.filter_app, !length_app. repeat split.
Qed.

Lemma count_writes_under (base : string) (evs : list event) :
  writes_under base evs ->
  transport_calls evs = 0%nat /\ cache_reads evs = 0%nat.
Proof.
  unfold writes_under, transport_calls, cache_reads.
  induction 1 as [|e evs (key & v & -> & _) _ IH]; simpl; [split; reflexivity|].
  exact IH.
Qed.

Lemma count_gets (l : list string) :
  transport_calls (map CacheGet l) = 0%nat /\
  cache_writes (map CacheGet l) = 0%nat /\
  cache_reads (map CacheGet l) = length l.
Proof.
  unfold transport_calls, cache_writes, cache_reads.
  induction l as [|x l (H1 & H2 & H3)]; simpl; [repeat split|].
  rewrite H3. repeat split; assumption.
Qed.

(** The events of a detail fetch: the cache reads, then nothing or one
    request followed by writes under the base key. *)
Lemma detail_fetch_events (path : string) (ids0 : idarg) (a : arg)
    (k : option string) (w : world) :
  let base := request_key this path a k in
  let w' := snd (apiDetailsRequest path ids0 a k w) in
  exists (reads : list string) (evs : list event),
    new_events w w' = (map CacheGet reads ++ evs)%list /\
    length reads = match ids0 with
                   | Many l => length l
                   | Single _ => 1%nat
                   end /\
    (evs = [] \/
     exists ids' writes,
       evs = HttpGet (details_request path (effective_apiKey a k) ids')
             :: writes /\
       writes_under base writes) /\
    same_outside base (cache w) (cache w').
Proof.
  intros base.
  assert (forall (reads : list string) (ids : idarg) (o : lookup_obj)
                 (cr : jsvalue),
            let w1 := {| cache := cache w;
                         log := log w ++ map CacheGet reads |} in
            let w' := snd (fetchMissing path base (effective_apiKey a k)
                             ids o cr w1) in
            exists evs : list event,
              new_events w w' = (map CacheGet reads ++ evs)%list /\
              (evs = [] \/
               exists ids' writes,
                 evs = HttpGet (details_request path (effective_apiKey a k) ids')
                       :: writes /\
                 writes_under base writes) /\
              same_outside base (cache w) (cache w')) as Hfm.
  { intros reads ids o cr w1 w'.
    destruct (fetch_missing_frame path base (effective_apiKey a k) ids o cr w1)
      as (evs & Hl & Hs & Hc).
    exists evs. split; [|split].
    - subst w'. unfold new_events. rewrite Hl. simpl.
      rewrite <- app_assoc. apply drop_app_length.
    - destruct Hs as [Hs|(writes & Hs & Hw)]; [left; exact Hs|].
      right. exists ids, writes. split; assumption.
    - exact Hc. }
  assert (forall reads : list string,
            let w1 := {| cache := cache w;
                         log := log w ++ map CacheGet reads |} in
            exists evs : list event,
              new_events w w1 = (map CacheGet reads ++ evs)%list /\
              (evs = [] \/
               exists ids' writes,
                 evs = HttpGet (details_request path (effective_apiKey a k) ids')
                       :: writes /\
                 writes_under base writes) /\
              same_outside base (cache w) (cache w1)) as Hret.
  { intros reads w1. exists []. rewrite app_nil_r. split; [|split].
    - apply new_events_app.
    - left; reflexivity.
    - intros key _. reflexivity. }
  destruct ids0 as [l|s]; cbv zeta.
  - rewrite details_many_eq. cbv zeta. fold base.
    exists (map (fun id => base +:+ "#" +:+ string_of_Z id) (sort_ids l)).
    rewrite <- (map_map (fun id => base +:+ "#" +:+ string_of_Z id) CacheGet).
    destruct (Hfm (map (fun id => base +:+ "#" +:+ string_of_Z id) (sort_ids l))
                (Many (missing_of w base (sort_ids l)))
                (set_all (cached_of w base (sort_ids l)) [])
                (VJson (JArr (omap (fun v => v)
                               (map (lookup_id w base) (sort_ids l))))))
      as (evs & H1 & H2 & H3).
    exists evs. split; [exact H1|]. split; [|split; assumption].
    rewrite length_map. apply Permutation_length, sort_ids_perm.
  - rewrite details_single_eq. cbv zeta. fold base.
    set (probe := if truthy_scalar s
                  then base +:+ "#" +:+ string_of_scalar s else base).
    exists [probe].
    change (emit (CacheGet probe) w)
      with {| cache := cache w; log := log w ++ map CacheGet [probe] |}.
    assert (forall w2 : world,
              (exists evs : list event,
                 new_events w w2 = (map CacheGet [probe] ++ evs)%list /\
                 (evs = [] \/
                  exists ids' writes,
                    evs = HttpGet (details_request path (effective_apiKey a k) ids')
                          :: writes /\
                    writes_under base writes) /\
                 same_outside base (cache w) (cache w2)) ->
              exists evs : list event,
                new_events w w2 = (map CacheGet [probe] ++ evs)%list /\
                length [probe] = 1%nat /\
                (evs = [] \/
                 exists ids' writes,
                   evs = HttpGet (details_request path (effective_apiKey a k) ids')
                         :: writes /\
                   writes_under base writes) /\
                same_outside base (cache w) (cache w2)) as Hwrap.
    { intros w2 (evs & H1 & H2 & H3). exists evs. repeat split; assumption. }
    destruct (value <$> cache w !! probe) as [j|].
    + destruct j as [|b|n|s0|xs|fields].
      1-4, 6: (destruct (truthy_json _);
               [apply Hwrap, Hret | apply Hwrap, Hfm]).
      destruct s as [| | | |[|c s']| | |];
        first [apply Hwrap, Hret | apply Hwrap, Hfm].
    + apply Hwrap, Hfm.
Qed.

(** X1. Whatever the arguments, the cache and the Transport, a
    collection fetch never rejects, reads the cache exactly once, calls the
    Transport at most once and only with its own request, writes the cache
    only after a Transport call, and reads and writes the cache at no key
    but its own. *)
Theorem collection_fetch_frame (path : string) (a : arg) (k : option string)
    (w : world) :
  let key := request_key this path a k in
  let r := fst (apiRequest path a k w) in
  let w' := snd (apiRequest path a k w) in
  (exists v, r = Resolved v) /\
  cache_reads (new_events w w') = 1%nat /\
  (transport_calls (new_events w w') <= 1)%nat /\
  (cache_writes (new_events w w') <= transport_calls (new_events w w'))%nat /\
  (forall req, In (HttpGet req) (new_events w w') ->
               req = collection_request this path a k) /\
  (forall key',
     In (CacheGet key') (new_events w w') \/
     (exists v, In (CacheSet key' v) (new_events w w')) ->
     key' = key).
Proof.
  cbv zeta. rewrite apiRequest_eq. cbv zeta.
  set (key := request_key this path a k).
  set (req := collection_request this path a k).
  assert (forall l (v : jsvalue) (c : gmap string entry),
            (l = [CacheGet key] \/ l = [CacheGet key; HttpGet req] \/
             exists j, l = [CacheGet key; HttpGet req; CacheSet key j]) ->
            (exists v', Resolved v = Resolved v') /\
            cache_reads (new_events w {| cache := c; log := log w ++ l |})
              = 1%nat /\
            (transport_calls
               (new_events w {| cache := c; log := log w ++ l |}) <= 1)%nat /\
            (cache_writes
               (new_events w {| cache := c; log := log w ++ l |})
             <= transport_calls
                  (new_events w {| cache := c; log := log w ++ l |}))%nat /\
            (forall q, In (HttpGet q)
                          (new_events w {| cache := c; log := log w ++ l |})
                       -> q = req) /\
            (forall key',
               In (CacheGet key')
                  (new_events w {| cache := c; log := log w ++ l |}) \/
               (exists v0, In (CacheSet key' v0)
                  (new_events w {| cache := c; log := log w ++ l |})) ->
               key' = key)) as Hsame.
  { intros l v c Hl. rewrite new_events_app.
    split; [eexists; reflexivity|].
    destruct Hl as [-> | [-> | [j ->]]]; (split; [reflexivity|]);
      (split; [unfold transport_calls, cache_writes; simpl; lia|]);
      (split; [unfold transport_calls, cache_writes; simpl; lia|]);
      (split; [intros q Hq; simpl in Hq; intuition congruence|]);
      intros key' [H|[v0 H]]; simpl in H; intuition congruence. }
  destruct (truthy_opt (value <$> cache w !! key)).
  - unfold emit. apply Hsame. left; reflexivity.
  - destruct (transport req) as [e|st hdrs body].
    + apply Hsame. right; left; reflexivity.
    + destruct (negb (st =? 200) && negb (st =? 206)).
      * apply Hsame. right; left; reflexivity.
      * destruct (json_parse body) as [v|].
        -- simpl. apply Hsame. right; right. eexists; reflexivity.
        -- apply Hsame. right; left; reflexivity.
Qed.

(** X2. Whatever the ids, the cache and the Transport, a detail fetch
    reads the cache once per requested id (once for an id that is not an
    array) and calls the Transport at most once: never once per id. The
    request goes to the URL of the path with the headers of the API key
    and carries no [lang] parameter, although the language is part of the
    cache key. Cache writes only follow a Transport call and only go to
    per-id keys under the base key. *)
Theorem detail_fetch_frame (path : string) (ids0 : idarg) (a : arg)
    (k : option string) (w : world) :
  let base := request_key this path a k in
  let w' := snd (apiDetailsRequest path ids0 a k w) in
  cache_reads (new_events w w')
    = match ids0 with
      | Many l => length l
      | Single _ => 1%nat
      end /\
  (transport_calls (new_events w w') <= 1)%nat /\
  (forall req, In (HttpGet req) (new_events w w') ->
               url req = _buildURL path /\
               headers req = auth_headers (effective_apiKey a k) /\
               assoc "lang" (qs req) = None) /\
  (forall key v, In (CacheSet key v) (new_events w w') ->
                 under base key /\
                 transport_calls (new_events w w') = 1%nat).
Proof.
  intros base w'.
  destruct (detail_fetch_events path ids0 a k w)
    as (reads & evs & Hev & Hlen & Hshape & Hcache).
  fold base w' in Hev, Hcache, Hshape. rewrite Hev.
  destruct (count_gets reads) as (Hg1 & Hg2 & Hg3).
  destruct (count_app (map CacheGet reads) evs) as (Ha1 & Ha2 & Ha3).
  rewrite Ha1, Ha3, Hg1, Hg3, <- Hlen.
  assert (forall e, In e (map CacheGet reads) ->
                    exists key, e = CacheGet key) as Hget.
  { intros e He. apply in_map_iff in He. destruct He as (key & <- & _).
    eexists; reflexivity. }
  destruct Hshape as [->|(ids' & writes & -> & Hw)].
  - rewrite app_nil_r.
    split; [unfold cache_reads; simpl; lia|].
    split; [unfold transport_calls; simpl; lia|].
    split.
    + intros req Hr; destruct (Hget _ Hr) as [key E]; discriminate E.
    + intros key v Hr; destruct (Hget _ Hr) as [key' E]; discriminate E.
  - destruct (count_writes_under base writes Hw) as [Hw1 Hw2].
    assert (transport_calls (HttpGet (details_request path
                                        (effective_apiKey a k) ids') :: writes)
            = 1%nat) as Ht
      by (unfold transport_calls in *; simpl; rewrite Hw1; reflexivity).
    assert (cache_reads (HttpGet (details_request path
                                    (effective_apiKey a k) ids') :: writes)
            = 0%nat) as Hr0
      by (unfold cache_reads in *; simpl; exact Hw2).
    rewrite Ht, Hr0.
    assert (forall req,
              In (HttpGet req)
                 (map CacheGet reads
                  ++ HttpGet (details_request path (effective_apiKey a k) ids')
                     :: writes) ->
              req = details_request path (effective_apiKey a k) ids') as Hreq.
    { intros req Hr. apply in_app_or in Hr. destruct Hr as [Hr|[Hr|Hr]].
      - destruct (Hget _ Hr) as [key E]; discriminate E.
      - inversion Hr. reflexivity.
      - unfold writes_under in Hw. rewrite List.Forall_forall in Hw.
        destruct (Hw _ Hr) as (key & v & E & _). discriminate E. }
    split; [lia|]. split; [lia|].
    split.
    + intros req Hr. rewrite (Hreq _ Hr).
      split; [reflexivity|]. split; [reflexivity|].
      destruct ids' as [l|s]; reflexivity.
    + intros key v H. split; [|lia].
      apply in_app_or in H. destruct H as [H|[H|H]].
      * destruct (Hget _ H) as [key' E]; discriminate E.
      * discriminate H.
      * unfold writes_under in Hw. rewrite List.Forall_forall in Hw.
        destruct (Hw _ H) as (key' & v' & E & Hu). inversion E; subst.
        exact Hu.
Qed.

End Frames.

(** ** The request of a batch *)

Section BatchRequest.

Variable this : config.
Variable transport : http_request -> reply.
Variable json_parse : string -> option json.

Local Abbreviation apiDetailsRequest :=
  (_apiDetailsRequest this transport json_parse).



End BatchRequest.


(** ** A single id *)

Section SingleObject.

Variable this : config.
Variable transport : http_request -> reply.
Variable json_parse : string -> option json.

Local Abbreviation apiDetailsRequest :=
  (_apiDetailsRequest this transport json_parse).
Local Abbreviation fetchMissing :=
  (fetch_missing this transport json_parse).

(** A truthy id that is not an array always has a [length] that is not
    [<= 0], or none. *)
Lemma truthy_length (s : scalar) :
  truthy_scalar s = true -> length_le_0 (Single s) = inr false.
Proof.
  destruct s as [| |[|]|n|[|c r]| | |]; simpl; try discriminate; reflexivity.
Qed.

(** What [_setCacheObjects] does with a decoded value that is not an
    array. *)
Lemma setCacheObjects_one (base : string) (j : json) (id : option json)
    (w : world) :
  (forall xs, j <> JArr xs) ->
  get_id j = inr id ->
  _setCacheObjects this base j w =
    (Some (inr StoredOne),
     {| cache := <[base +:+ "#" +:+ string_of_opt_json id := stored_as this j]>
                   (cache w);
        log := log w ++ [CacheSet (base +:+ "#" +:+ string_of_opt_json id) j] |}).
Proof.
  intros Harr Hid. unfold _setCacheObjects.
  destruct j as [|b|n|t|xs|fields];
    try (exfalso; exact (Harr xs eq_refl));
    rewrite Hid; reflexivity.
Qed.

(** Reading the [id] of [null] throws: nothing is stored. *)
Lemma setCacheObjects_throws (base : string) (j : json) (e : js_error)
    (w : world) :
  (forall xs, j <> JArr xs) ->
  get_id j = inl e ->
  _setCacheObjects this base j w = (Some (inl e), w).
Proof.
  intros Harr Hid. unfold _setCacheObjects.
  destruct j as [|b|n|t|xs|fields];
    try (exfalso; exact (Harr xs eq_refl));
    rewrite Hid; reflexivity.
Qed.

(** A single id that is not cached and is answered with a value that is
    not an array. *)
Lemma details_single_fetched (path : string) (s : scalar)
    (a : arg) (k : option string) (w : world) (statusCode : Z)
    (hdrs : list (string * string)) (body : string) (j : json)
    (id : option json) :
  let base := request_key this path a k in
  let probe := base +:+ "#" +:+ string_of_scalar s in
  let req := {| url := _buildURL path;
                qs := [("id", s)];
                headers := auth_headers (effective_apiKey a k) |} in
  let key := base +:+ "#" +:+ string_of_opt_json id in
  truthy_scalar s = true ->
  cache w !! probe = None ->
  transport req = Response statusCode hdrs body ->
  statusCode = 200 \/ statusCode = 206 ->
  json_parse body = Some j ->
  (forall xs, j <> JArr xs) ->
  get_id j = inr id ->
  apiDetailsRequest path (Single s) a k w =
    (Some (Resolved (VJson j)),
     {| cache := <[key := stored_as this j]> (cache w);
        log := log w ++ [CacheGet probe; HttpGet req; CacheSet key j] |}).
Proof.
  intros base probe req key Hs Hmiss Ht Hst Hp Harr Hid.
  rewrite details_single_eq. cbv zeta. rewrite Hs.
  fold base probe. rewrite Hmiss. simpl.
  rewrite fetch_missing_eq, (truthy_length s Hs). cbv zeta.
  change (details_request path (effective_apiKey a k) (Single s)) with req.
  destruct (on_response_ok transport json_parse req statusCode hdrs body j
              Ht Hst Hp) as [m ->].
  simpl data.
  rewrite (setCacheObjects_one base j id _ Harr Hid). simpl.
  unfold key. rewrite <- !app_assoc. reflexivity.
Qed.

(** X3. Single id in, single object out: when a truthy id that is not an
    array is not cached and the Transport answers with a body that decodes
    to a value that is not an array, the detail fetch makes one cache read
    and one request whose only parameter is [id].  Unless the value is
    [null], it resolves with that value itself and stores it under the
    [id] property the value carries, not under the id that was asked for.
    When the value is [null], reading its [id] throws: the fetch rejects
    with that [TypeError] and stores nothing. *)
Theorem single_id_miss_returns_the_object (path : string) (s : scalar)
    (a : arg) (k : option string) (w : world) (statusCode : Z)
    (hdrs : list (string * string)) (body : string) (j : json) :
  let base := request_key this path a k in
  let probe := base +:+ "#" +:+ string_of_scalar s in
  let req := {| url := _buildURL path;
                qs := [("id", s)];
                headers := auth_headers (effective_apiKey a k) |} in
  let r := fst (apiDetailsRequest path (Single s) a k w) in
  let w' := snd (apiDetailsRequest path (Single s) a k w) in
  truthy_scalar s = true ->
  cache w !! probe = None ->
  transport req = Response statusCode hdrs body ->
  statusCode = 200 \/ statusCode = 206 ->
  json_parse body = Some j ->
  (forall xs, j <> JArr xs) ->
  match get_id j with
  | inr id =>
      let key := base +:+ "#" +:+ string_of_opt_json id in
      r = Some (Resolved (VJson j)) /\
      new_events w w' = [CacheGet probe; HttpGet req; CacheSet key j] /\
      cache w' !! key = Some (stored_as this j)
  | inl e =>
      j = JNull /\
      r = Some (Rejected e) /\
      new_events w w' = [CacheGet probe; HttpGet req] /\
      cache w' = cache w
  end.
Proof.
  intros base probe req r w' Hs Hmiss Ht Hst Hp Harr.
  destruct (get_id j) as [e|id] eqn:Hid.
  - assert (j = JNull) as Hnull
      by (destruct j; simpl in Hid; try discriminate Hid; reflexivity).
    split; [exact Hnull|].
    unfold r, w'. rewrite details_single_eq. cbv zeta. rewrite Hs.
    fold base probe. rewrite Hmiss. simpl.
    rewrite fetch_missing_eq, (truthy_length s Hs). cbv zeta.
    change (details_request path (effective_apiKey a k) (Single s)) with req.
    destruct (on_response_ok transport json_parse req statusCode hdrs body j
                Ht Hst Hp) as [m ->].
    simpl data.
    rewrite (setCacheObjects_throws base j e _ Harr Hid). simpl.
    split; [reflexivity|]. split; [|reflexivity].
    unfold new_events. simpl. rewrite <- !app_assoc. apply drop_app_length.
  - pose proof (details_single_fetched path s a k w statusCode hdrs body j id
                  Hs Hmiss Ht Hst Hp Harr Hid) as E.
    cbv zeta in E. unfold r, w'. rewrite E. simpl.
    rewrite new_events_app.
    split; [reflexivity|]. split; [reflexivity|]. apply lookup_insert_eq.
Qed.

(** X4. The single id round trip.  After the fetch of X3, when the object
    carries the id it was asked under, the same request is served from the
    cache: one cache read, no request, the same object.  When the object
    carries another id or none, the same request finds nothing and asks
    the Transport again. *)
Theorem single_id_round_trip (path : string) (s : scalar)
    (a : arg) (k : option string) (w : world) (statusCode : Z)
    (hdrs : list (string * string)) (body : string)
    (fields : list (string * json)) :
  let base := request_key this path a k in
  let probe := base +:+ "#" +:+ string_of_scalar s in
  let req := {| url := _buildURL path;
                qs := [("id", s)];
                headers := auth_headers (effective_apiKey a k) |} in
  let w1 := snd (apiDetailsRequest path (Single s) a k w) in
  let r2 := fst (apiDetailsRequest path (Single s) a k w1) in
  let w2 := snd (apiDetailsRequest path (Single s) a k w1) in
  truthy_scalar s = true ->
  cache w !! probe = None ->
  transport req = Response statusCode hdrs body ->
  statusCode = 200 \/ statusCode = 206 ->
  json_parse body = Some (JObj fields) ->
  (string_of_opt_json (assoc "id" fields) = string_of_scalar s ->
   r2 = Some (Resolved (VJson (JObj fields))) /\
   new_events w1 w2 = [CacheGet probe] /\
   cache w2 = cache w1) /\
  (string_of_opt_json (assoc "id" fields) <> string_of_scalar s ->
   r2 = Some (Resolved (VJson (JObj fields))) /\
   transport_calls (new_events w1 w2) = 1%nat).
Proof.
  intros base probe req w1 r2 w2 Hs Hmiss Ht Hst Hp.
  assert (forall xs, JObj fields <> JArr xs) as Harr by discriminate.
  assert (get_id (JObj fields) = inr (assoc "id" fields)) as Hid
    by reflexivity.
  pose proof (details_single_fetched path s a k w statusCode hdrs
                body (JObj fields) _ Hs Hmiss Ht Hst Hp Harr Hid) as E1.
  cbv zeta in E1. fold base probe req in E1.
  set (key := base +:+ "#" +:+ string_of_opt_json (assoc "id" fields)) in *.
  assert (w1 = {| cache := <[key := stored_as this (JObj fields)]> (cache w);
                  log := log w ++ [CacheGet probe; HttpGet req;
                                   CacheSet key (JObj fields)] |}) as Hw1
    by (unfold w1; rewrite E1; reflexivity).
  split; intros Hkey.
  - assert (key = probe) as Hk by (unfold key, probe; rewrite Hkey; reflexivity).
    subst r2 w2. rewrite details_single_eq. cbv zeta. rewrite Hs.
    fold base probe.
    assert (cache w1 !! probe = Some (stored_as this (JObj fields))) as Hhit
      by (rewrite Hw1, Hk; apply lookup_insert_eq).
    rewrite Hhit. simpl. rewrite new_events_emit. auto.
  - assert (key <> probe) as Hk
      by (unfold key, probe; intros E; apply Hkey;
          apply (append_inv_head "#"), (append_inv_head base); exact E).
    assert (cache w1 !! probe = None) as Hmiss1
      by (rewrite Hw1; simpl; rewrite lookup_insert_ne by exact Hk;
          exact Hmiss).
    pose proof (details_single_fetched path s a k w1 statusCode
                  hdrs body (JObj fields) _ Hs Hmiss1 Ht Hst Hp Harr Hid)
      as E2.
    cbv zeta in E2. fold base probe req key in E2.
    subst r2 w2. rewrite E2. simpl. rewrite new_events_app.
    split; reflexivity.
Qed.

(** X5. A failed request for a single id has no cached subset to fall
    back on: the promise is resolved with the error as its value, after one
    cache read and one request, and nothing is written. *)
Theorem single_id_failure_resolves_with_the_error (path : string)
    (s : scalar) (a : arg) (k : option string) (w : world) (e : js_error) :
  let base := request_key this path a k in
  let probe := base +:+ "#" +:+ string_of_scalar s in
  let req := details_request path (effective_apiKey a k) (Single s) in
  truthy_scalar s = true ->
  cache w !! probe = None ->
  fails transport json_parse req e ->
  apiDetailsRequest path (Single s) a k w =
    (Some (Resolved (VError e)),
     {| cache := cache w; log := log w ++ [CacheGet probe; HttpGet req] |}).
Proof.
  intros base probe req Hs Hmiss Hf.
  rewrite details_single_eq. cbv zeta. rewrite Hs.
  fold base probe. rewrite Hmiss. simpl.
  rewrite fetch_missing_eq, (truthy_length s Hs). cbv zeta.
  fold req. unfold fails in Hf. rewrite Hf. simpl.
  unfold emit. simpl. rewrite <- app_assoc. reflexivity.
Qed.

(** X6. A falsy id is no id.  With 0, the empty string or [false] for
    [ids], the detail fetch reads the base key, which is the key the
    collection fetch of the same path, parameters and API key stores its
    result under: when that entry holds a truthy value, the detail fetch
    resolves with it, whatever it is, without a request. *)
Theorem falsy_id_is_served_the_collection (path : string) (s : scalar)
    (a : arg) (k : option string) (w : world) (v : json) :
  let base := request_key this path a k in
  truthy_scalar s = false ->
  s <> SUndef -> s <> SNull ->
  value <$> cache w !! base = Some v ->
  truthy_json v = true ->
  apiDetailsRequest path (Single s) a k w =
    (Some (Resolved (VJson v)), emit (CacheGet base) w).
Proof.
  intros base Hs Hu Hn Hv Ht.
  rewrite details_single_eq. cbv zeta. rewrite Hs.
  fold base. rewrite Hv.
  destruct v as [|b|n|t|xs|fields]; try (rewrite Ht; reflexivity).
  destruct s as [| |b|n|[|c r]| | |b']; try congruence; try reflexivity.
  simpl in Hs. discriminate Hs.
Qed.

End SingleObject.

(** X3 on the example client: item 15, asked for by its id. *)
Lemma single_id_miss_returns_the_object_witness :
  let base := request_key default_config "items" ArgUndef None in
  let req := {| url := _buildURL "items";
                qs := [("id", SNum 15)];
                headers := [] |} in
  let r := fst (_apiDetailsRequest default_config item_transport item_parse
                  "items" (Single (SNum 15)) ArgUndef None empty_world) in
  let w' := snd (_apiDetailsRequest default_config item_transport item_parse
                   "items" (Single (SNum 15)) ArgUndef None empty_world) in
  r = Some (Resolved (VJson (item 15 "Abomination Hammer"))) /\
  new_events empty_world w'
    = [CacheGet (base +:+ "#15"); HttpGet req;
       CacheSet (base +:+ "#15") (item 15 "Abomination Hammer")] /\
  cache w' !! (base +:+ "#15")
    = Some (stored_as default_config (item 15 "Abomination Hammer")).
Proof.
  apply (single_id_miss_returns_the_object default_config item_transport
           item_parse "items" (SNum 15) ArgUndef None empty_world 200 []
           "item 15" (item 15 "Abomination Hammer"));
    try reflexivity.
  - left; reflexivity.
  - intros xs; discriminate.
Defined.

(** X4 on the example client: item 15 is served from the cache the second
    time; item 16, which the Transport answers with item 15, is asked for
    again. *)
Lemma single_id_round_trip_witness :
  (let w1 := snd (_apiDetailsRequest default_config item_transport item_parse
                    "items" (Single (SNum 15)) ArgUndef None empty_world) in
   let r2 := fst (_apiDetailsRequest default_config item_transport item_parse
                    "items" (Single (SNum 15)) ArgUndef None w1) in
   let w2 := snd (_apiDetailsRequest default_config item_transport item_parse
                    "items" (Single (SNum 15)) ArgUndef None w1) in
   r2 = Some (Resolved (VJson (item 15 "Abomination Hammer"))) /\
   new_events w1 w2
     = [CacheGet (request_key default_config "items" ArgUndef None +:+ "#15")] /\
   cache w2 = cache w1) /\
  (let w1 := snd (_apiDetailsRequest default_config item_transport item_parse
                    "items" (Single (SNum 16)) ArgUndef None empty_world) in
   let r2 := fst (_apiDetailsRequest default_config item_transport item_parse
                    "items" (Single (SNum 16)) ArgUndef None w1) in
   let w2 := snd (_apiDetailsRequest default_config item_transport item_parse
                    "items" (Single (SNum 16)) ArgUndef None w1) in
   r2 = Some (Resolved (VJson (item 15 "Abomination Hammer"))) /\
   transport_calls (new_events w1 w2) = 1%nat).
Proof.
  split.
  - apply (single_id_round_trip default_config item_transport item_parse
             "items" (SNum 15) ArgUndef None empty_world 200 [] "item 15"
             [("id", JNum 15); ("name", JStr "Abomination Hammer")]);
      try reflexivity.
    left; reflexivity.
  - apply (single_id_round_trip default_config item_transport item_parse
             "items" (SNum 16) ArgUndef None empty_world 200 [] "item 15"
             [("id", JNum 15); ("name", JStr "Abomination Hammer")]);
      try reflexivity.
    + left; reflexivity.
    + vm_compute. discriminate.
Defined.

(** X5 on the example client: item 7 does not exist. *)
Lemma single_id_failure_resolves_with_the_error_witness :
  let base := request_key default_config "items" ArgUndef None in
  _apiDetailsRequest default_config item_transport item_parse "items"
    (Single (SNum 7)) ArgUndef None empty_world =
    (Some (Resolved (VError (Error (status_message 404 "no such id")))),
     {| cache := cache empty_world;
        log := log empty_world
               ++ [CacheGet (base +:+ "#7");
                   HttpGet (details_request "items" None (Single (SNum 7)))] |}).
Proof.
  apply (single_id_failure_resolves_with_the_error default_config
           item_transport item_parse "items" (SNum 7) ArgUndef None
           empty_world (Error (status_message 404 "no such id")));
    reflexivity.
Defined.

(** X6 on the example client: the id 0 is answered with the list of all
    ids. *)
Lemma falsy_id_is_served_the_collection_witness :
  _apiDetailsRequest default_config item_transport item_parse "items"
    (Single (SNum 0)) ArgUndef None list_world =
    (Some (Resolved (VJson (JArr [JNum 1; JNum 2; JNum 3]))),
     emit (CacheGet (request_key default_config "items" ArgUndef None))
          list_world).
Proof.
  apply (falsy_id_is_served_the_collection default_config item_transport
           item_parse "items" (SNum 0) ArgUndef None list_world
           (JArr [JNum 1; JNum 2; JNum 3]));
    try reflexivity; try discriminate.
Defined.

(** ** Failures of a collection fetch *)

Section CollectionFailure.

Variable this : config.
Variable transport : http_request -> reply.
Variable json_parse : string -> option json.

Local Abbreviation apiRequest := (_apiRequest this transport json_parse).

(** A collection fetch that misses and whose request fails. *)
Lemma apiRequest_failed (path : string) (a : arg) (k : option string)
    (w : world) (e : js_error) :
  let key := request_key this path a k in
  let req := collection_request this path a k in
  truthy_opt (value <$> cache w !! key) = false ->
  fails transport json_parse req e ->
  apiRequest path a k w =
    (Resolved (VError e),
     {| cache := cache w; log := log w ++ [CacheGet key; HttpGet req] |}).
Proof.
  intros key req Hmiss Hf. rewrite apiRequest_eq. cbv zeta.
  fold key req. rewrite Hmiss. unfold fails, on_response, _jsonParse in Hf.
  destruct (transport req) as [e'|st hdrs body].
  - congruence.
  - destruct (negb (st =? 200) && negb (st =? 206)).
    + unfold status_message. congruence.
    + destruct (json_parse body); [discriminate Hf|congruence].
Qed.

(** X7. Failures are not cached.  When a collection fetch misses and its
    request fails, for whatever reason, the promise is resolved with the
    error as its value and the cache is left as it was; the same call made
    again therefore asks the Transport again, however often it is
    repeated. *)
Theorem collection_failure_is_not_cached (path : string) (a : arg)
    (k : option string) (w : world) (e : js_error) :
  let key := request_key this path a k in
  let req := collection_request this path a k in
  let w1 := snd (apiRequest path a k w) in
  let w2 := snd (apiRequest path a k w1) in
  truthy_opt (value <$> cache w !! key) = false ->
  fails transport json_parse req e ->
  fst (apiRequest path a k w) = Resolved (VError e) /\
  cache w1 = cache w /\
  fst (apiRequest path a k w1) = Resolved (VError e) /\
  new_events w1 w2 = [CacheGet key; HttpGet req] /\
  cache w2 = cache w.
Proof.
  intros key req w1 w2 Hmiss Hf.
  pose proof (apiRequest_failed path a k w e Hmiss Hf) as E1.
  cbv zeta in E1. fold key req in E1.
  assert (cache w1 = cache w) as Hc by (unfold w1; rewrite E1; reflexivity).
  assert (truthy_opt (value <$> cache w1 !! key) = false) as Hmiss1
    by (rewrite Hc; exact Hmiss).
  pose proof (apiRequest_failed path a k w1 e Hmiss1 Hf) as E2.
  cbv zeta in E2. fold key req in E2.
  split; [rewrite E1; reflexivity|]. split; [exact Hc|].
  split; [rewrite E2; reflexivity|].
  unfold w2. rewrite E2. simpl. rewrite new_events_app.
  split; [reflexivity|exact Hc].
Qed.

(** X8. The three ways a request fails, and no other: the Transport call
    itself fails, and its error is passed on; the status is neither 200 nor
    206; or the body of a 200 or 206 response cannot be decoded, and the
    error is an [Error] whose message is the text "Error parsing JSON
    response: " followed by the body.  A response with status 200 or 206
    and a body that decodes never fails, whatever the decoded value is. *)
Theorem request_fails_in_three_ways (req : http_request) (e : js_error) :
  fails transport json_parse req e <->
  transport req = NetworkFailure e \/
  (exists statusCode hdrs body,
     transport req = Response statusCode hdrs body /\
     statusCode <> 200 /\ statusCode <> 206 /\
     e = Error (status_message statusCode body)) \/
  (exists statusCode hdrs body,
     transport req = Response statusCode hdrs body /\
     (statusCode = 200 \/ statusCode = 206) /\
     json_parse body = None /\
     e = Error ("Error parsing JSON response: " +:+ body)).
Proof.
  unfold fails, on_response, _jsonParse, status_message.
  destruct (transport req) as [e'|st hdrs body].
  - split.
    + intros H. left. congruence.
    + intros [H|[(st & hdrs & body & H & _)|(st & hdrs & body & H & _)]];
        congruence.
  - destruct (Z.eqb_spec st 200) as [E200|N200];
      destruct (Z.eqb_spec st 206) as [E206|N206]; simpl;
      try (destruct (json_parse body) as [j|] eqn:Hp).
    all: split;
      [ intros H; try discriminate H;
        try (right; right; exists st, hdrs, body;
             split; [reflexivity|]; split; [lia|];
             split; [exact Hp|congruence]);
        try (right; left; exists st, hdrs, body;
             split; [reflexivity|]; split; [exact N200|];
             split; [exact N206|congruence])
      | intros [H|[(st' & hdrs' & body' & H & H1 & H2 & H3)
                  |(st' & hdrs' & body' & H & H1 & H2 & H3)]];
        try discriminate H; inversion H; subst st' hdrs' body';
        try lia; try congruence ].
Qed.

End CollectionFailure.

(** X7 on the example client: page 9 of the items does not exist. *)
Lemma collection_failure_is_not_cached_witness :
  let a := ArgObj [("page", SNum 9)] in
  let e := Error (status_message 404 "no such id") in
  let w1 := snd (_apiRequest default_config demo_transport demo_parse
                   "items" a None empty_world) in
  let w2 := snd (_apiRequest default_config demo_transport demo_parse
                   "items" a None w1) in
  fst (_apiRequest default_config demo_transport demo_parse "items" a None
         empty_world) = Resolved (VError e) /\
  cache w1 = cache empty_world /\
  fst (_apiRequest default_config demo_transport demo_parse "items" a None w1)
    = Resolved (VError e) /\
  new_events w1 w2
    = [CacheGet (request_key default_config "items" a None);
       HttpGet (collection_request default_config "items" a None)] /\
  cache w2 = cache empty_world.
Proof.
  apply (collection_failure_is_not_cached default_config demo_transport
           demo_parse "items" (ArgObj [("page", SNum 9)]) None empty_world
           (Error (status_message 404 "no such id")));
    reflexivity.
Defined.

(** ** The cache after a batch *)

Lemma id_key_inj (base : string) (id id' : Z) :
  base +:+ "#" +:+ string_of_Z id = base +:+ "#" +:+ string_of_Z id' ->
  id = id'.
Proof.
  intros E. apply append_inv_head, append_inv_head in E.
  pose proof (Z_of_string_of_Z id) as H.
  rewrite E, Z_of_string_of_Z in H. congruence.
Qed.

(** The entry of an id the stored objects do not name is left alone. *)
Lemma store_lookup_old (this : config) (base : string) (l : list (Z * json))
    (c : gmap string entry) (id : Z) :
  ~ In id (map fst l) ->
  fold_left (fun c kv => <[base +:+ "#" +:+ string_of_Z (fst kv)
                           := stored_as this (snd kv)]> c) l c
    !! (base +:+ "#" +:+ string_of_Z id)
  = c !! (base +:+ "#" +:+ string_of_Z id).
Proof.
  revert c. induction l as [|[k v] l IH]; intros c Hn; simpl; [reflexivity|].
  simpl in Hn. rewrite IH by tauto.
  apply lookup_insert_ne. intros E. apply id_key_inj in E. tauto.
Qed.

(** The entry of an id the stored objects name holds one of them. *)
Lemma store_lookup_new (this : config) (base : string) (l : list (Z * json))
    (c : gmap string entry) (id : Z) :
  In id (map fst l) ->
  exists v : json,
    In (id, v) l /\
    value <$> fold_left (fun c kv => <[base +:+ "#" +:+ string_of_Z (fst kv)
                                       := stored_as this (snd kv)]> c) l c
                !! (base +:+ "#" +:+ string_of_Z id)
    = Some v.
Proof.
  revert c. induction l as [|[k v] l IH]; intros c Hin; simpl in *.
  - destruct Hin.
  - destruct (in_dec Z.eq_dec id (map fst l)) as [Hl|Hl].
    + destruct (IH (<[base +:+ "#" +:+ string_of_Z k := stored_as this v]> c) Hl)
        as (v' & H1 & H2).
      exists v'. split; [right; exact H1 | exact H2].
    + destruct Hin as [E|Hin]; [|contradiction]. subst k.
      exists v. split; [left; reflexivity|].
      rewrite (store_lookup_old this base l _ id Hl), lookup_insert_eq.
      reflexivity.
Qed.

(** The lookup object and the cache are written in step: when the
    properties of the lookup object are in the cache, they still are after
    the same objects have been filed in both. *)
Lemma stored_in_step (this : config) (base : string) (kvs : list (Z * json)) :
  forall (o : lookup_obj) (c : gmap string entry),
    all_indices (map fst kvs) ->
    all_indices (obj_keys o) ->
    StronglySorted Z.lt (obj_keys o) ->
    List.Forall (fun kv => value <$> c !! (base +:+ "#" +:+ string_of_Z (fst kv))
                           = Some (snd kv)) o ->
    List.Forall
      (fun kv =>
         value <$> fold_left
                     (fun c kv => <[base +:+ "#" +:+ string_of_Z (fst kv)
                                    := stored_as this (snd kv)]> c) kvs c
                   !! (base +:+ "#" +:+ string_of_Z (fst kv))
         = Some (snd kv))
      (set_all kvs o).
Proof.
  unfold set_all, all_indices.
  induction kvs as [|[k v] kvs IH]; intros o c Hk Ho Hs Hc; simpl.
  - exact Hc.
  - inversion Hk as [|? ? Hk0 Hk']; subst. simpl in Hk0.
    apply IH.
    + exact Hk'.
    + apply List.Forall_forall. intros x Hx.
      apply obj_set_keys_In in Hx. destruct Hx as [->|Hx]; [exact Hk0|].
      rewrite List.Forall_forall in Ho. apply Ho, Hx.
    + apply obj_set_sorted; assumption.
    + apply List.Forall_forall. intros [k' v'] Hin. simpl.
      destruct (obj_set_In_inv k v o k' v' Hk0 Ho Hs Hin) as [E|[Hne Hold]].
      * inversion E; subst k' v'. rewrite lookup_insert_eq. reflexivity.
      * rewrite lookup_insert_ne
          by (intros E; apply id_key_inj in E; congruence).
        rewrite List.Forall_forall in Hc. apply (Hc (k', v')), Hold.
Qed.

Lemma map_Some_inj {A : Type} (l l' : list A) :
  map Some l = map Some l' -> l = l'.
Proof.
  revert l'. induction l as [|x l IH]; intros [|y l'] H;
    try discriminate H; [reflexivity|].
  simpl in H. inversion H. f_equal. apply IH. assumption.
Qed.

Lemma sorted_keys_In (objs : list (Z * json)) (id : Z) :
  In id (map fst (sort_on fst objs)) <-> In id (map fst objs).
Proof.
  split; apply Permutation_in, Permutation_map; [|symmetry];
    apply sort_on_perm.
Qed.

Lemma filter_nil_iff {A : Type} (f : A -> bool) (l : list A) :
  List.filter f l = [] <-> forall x, In x l -> f x = false.
Proof.
  induction l as [|y l IH]; simpl.
  - split; [intros _ x []|reflexivity].
  - destruct (f y) eqn:E; split.
    + discriminate.
    + intros H. specialize (H y (or_introl eq_refl)). congruence.
    + intros H x [<-|Hx]; [exact E|]. apply IH; assumption.
    + intros H. apply IH. intros x Hx. apply H. right; exact Hx.
Qed.

Lemma sorted_NoDup_strict (l : list Z) :
  StronglySorted Z.le l -> List.NoDup l -> StronglySorted Z.lt l.
Proof.
  induction 1 as [|x l Hs IH Hle]; intros Hnd; constructor.
  - apply IH. inversion Hnd; assumption.
  - inversion Hnd as [|? ? Hx Hnd']; subst.
    rewrite List.Forall_forall in *. intros y Hy.
    specialize (Hle y Hy).
    assert (x <> y) by (intros ->; contradiction). lia.
Qed.

Lemma no_calls_in_reads (f : Z -> string) (l : list Z) :
  transport_calls (map (fun id => CacheGet (f id)) l) = 0%nat /\
  cache_writes (map (fun id => CacheGet (f id)) l) = 0%nat.
Proof.
  unfold transport_calls, cache_writes.
  induction l as [|x l [IH1 IH2]]; simpl; auto.
Qed.

Section BatchCache.

Variable this : config.
Variable transport : http_request -> reply.
Variable json_parse : string -> option json.

Local Abbreviation apiDetailsRequest :=
  (_apiDetailsRequest this transport json_parse).

(** X9. What a batch returns when the Transport answers with an array
    of objects, whatever the array holds, the ids being array indices: one
    object per id that the response names or that was requested and is
    cached, in ascending order of id.  For an id the response names it is
    an object of the response that carries that id, also when the cache
    held an object for it; for the other ids it is the cached object.  An
    id the response leaves out is silently absent from the result, and an
    object that was not asked for is part of it. *)
Theorem batch_returns_cached_and_answered (path : string) (ids : list Z)
    (a : arg) (k : option string) (w : world) (objs : list (Z * json)) :
  let base := request_key this path a k in
  let missing := missing_of w base (sort_ids ids) in
  let req := details_request path (effective_apiKey a k) (Many missing) in
  let r := fst (apiDetailsRequest path (Many ids) a k w) in
  all_indices ids ->
  all_indices (map fst objs) ->
  missing <> [] ->
  answers transport json_parse req objs ->
  exists (result : list json) (keys : list Z),
    r = Some (Resolved (VJson (JArr result))) /\
    StronglySorted Z.lt keys /\
    (forall id, In id keys <->
                (In id ids /\ lookup_id w base id <> None) \/
                In id (map fst objs)) /\
    List.Forall2
      (fun id v =>
         In (id, v) objs \/
         (~ In id (map fst objs) /\ lookup_id w base id = Some v))
      keys result.
Proof.
  intros base missing req r Hidx Hobjs Hm Ha.
  pose proof (details_answered this transport json_parse path ids a k w objs
                Hm Ha) as E.
  cbv zeta in E. fold base in E.
  exists (obj_values (merged w base (sort_ids ids) objs)),
         (obj_keys (merged w base (sort_ids ids) objs)).
  split; [unfold r; rewrite E; reflexivity|].
  split; [|split].
  - unfold merged. apply set_all_sorted.
    + eapply all_indices_incl; [|exact Hobjs]. intros id.
      apply sorted_keys_In.
    + eapply all_indices_incl; [|exact Hidx]. intros id Hid.
      apply (cached_lookup_facts w base ids Hidx) in Hid. apply Hid.
    + apply (cached_lookup_facts w base ids Hidx).
  - intros id. unfold merged.
    rewrite !set_all_keys_In, sorted_keys_In, cached_of_keys_In.
    unfold sort_ids. rewrite (sort_on_In (fun n => n)). simpl.
    destruct (lookup_id w base id); simpl; split.
    + intros [H|[[H _]|[]]];
        [right; exact H|left; split; [exact H|discriminate]].
    + intros [[H _]|H];
        [right; left; split; [exact H|reflexivity]|left; exact H].
    + intros [H|[[_ H]|[]]]; [right; exact H|discriminate H].
    + intros [[_ H]|H]; [congruence|left; exact H].
  - apply Forall2_keys_values.
    eapply List.Forall_impl; [|apply (merged_source w base ids objs Hidx Hobjs)].
    intros [id v]. simpl. intros [H|(Hn & _ & Hv)]; [left; exact H|].
    right. split; assumption.
Qed.

(** The world after a batch that was answered, and what the cache then
    holds for the properties of the lookup object. *)
Lemma batch_stored (path : string) (ids : list Z)
    (a : arg) (k : option string) (w : world) (objs : list (Z * json)) :
  let base := request_key this path a k in
  let missing := missing_of w base (sort_ids ids) in
  let req := details_request path (effective_apiKey a k) (Many missing) in
  let w1 := snd (apiDetailsRequest path (Many ids) a k w) in
  missing <> [] ->
  answers transport json_parse req objs ->
  (forall id, In id (map fst objs) ->
              exists v, In (id, v) objs /\ lookup_id w1 base id = Some v) /\
  (forall id, ~ In id (map fst objs) ->
              lookup_id w1 base id = lookup_id w base id) /\
  (all_indices ids -> all_indices (map fst objs) ->
   List.Forall (fun kv => lookup_id w1 base (fst kv) = Some (snd kv))
     (merged w base (sort_ids ids) objs)).
Proof.
  intros base missing req w1 Hm Ha.
  pose proof (details_answered this transport json_parse path ids a k w objs
                Hm Ha) as E.
  cbv zeta in E. fold base in E.
  assert (cache w1 =
          fold_left (fun c kv => <[base +:+ "#" +:+ string_of_Z (fst kv)
                                   := stored_as this (snd kv)]> c)
                    (sort_on fst objs) (cache w)) as Hc
    by (unfold w1; rewrite E; reflexivity).
  unfold lookup_id. rewrite Hc. split; [|split].
  - intros id Hid. apply sorted_keys_In in Hid.
    destruct (store_lookup_new this base (sort_on fst objs) (cache w) id Hid)
      as (v & H1 & H2).
    exists v. split; [apply (sort_on_In fst), H1 | exact H2].
  - intros id Hid. rewrite store_lookup_old; [reflexivity|].
    rewrite sorted_keys_In. exact Hid.
  - intros Hidx Hobjs. unfold merged.
    assert (all_indices (obj_keys (set_all (cached_of w base (sort_ids ids)) [])))
      as Hkeys.
    { eapply all_indices_incl; [|exact Hidx]. intros id Hid.
      apply (cached_lookup_facts w base ids Hidx) in Hid. apply Hid. }
    apply stored_in_step.
    + eapply all_indices_incl; [|exact Hobjs]. intros id.
      apply sorted_keys_In.
    + exact Hkeys.
    + apply (cached_lookup_facts w base ids Hidx).
    + apply set_all_Forall; [apply cached_of_values|constructor].
Qed.


(** X11. The batch round trip.  While the store has room for the objects
    of the response and its entries have not expired, after a batch that
    the Transport answered with the objects of the missing ids the same
    batch is served from the cache alone: no request, no write, one object
    per requested id.  When the ids are array indices without repetition,
    it is the array the first call returned. *)
Theorem repeated_batch_is_served_from_the_cache (path : string)
    (ids : list Z) (a : arg) (k : option string) (w : world)
    (objs : list (Z * json)) :
  let base := request_key this path a k in
  let missing := missing_of w base (sort_ids ids) in
  let req := details_request path (effective_apiKey a k) (Many missing) in
  let r1 := fst (apiDetailsRequest path (Many ids) a k w) in
  let w1 := snd (apiDetailsRequest path (Many ids) a k w) in
  let r2 := fst (apiDetailsRequest path (Many ids) a k w1) in
  let w2 := snd (apiDetailsRequest path (Many ids) a k w1) in
  has_room this (length objs) w = true ->
  missing <> [] ->
  answers transport json_parse req objs ->
  covers objs missing ->
  transport_calls (new_events w1 w2) = 0%nat /\
  cache_writes (new_events w1 w2) = 0%nat /\
  cache w2 = cache w1 /\
  (exists result : list json,
     r2 = Some (Resolved (VJson (JArr result))) /\
     length result = length ids) /\
  (all_indices ids -> List.NoDup ids -> r2 = r1).
Proof.
  intros base missing req r1 w1 r2 w2 _ Hm Ha Hcov.
  destruct (batch_stored path ids a k w objs Hm Ha) as (Hnew & Hold & Hst).
  fold base w1 in Hnew, Hold, Hst.
  assert (forall id, In id (sort_ids ids) <-> In id ids) as Hsort
    by (intros id; apply (sort_on_In (fun n => n))).
  assert (missing_of w1 base (sort_ids ids) = []) as Hnone.
  { apply filter_nil_iff. intros id Hid.
    destruct (is_undefined (lookup_id w base id)) eqn:Hu.
    - assert (In id (map fst objs)) as Hin
        by (apply Hcov, missing_of_In; auto).
      destruct (Hnew id Hin) as (v & _ & ->). reflexivity.
    - rewrite Hold; [exact Hu|]. intros Hin.
      apply Hcov, missing_of_In in Hin. destruct Hin as [_ Hin]. congruence. }
  pose proof (details_all_cached this transport json_parse path ids a k w1
                Hnone) as E2.
  fold base in E2.
  assert (map Some (omap (fun v => v) (map (lookup_id w1 base) (sort_ids ids)))
          = map (lookup_id w1 base) (sort_ids ids)) as Hvals
    by (apply all_cached_values, Hnone).
  unfold w2, r2. rewrite E2. simpl. rewrite new_events_app.
  split; [apply no_calls_in_reads|]. split; [apply no_calls_in_reads|].
  split; [reflexivity|]. split.
  - eexists. split; [reflexivity|].
    rewrite <- (length_map Some), Hvals, length_map.
    apply Permutation_length, sort_ids_perm.
  - intros Hidx Hnd.
    pose proof (details_answered this transport json_parse path ids a k w objs
                  Hm Ha) as E1.
    cbv zeta in E1. fold base in E1. unfold r1. rewrite E1. simpl.
    apply (f_equal (fun l => Some (Resolved (VJson (JArr l))))).
    apply map_Some_inj. rewrite Hvals.
    assert (all_indices (map fst objs)) as Hobjs.
    { eapply all_indices_incl; [|exact Hidx]. intros id Hid.
      apply Hcov, missing_of_In in Hid. apply Hsort, Hid. }
    destruct (merged_facts w base ids objs Hidx Hcov) as (Hs & Hk & _).
    assert (obj_keys (merged w base (sort_ids ids) objs) = sort_ids ids) as Hkeys.
    { apply strictly_sorted_unique.
      - exact Hs.
      - apply sorted_NoDup_strict; [apply sort_ids_sorted|].
        eapply Permutation_NoDup; [symmetry; apply sort_ids_perm|exact Hnd].
      - intros id. rewrite Hk, Hsort. reflexivity. }
    symmetry.
    transitivity (map (lookup_id w1 base)
                      (obj_keys (merged w base (sort_ids ids) objs)));
      [apply values_of_keys, Hst; assumption | rewrite Hkeys; reflexivity].
Qed.

(** X12. What a batch leaves for the next one.  While the store has room
    for the objects of the response and its entries have not expired,
    after a batch that the Transport answered the ids that are still not
    cached are the missing ids the response did not name.  If there are
    any, the same batch made again sends one request, for these ids
    only. *)
Theorem next_batch_asks_for_what_was_left_out (path : string)
    (ids : list Z) (a : arg) (k : option string) (w : world)
    (objs : list (Z * json)) :
  let base := request_key this path a k in
  let missing := missing_of w base (sort_ids ids) in
  let req := details_request path (effective_apiKey a k) (Many missing) in
  let w1 := snd (apiDetailsRequest path (Many ids) a k w) in
  let w2 := snd (apiDetailsRequest path (Many ids) a k w1) in
  let left_out := missing_of w1 base (sort_ids ids) in
  has_room this (length objs) w = true ->
  missing <> [] ->
  answers transport json_parse req objs ->
  (forall id, In id left_out <-> In id missing /\ ~ In id (map fst objs)) /\
  (left_out <> [] ->
   exists writes : list event,
     new_events w1 w2 =
       (map (fun id => CacheGet (base +:+ "#" +:+ string_of_Z id)) (sort_ids ids)
        ++ HttpGet (details_request path (effective_apiKey a k) (Many left_out))
           :: writes)%list /\
     writes_under base writes).
Proof.
  intros base missing req w1 w2 left_out _ Hm Ha.
  destruct (batch_stored path ids a k w objs Hm Ha) as (Hnew & Hold & _).
  fold base w1 in Hnew, Hold. split.
  - intros id. unfold left_out, missing. rewrite !missing_of_In.
    destruct (in_dec Z.eq_dec id (map fst objs)) as [Hin|Hin].
    + destruct (Hnew id Hin) as (v & _ & ->). simpl.
      split; [intros [_ H]; discriminate H | tauto].
    + rewrite (Hold id Hin). tauto.
  - intros Hleft.
    pose proof (details_many_eq this transport json_parse path ids a k w1)
      as E2.
    cbv zeta in E2. fold base left_out in E2.
    set (w1' := {| cache := cache w1;
                   log := log w1
                          ++ map (fun id => CacheGet (base +:+ "#" +:+ string_of_Z id))
                                 (sort_ids ids) |}) in *.
    pose proof (fetch_missing_frame this transport json_parse path base
                  (effective_apiKey a k) (Many left_out)
                  (set_all (cached_of w1 base (sort_ids ids)) [])
                  (VJson (JArr (omap (fun v => v)
                     (map (lookup_id w1 base) (sort_ids ids))))) w1') as Hf.
    pose proof (fetch_missing_log this transport json_parse path base
                  (effective_apiKey a k) (Many left_out)
                  (set_all (cached_of w1 base (sort_ids ids)) [])
                  (VJson (JArr (omap (fun v => v)
                     (map (lookup_id w1 base) (sort_ids ids))))) w1') as Hl.
    cbv zeta in Hf, Hl. rewrite <- E2 in Hf, Hl. fold w2 in Hf, Hl.
    destruct Hf as (evs & Hlog & Hshape & _).
    destruct Hl as (_ & _ & Hsent & _).
    assert (length_le_0 (Many left_out) = inr false) as Hlen.
    { simpl. destruct left_out; [congruence|reflexivity]. }
    destruct (Hsent Hlen) as (rest & Hrest).
    destruct Hshape as [->|(writes & -> & Hw)].
    + rewrite app_nil_r in Hlog. rewrite Hlog in Hrest.
      apply (f_equal (@length event)) in Hrest.
      rewrite length_app in Hrest. simpl in Hrest. lia.
    + exists writes. split; [|exact Hw].
      unfold new_events. rewrite Hlog. unfold w1'. simpl.
      rewrite <- app_assoc. apply drop_app_length.
Qed.

(** X13. Every cache entry of a batch is filed under the id it carries,
    and a batch keeps it that way: whether it finds all its ids cached, its
    request fails, or the Transport answers with an array of objects with
    integer ids. *)
Theorem batch_keeps_the_cache_coherent (path : string) (ids : list Z)
    (a : arg) (k : option string) (w : world) (others : list Z) :
  let base := request_key this path a k in
  let missing := missing_of w base (sort_ids ids) in
  let req := details_request path (effective_apiKey a k) (Many missing) in
  let w1 := snd (apiDetailsRequest path (Many ids) a k w) in
  missing = [] \/
  (exists e, fails transport json_parse req e) \/
  (exists objs, answers transport json_parse req objs) ->
  coherent w base others ->
  coherent w1 base others.
Proof.
  intros base missing req w1 Hcase Hc.
  destruct (decide (missing = [])) as [Hm|Hm].
  - pose proof (details_all_cached this transport json_parse path ids a k w Hm)
      as E.
    fold base in E. unfold w1. rewrite E. exact Hc.
  - destruct Hcase as [Hnil|[[e Hf]|[objs Ha]]]; [contradiction| |].
    + pose proof (details_failed this transport json_parse path ids a k w e
                    Hm Hf) as E.
      cbv zeta in E. fold base in E. unfold w1. rewrite E. exact Hc.
    + destruct (batch_stored path ids a k w objs Hm Ha) as (Hnew & Hold & _).
      fold base w1 in Hnew, Hold.
      intros id v Hid Hv.
      destruct (in_dec Z.eq_dec id (map fst objs)) as [Hin|Hin].
      * destruct (Hnew id Hin) as (v' & Hv' & E).
        rewrite E in Hv. inversion Hv; subst v'.
        destruct Ha as (st & hdrs & body & xs & _ & _ & _ & Hobjs).
        destruct (as_objects_ids xs objs Hobjs) as [Hall _].
        rewrite List.Forall_forall in Hall. apply (Hall (id, v)), Hv'.
      * rewrite (Hold id Hin) in Hv. apply (Hc id v Hid Hv).
Qed.

End BatchCache.

(** X9 on the example client: items 15 and 2016, the first one cached. *)
Lemma batch_returns_cached_and_answered_witness :
  let base := request_key default_config "items" ArgUndef None in
  exists (result : list json) (keys : list Z),
    fst (_apiDetailsRequest default_config demo_transport demo_parse "items"
           (Many [15; 2016]) ArgUndef None item15_world)
      = Some (Resolved (VJson (JArr result))) /\
    StronglySorted Z.lt keys /\
    (forall id, In id keys <->
                (In id [15; 2016] /\ lookup_id item15_world base id <> None) \/
                In id (map fst [(2016, item 2016 "Guard Emblem")])) /\
    List.Forall2
      (fun id v =>
         In (id, v) [(2016, item 2016 "Guard Emblem")] \/
         (~ In id (map fst [(2016, item 2016 "Guard Emblem")]) /\
          lookup_id item15_world base id = Some v))
      keys result.
Proof.
  apply (batch_returns_cached_and_answered default_config demo_transport
           demo_parse "items" [15; 2016] ArgUndef None item15_world
           [(2016, item 2016 "Guard Emblem")]).
  - repeat constructor.
  - repeat constructor.
  - vm_compute; discriminate.
  - exact demo_answers_2016.
Defined.


(** X11 on the example client: the items 15 and 2016, asked for twice. *)
Lemma repeated_batch_is_served_from_the_cache_witness :
  let r1 := fst (_apiDetailsRequest default_config demo_transport demo_parse
                   "items" (Many [15; 2016]) ArgUndef None item15_world) in
  let w1 := snd (_apiDetailsRequest default_config demo_transport demo_parse
                   "items" (Many [15; 2016]) ArgUndef None item15_world) in
  let r2 := fst (_apiDetailsRequest default_config demo_transport demo_parse
                   "items" (Many [15; 2016]) ArgUndef None w1) in
  let w2 := snd (_apiDetailsRequest default_config demo_transport demo_parse
                   "items" (Many [15; 2016]) ArgUndef None w1) in
  transport_calls (new_events w1 w2) = 0%nat /\
  cache_writes (new_events w1 w2) = 0%nat /\
  cache w2 = cache w1 /\
  (exists result : list json,
     r2 = Some (Resolved (VJson (JArr result))) /\
     length result = length [15; 2016]) /\
  (all_indices [15; 2016] -> List.NoDup [15; 2016] -> r2 = r1).
Proof.
  apply (repeated_batch_is_served_from_the_cache default_config
           demo_transport demo_parse "items" [15; 2016] ArgUndef None
           item15_world [(2016, item 2016 "Guard Emblem")]).
  - reflexivity.
  - vm_compute; discriminate.
  - exact demo_answers_2016.
  - exact demo_covers_2016.
Defined.

(** X12 on a Transport that leaves item 16 out. *)
Lemma next_batch_asks_for_what_was_left_out_witness :
  let base := request_key default_config "items" ArgUndef None in
  let w1 := snd (_apiDetailsRequest default_config partial_transport
                   demo_parse "items" (Many [15; 16]) ArgUndef None
                   empty_world) in
  let w2 := snd (_apiDetailsRequest default_config partial_transport
                   demo_parse "items" (Many [15; 16]) ArgUndef None w1) in
  let left_out := missing_of w1 base (sort_ids [15; 16]) in
  (forall id, In id left_out <->
              In id (missing_of empty_world base (sort_ids [15; 16])) /\
              ~ In id (map fst [(15, item 15 "Abomination Hammer")])) /\
  (left_out <> [] ->
   exists writes : list event,
     new_events w1 w2 =
       (map (fun id => CacheGet (base +:+ "#" +:+ string_of_Z id))
            (sort_ids [15; 16])
        ++ HttpGet (details_request "items" (effective_apiKey ArgUndef None)
                      (Many left_out))
           :: writes)%list /\
     writes_under base writes).
Proof.
  apply (next_batch_asks_for_what_was_left_out default_config
           partial_transport demo_parse "items" [15; 16] ArgUndef None
           empty_world [(15, item 15 "Abomination Hammer")]).
  - reflexivity.
  - vm_compute; discriminate.
  - exists 200, [], "[item 15]", [item 15 "Abomination Hammer"].
    repeat split. left; reflexivity.
Defined.

(** X13 on the example client. *)
Lemma batch_keeps_the_cache_coherent_witness :
  coherent
    (snd (_apiDetailsRequest default_config demo_transport demo_parse "items"
            (Many [15; 2016]) ArgUndef None item15_world))
    (request_key default_config "items" ArgUndef None) [15; 2016].
Proof.
  apply (batch_keeps_the_cache_coherent default_config demo_transport
           demo_parse "items" [15; 2016] ArgUndef None item15_world
           [15; 2016]).
  - right; right. exists [(2016, item 2016 "Guard Emblem")].
    exact demo_answers_2016.
  - exact item15_world_coherent.
Defined.

(** X8 on the example client: a body the decoder does not know. *)
Lemma request_fails_in_three_ways_witness :
  fails item_transport demo_parse
    (details_request "items" None (Single (SNum 15)))
    (Error ("Error parsing JSON response: " +:+ "item 15")).
Proof.
  apply (request_fails_in_three_ways item_transport demo_parse
           (details_request "items" None (Single (SNum 15)))
           (Error ("Error parsing JSON response: " +:+ "item 15"))).
  right; right. exists 200, [], "item 15".
  split; [reflexivity|]. split; [left; reflexivity|].
  split; reflexivity.
Defined.

(** ** Configuration *)

(** X14. The defaults of the constructor replace every falsy setting: an
    absent one, but also the empty language and a cache timeout or a cache
    size of 0, which can therefore not be configured; every other setting
    is kept.  As a consequence a client built by the constructor always
    names a truthy language in the parameters of a request, and so in the
    cache key and in the query string of a collection request: the
    caller's, when it is truthy, and the default language otherwise. *)
Theorem constructed_client_always_names_a_language (raw : raw_config)
    (a : arg) (k : option string) :
  let this := constructor raw in
  let given := get_prop "lang" (fst (normalize_args a k)) in
  defaultLang this <> "" /\
  cacheTimeout this <> 0 /\
  maxCacheObjects this <> 0 /\
  (forall s, raw_defaultLang raw = Some s -> s <> "" -> defaultLang this = s) /\
  (forall n, raw_cacheTimeout raw = Some n -> n <> 0 -> cacheTimeout this = n) /\
  (forall n, raw_maxCacheObjects raw = Some n -> n <> 0 ->
             maxCacheObjects this = n) /\
  truthy_scalar (get_prop "lang" (effective_params this a k)) = true /\
  get_prop "lang" (effective_params this a k)
    = if truthy_scalar given then given else SStr (defaultLang this).
Proof.
  intros this given.
  assert (defaultLang this <> "") as Hlang.
  { unfold this, constructor, or_string; simpl.
    destruct (raw_defaultLang raw) as [s|]; [|discriminate].
    destruct (String.eqb_spec s ""); [discriminate|assumption]. }
  assert (forall o d, d <> 0 -> or_Z o d <> 0) as Hz.
  { intros o d Hd. unfold or_Z. destruct o as [n|]; [|exact Hd].
    destruct (Z.eqb_spec n 0); assumption. }
  split; [exact Hlang|].
  split; [apply Hz; discriminate|]. split; [apply Hz; discriminate|].
  split; [|split; [|split]].
  - intros s E Hs. unfold this, constructor, or_string; simpl. rewrite E.
    destruct (String.eqb_spec s ""); [contradiction|reflexivity].
  - intros n E Hn. unfold this, constructor, or_Z; simpl. rewrite E.
    destruct (Z.eqb_spec n 0); [contradiction|reflexivity].
  - intros n E Hn. unfold this, constructor, or_Z; simpl. rewrite E.
    destruct (Z.eqb_spec n 0); [contradiction|reflexivity].
  - assert (get_prop "lang" (effective_params this a k)
            = if truthy_scalar given then given else SStr (defaultLang this))
      as E.
    { unfold effective_params, with_lang. fold given.
      destruct (truthy_scalar given); simpl; [reflexivity|].
      apply get_set_prop. }
    split; [|exact E]. rewrite E.
    destruct (truthy_scalar given) eqn:Hg; [exact Hg|].
    unfold truthy_scalar.
    destruct (String.eqb_spec (defaultLang this) ""); [contradiction|].
    reflexivity.
Qed.


(** ** The public methods *)

Lemma append_nil_r (s : string) : s +:+ "" = s.
Proof.
  induction s as [|c s IH]; [reflexivity|].
  rewrite append_cons, IH. reflexivity.
Qed.

Lemma suffix_run_app (pat : string) (q : nat) (s t : string) :
  suffix_run pat q (s +:+ t) = suffix_run pat (suffix_run pat q s) t.
Proof.
  revert q. induction s as [|c s IH]; intros q; [reflexivity|].
  rewrite append_cons. simpl. apply IH.
Qed.

Lemma get_beyond (pat : string) (q : nat) :
  (String.length pat <= q)%nat -> String.get q pat = None.
Proof.
  revert q. induction pat as [|c pat IH]; intros q H; [reflexivity|].
  simpl in H. destruct q as [|q]; [lia|]. simpl. apply IH. lia.
Qed.

(** Beyond the length of the pattern all states are alike. *)
Lemma suffix_step_clamp (pat : string) (q : nat) (c : ascii) :
  suffix_step pat q c
  = suffix_step pat (Nat.min q (String.length pat)) c.
Proof.
  destruct (Nat.le_gt_cases q (String.length pat)) as [H|H].
  - rewrite Nat.min_l by exact H. reflexivity.
  - rewrite Nat.min_r by lia. unfold suffix_step.
    rewrite !get_beyond by lia. reflexivity.
Qed.

(** A property of the state after a non-empty text that holds from the
    states up to the length of the pattern holds from every state. *)
Lemma suffix_run_from_any (pat : string) (c : ascii) (r : string)
    (f : nat -> bool) :
  forallb (fun q => f (suffix_run pat q (String c r)))
          (seq 0 (S (String.length pat))) = true ->
  forall q, f (suffix_run pat q (String c r)) = true.
Proof.
  intros H q. rewrite forallb_forall in H.
  simpl suffix_run. rewrite suffix_step_clamp.
  apply (H (Nat.min q (String.length pat))).
  apply in_seq. lia.
Qed.

Lemma render_app (formals : list string) (actuals : list jsarg)
    (p1 p2 : list piece) :
  render formals actuals (p1 ++ p2)
  = render formals actuals p1 +:+ render formals actuals p2.
Proof.
  induction p1 as [|[s|x] p1 IH]; simpl; [reflexivity| |];
    rewrite IH, append_assoc; reflexivity.
Qed.

Lemma never_ends_in_sound (pat : string) (path : list piece)
    (formals : list string) (actuals : list jsarg) (q : nat) :
  never_ends_in pat path = true ->
  (suffix_run pat q (render formals actuals path) < String.length pat)%nat.
Proof.
  unfold never_ends_in. intros H.
  destruct (rev path) as [|[[|c r]|x] rest] eqn:E; try discriminate H.
  assert (path = (rev rest ++ [Lit (String c r)])%list) as ->
    by (rewrite <- (rev_involutive path), E; reflexivity).
  rewrite render_app, suffix_run_app. simpl render. rewrite append_nil_r.
  apply Nat.ltb_lt.
  apply (suffix_run_from_any pat c r (fun n => (n <? String.length pat)%nat)).
  exact H.
Qed.

(** A text that ends in the pattern is accepted, for the two patterns of
    interest. *)
Lemma ends_in_permissions (q : nat) (y : string) :
  suffix_run "/permissions" q (y +:+ "/permissions")
  = String.length "/permissions".
Proof.
  rewrite suffix_run_app. apply Nat.eqb_eq.
  apply (suffix_run_from_any "/permissions" "/" "permissions"
           (fun n => (n =? String.length "/permissions")%nat)).
  vm_compute. reflexivity.
Qed.

Lemma ends_in_treasury (q : nat) (y : string) :
  suffix_run "/treasury" q (y +:+ "/treasury") = String.length "/treasury".
Proof.
  rewrite suffix_run_app. apply Nat.eqb_eq.
  apply (suffix_run_from_any "/treasury" "/" "treasury"
           (fun n => (n =? String.length "/treasury")%nat)).
  vm_compute. reflexivity.
Qed.

Lemma eval_body_path (formals : list string) (actuals : list jsarg)
    (b : call_expr) (c : call) :
  eval_body formals actuals b = Some c ->
  path_of c = render formals actuals (pieces_of b).
Proof.
  destruct b as [path args|path args]; simpl;
    destruct (eval_args formals actuals args) as [vs|]; try discriminate.
  - destruct (as_arg (nth_arg 0 vs)) as [a|]; try discriminate.
    destruct (as_key (nth_arg 1 vs)) as [k|]; try discriminate.
    intros H. inversion H. reflexivity.
  - destruct (as_ids (nth_arg 0 vs)) as [ids|]; try discriminate.
    destruct (as_arg (nth_arg 1 vs)) as [a|]; try discriminate.
    destruct (as_key (nth_arg 2 vs)) as [k|]; try discriminate.
    intros H. inversion H. reflexivity.
Qed.

Lemma find_method_In (name : string) (m : method) :
  find_method name = Some m -> In m methods /\ method_name m = name.
Proof.
  unfold find_method. intros H. apply find_some in H.
  destruct H as [Hin Hn]. split; [apply in_rev, Hin|].
  symmetry. apply String.eqb_eq, Hn.
Qed.

(** X15. Two endpoints are out of reach.  The class defines
    [listGuildPermissions], [getGuildPermissions] and [getGuildTreasury]
    twice, and the later definition of a method replaces the earlier one:
    the first two methods request [guild/upgrades], the third requests the
    teams of the guild, and no method of the class, whatever its
    arguments, requests a path that ends in [/permissions] or in
    [/treasury]. *)
Theorem permissions_and_treasury_are_out_of_reach :
  (forall page pageSize : scalar,
     target "listGuildPermissions" [AVal page; AVal pageSize]
     = Some (CallRequest "guild/upgrades"
               (ArgObj [("page", page); ("page_size", pageSize)]) None)) /\
  (forall ids : list Z,
     target "getGuildPermissions" [AArr ids]
     = Some (CallDetails "guild/upgrades" (Many ids) ArgUndef None)) /\
  (forall apiKey guildId : string,
     apiKey <> "" ->
     target "getGuildTreasury" [AVal (SStr apiKey); AVal (SStr guildId)]
     = Some (CallRequest ("guild/" +:+ guildId +:+ "/teams")
               (ArgStr apiKey) None)) /\
  (forall (name : string) (actuals : list jsarg) (c : call) (y : string),
     target name actuals = Some c ->
     path_of c <> y +:+ "/permissions" /\
     path_of c <> y +:+ "/treasury").
Proof.
  assert (find_method "listGuildPermissions"
          = Some {| method_name := "listGuildPermissions";
                    method_formals := ["page"; "pageSize"];
                    method_body :=
                      Request [Lit "guild/upgrades"]
                        [Obj [("page", "page"); ("page_size", "pageSize")]] |})
    as Hlist by (vm_compute; reflexivity).
  assert (find_method "getGuildPermissions"
          = Some {| method_name := "getGuildPermissions";
                    method_formals := ["ids"];
                    method_body :=
                      Details [Lit "guild/upgrades"] [Var "ids"] |})
    as Hget by (vm_compute; reflexivity).
  assert (find_method "getGuildTreasury"
          = Some {| method_name := "getGuildTreasury";
                    method_formals := ["apiKey"; "guildId"];
                    method_body :=
                      Request [Lit "guild/"; Par "guildId"; Lit "/teams"]
                        [Var "apiKey"] |})
    as Htreasury by (vm_compute; reflexivity).
  split; [|split; [|split]].
  - intros page pageSize. unfold target. rewrite Hlist. reflexivity.
  - intros ids. unfold target. rewrite Hget. reflexivity.
  - intros apiKey guildId Hk. unfold target. rewrite Htreasury.
    cbn. destruct (String.eqb_spec apiKey ""); [contradiction|].
    cbn. rewrite append_nil_r. reflexivity.
  - intros name actuals c y H. unfold target in H.
    destruct (find_method name) as [m|] eqn:Hm; [|discriminate H].
    destruct (find_method_In name m Hm) as [Hin Hname].
    apply eval_body_path in H.
    assert (forall pat,
              forallb (resolves_clear_of pat) methods = true ->
              never_ends_in pat (pieces_of (method_body m)) = true) as Hclear.
    { intros pat Hall. rewrite forallb_forall in Hall.
      specialize (Hall m Hin). unfold resolves_clear_of in Hall.
      rewrite Hname, Hm in Hall. exact Hall. }
    split; intros E; rewrite H in E.
    + assert (never_ends_in "/permissions" (pieces_of (method_body m)) = true)
        as Hc by (apply Hclear; vm_compute; reflexivity).
      pose proof (never_ends_in_sound _ _ (method_formals m) actuals 0%nat Hc)
        as Hlt.
      rewrite E, ends_in_permissions in Hlt. simpl in Hlt. lia.
    + assert (never_ends_in "/treasury" (pieces_of (method_body m)) = true)
        as Hc by (apply Hclear; vm_compute; reflexivity).
      pose proof (never_ends_in_sound _ _ (method_formals m) actuals 0%nat Hc)
        as Hlt.
      rewrite E, ends_in_treasury in Hlt. simpl in Hlt. lia.
Qed.

Lemma auth_headers_key_part (k : option string) :
  auth_headers k
  = match key_part k with
    | Some s => [("Authorization", "Bearer " +:+ s)]
    | None => []
    end.
Proof.
  unfold auth_headers, key_part. destruct k as [s|]; [|reflexivity].
  destruct (truthy_string (Some s)); reflexivity.
Qed.

Lemma truthy_scalar_string (s : scalar) :
  truthy_scalar s = true -> string_of_scalar s <> "".
Proof.
  destruct s as [| |[|]|n|t| | |[|]]; simpl; try discriminate.
  - intros _. apply string_of_Z_nonempty.
  - destruct (String.eqb_spec t ""); [discriminate|]. intros _. assumption.
Qed.

Section Methods.

Variable this : config.
Variable transport : http_request -> reply.
Variable json_parse : string -> option json.

(** The requests of a call carry the headers of its API key. *)
Lemma run_headers (c : call) (w : world) (req : http_request) :
  In (HttpGet req) (new_events w (snd (run this transport json_parse c w))) ->
  headers req = auth_headers (key_of c).
Proof.
  assert (forall k, auth_headers (key_part k) = auth_headers k) as Hk.
  { intros k. unfold auth_headers, key_part. destruct k as [s|]; [|reflexivity].
    destruct (truthy_string (Some s)) eqn:E; [rewrite E|]; reflexivity. }
  destruct c as [path a k|path ids a k]; simpl; rewrite Hk.
  - rewrite apiRequest_eq. cbv zeta.
    set (key := request_key this path a k).
    set (rq := collection_request this path a k).
    assert (forall l, In (HttpGet req) l ->
                      incl l [CacheGet key; HttpGet rq; CacheGet key] ->
                      headers req = auth_headers (effective_apiKey a k)) as Hin.
    { intros l H Hl. destruct (Hl _ H) as [E|[E|[E|[]]]]; inversion E.
      reflexivity. }
    destruct (truthy_opt (value <$> cache w !! key)).
    + simpl. rewrite new_events_emit. intros H.
      apply (Hin _ H). intros e [<-|[]]. left; reflexivity.
    + destruct (transport rq) as [e|st hdrs body].
      * simpl. rewrite new_events_app. intros H.
        apply (Hin _ H). intros e' [<-|[<-|[]]]; simpl; auto.
      * destruct (negb (st =? 200) && negb (st =? 206)).
        -- simpl. rewrite new_events_app. intros H.
           apply (Hin _ H). intros e' [<-|[<-|[]]]; simpl; auto.
        -- destruct (json_parse body) as [v|].
           ++ simpl. rewrite new_events_app. intros H.
              apply (Hin [HttpGet rq]); [|intros e' [<-|[]]; simpl; auto].
              destruct H as [E|[E|[E|[]]]]; inversion E.
              left; reflexivity.
           ++ simpl. rewrite new_events_app. intros H.
              apply (Hin _ H). intros e' [<-|[<-|[]]]; simpl; auto.
  - destruct (detail_fetch_events this transport json_parse path ids a k w)
      as (reads & evs & Hev & _ & Hshape & _).
    rewrite Hev. intros H. apply in_app_or in H. destruct H as [H|H].
    + apply in_map_iff in H. destruct H as (x & E & _). discriminate E.
    + destruct Hshape as [->|(ids' & writes & -> & Hw)]; [destruct H|].
      destruct H as [E|H].
      * inversion E. reflexivity.
      * unfold writes_under in Hw. rewrite List.Forall_forall in Hw.
        destruct (Hw _ H) as (key & v & E & _). discriminate E.
Qed.

Lemma passes_key_sound (formals : list string) (actuals : list jsarg)
    (b : call_expr) (c : call) (s : scalar) :
  passes_key b = true ->
  actual formals actuals "apiKey" = AVal s ->
  truthy_scalar s = true ->
  eval_body formals actuals b = Some c ->
  key_of c = Some (string_of_scalar s).
Proof.
  intros Hp Ha Hs.
  assert (key_part (Some (string_of_scalar s)) = Some (string_of_scalar s))
    as Hkp.
  { unfold key_part, truthy_string.
    destruct (String.eqb_spec (string_of_scalar s) "") as [E|E];
      [apply truthy_scalar_string in Hs; contradiction|reflexivity]. }
  destruct b as [path args|path args]; simpl in Hp.
  - destruct args as [|[x|fields] [|[x'|fields'] [|e rest]]];
      try discriminate Hp.
    + apply String.eqb_eq in Hp. subst x. simpl. rewrite Ha. simpl.
      rewrite Hs. intros H. inversion H. simpl. exact Hkp.
    + apply String.eqb_eq in Hp. subst x'. simpl.
      destruct (eval_fields formals actuals fields) as [p|];
        [|discriminate]. simpl. rewrite Ha. simpl. rewrite Hs.
      intros H. inversion H. simpl. exact Hkp.
  - destruct args as [|[i|fields] [|[x'|fields'] [|e rest]]];
      try discriminate Hp.
    apply andb_prop in Hp. destruct Hp as [_ Hp].
    apply String.eqb_eq in Hp. subst x'. simpl. rewrite Ha.
    unfold nth_arg; simpl. rewrite Hs.
    destruct (as_ids (actual formals actuals i)) as [ids|]; [|discriminate].
    intros H. inversion H. simpl. exact Hkp.
Qed.

Lemma passes_no_key_sound (formals : list string) (actuals : list jsarg)
    (b : call_expr) (c : call) :
  passes_no_key b = true ->
  eval_body formals actuals b = Some c ->
  key_of c = None.
Proof.
  intros Hp.
  destruct b as [path args|path args]; simpl in Hp.
  - destruct args as [|[x|fields] [|e rest]]; try discriminate Hp; simpl.
    + intros H. inversion H. reflexivity.
    + destruct (eval_fields formals actuals fields) as [p|];
        [|discriminate]. simpl. intros H. inversion H. reflexivity.
  - destruct args as [|[i|fields] [|e rest]]; try discriminate Hp; simpl.
    unfold nth_arg; simpl.
    destruct (as_ids (actual formals actuals i)) as [ids|]; [|discriminate].
    intros H. inversion H. reflexivity.
Qed.

(** X16. The API key reaches the request.  Every method definition with an
    [apiKey] parameter passes it where the generic request expects it:
    called with a truthy key, the call works with that key, as [String]
    leaves it.  Every definition without such a parameter, [searchRecipes]
    apart (whose query, when it is no object, is taken for a key), works
    without a key.  Every request a call sends carries the key of the call
    in the [Authorization] header, as a bearer token, and no header when
    there is no key. *)
Theorem api_key_reaches_the_request (m : method) (actuals : list jsarg)
    (c : call) :
  In m methods ->
  eval_body (method_formals m) actuals (method_body m) = Some c ->
  (forall s : scalar,
     In "apiKey" (method_formals m) ->
     actual (method_formals m) actuals "apiKey" = AVal s ->
     truthy_scalar s = true ->
     key_of c = Some (string_of_scalar s)) /\
  (~ In "apiKey" (method_formals m) ->
   method_name m <> "searchRecipes" ->
   key_of c = None) /\
  (forall (w : world) (req : http_request),
     In (HttpGet req)
        (new_events w (snd (run this transport json_parse c w))) ->
     headers req = match key_of c with
                   | Some k => [("Authorization", "Bearer " +:+ k)]
                   | None => []
                   end).
Proof.
  intros Hin He.
  assert (forallb key_is_wired methods = true) as Hall
    by (vm_compute; reflexivity).
  rewrite forallb_forall in Hall. specialize (Hall m Hin).
  unfold key_is_wired, has_key_parameter in Hall.
  split; [|split].
  - intros s Hf Ha Hs.
    destruct (existsb (String.eqb "apiKey") (method_formals m)) eqn:Hex.
    + apply (passes_key_sound _ _ _ c s Hall Ha Hs He).
    + assert (existsb (String.eqb "apiKey") (method_formals m) = true) as Hex'
        by (apply existsb_exists; exists "apiKey";
            split; [exact Hf|apply String.eqb_refl]).
      congruence.
  - intros Hf Hn.
    destruct (existsb (String.eqb "apiKey") (method_formals m)) eqn:Hex.
    + apply existsb_exists in Hex. destruct Hex as (x & Hx & E).
      apply String.eqb_eq in E. subst x. contradiction.
    + apply orb_prop in Hall. destruct Hall as [Hs|Hp].
      * apply String.eqb_eq in Hs. contradiction.
      * apply (passes_no_key_sound _ _ _ c Hp He).
  - intros w req H. rewrite (run_headers c w req H).
    rewrite auth_headers_key_part.
    assert (key_part (key_of c) = key_of c) as ->; [|reflexivity].
    destruct c as [path a k|path ids a k]; simpl;
      unfold key_part; destruct (effective_apiKey _ _) as [x|];
      try reflexivity;
      destruct (truthy_string (Some x)) eqn:E; try rewrite E; reflexivity.
Qed.

End Methods.

(** X16 on the example client: the characters of an account. *)
Lemma api_key_reaches_the_request_witness :
  let c := CallDetails "characters" (Many [1; 2]) (ArgStr "K") None in
  (forall s : scalar,
     In "apiKey" ["apiKey"; "ids"] ->
     actual ["apiKey"; "ids"] [AVal (SStr "K"); AArr [1; 2]] "apiKey"
     = AVal s ->
     truthy_scalar s = true ->
     key_of c = Some (string_of_scalar s)) /\
  (~ In "apiKey" ["apiKey"; "ids"] ->
   "getCharacters" <> "searchRecipes" ->
   key_of c = None) /\
  (forall (w : world) (req : http_request),
     In (HttpGet req)
        (new_events w (snd (run default_config demo_transport demo_parse c w))) ->
     headers req = match key_of c with
                   | Some k => [("Authorization", "Bearer " +:+ k)]
                   | None => []
                   end).
Proof.
  apply (api_key_reaches_the_request default_config demo_transport demo_parse
           {| method_name := "getCharacters";
              method_formals := ["apiKey"; "ids"];
              method_body := Details [Lit "characters"]
                               [Var "ids"; Var "apiKey"] |}
           [AVal (SStr "K"); AArr [1; 2]]).
  - do 17 right. left. reflexivity.
  - reflexivity.
Defined.

(** * The earlier revision *)

Lemma mapM_cache_get_keys {A : Type} (f : A -> string) (l : list A)
    (w : world) :
  mapM (fun x => cache_get (f x)) l w =
    (map (fun x => value <$> cache w !! f x) l,
     {| cache := cache w; log := log w ++ map (fun x => CacheGet (f x)) l |}).
Proof.
  revert w. induction l as [|x l IH]; intros w; simpl.
  - unfold ret. rewrite app_nil_r. destruct w; reflexivity.
  - unfold bind at 1. unfold cache_get at 1. unfold bind at 1.
    rewrite IH. unfold ret, emit. simpl. rewrite <- app_assoc. reflexivity.
Qed.

Lemma omap_Some {A : Type} (l : list A) : omap (fun v => v) (map Some l) = l.
Proof.
  induction l as [|x l IH]; [reflexivity|].
  simpl. f_equal. exact IH.
Qed.

(** With enough objects every position of the patched array is filled. *)
Lemma patch_full (f : Z -> option json) (l : list Z) (objects : list json) :
  (length (List.filter (fun id => is_undefined (f id)) l) <= length objects)%nat ->
  exists result : list json,
    Legacy.patch (map f l) objects = map Some result /\
    length result = length l.
Proof.
  revert objects. induction l as [|id l IH]; intros objects Hlen; simpl.
  - exists []. split; reflexivity.
  - simpl in Hlen. destruct (f id) as [v|]; simpl in *.
    + destruct (IH objects Hlen) as (result & H1 & H2).
      exists (v :: result). simpl. rewrite H1, H2. split; reflexivity.
    + destruct objects as [|x objects]; [simpl in Hlen; lia|].
      simpl in Hlen.
      destruct (IH objects ltac:(lia)) as (result & H1 & H2).
      exists (x :: result). simpl. rewrite H1, H2. split; reflexivity.
Qed.

(** When the objects are those of the missing ids, in their order, the
    patched array follows the ids. *)
Lemma patch_ids (f : Z -> option json) (l : list Z) (objs : list (Z * json)) :
  map fst objs = List.filter (fun id => is_undefined (f id)) l ->
  (forall id v, In id l -> f id = Some v -> num_id v = Some id) ->
  List.Forall (fun kv => num_id (snd kv) = Some (fst kv)) objs ->
  exists result : list json,
    Legacy.patch (map f l) (map snd objs) = map Some result /\
    ids_of result = map Some l.
Proof.
  revert objs. induction l as [|id l IH]; intros objs Hids Hc Hobjs; simpl.
  - exists []. split; reflexivity.
  - simpl in Hids. destruct (f id) as [v|] eqn:E; simpl in *.
    + destruct (IH objs Hids) as (result & H1 & H2).
      * intros i u Hi. apply Hc. right; exact Hi.
      * exact Hobjs.
      * exists (v :: result). simpl. rewrite H1, H2.
        rewrite (Hc id v (or_introl eq_refl) E). split; reflexivity.
    + destruct objs as [|[k x] objs]; [discriminate Hids|].
      simpl in Hids. inversion Hids as [[Hk Hrest]].
      inversion Hobjs as [|? ? Hx Hobjs']; subst. simpl in Hx.
      destruct (IH objs Hrest) as (result & H1 & H2).
      * intros i u Hi. apply Hc. right; exact Hi.
      * exact Hobjs'.
      * exists (x :: result). simpl. rewrite H1, H2, Hx.
        split; reflexivity.
Qed.

Section LegacyClient.

Variable this : Legacy.config.
Variable transport : http_request -> reply.
Variable json_parse : string -> option json.

Local Abbreviation apiRequest :=
  (Legacy._apiRequest this transport json_parse).
Local Abbreviation apiDetailsRequest :=
  (Legacy._apiDetailsRequest this transport json_parse).

(** The collection fetch of the earlier revision, case by case. *)
Lemma legacy_apiRequest_eq (path : string) (page pageSize : scalar)
    (w : world) :
  let key := legacy_collection_key this path page pageSize in
  let req := legacy_collection_request this path page pageSize in
  apiRequest path page pageSize w =
    if truthy_opt (value <$> cache w !! key)
    then (Resolved (jsvalue_of_opt (value <$> cache w !! key)),
          emit (CacheGet key) w)
    else match Legacy.on_response json_parse (transport req) with
         | inl e =>
             (Rejected e,
              {| cache := cache w;
                 log := log w ++ [CacheGet key; HttpGet req] |})
         | inr v =>
             (Resolved (VJson v),
              {| cache := <[key := {| value := v;
                                      ttl := Legacy.cacheTimeout this |}]>
                            (cache w);
                 log := log w ++ [CacheGet key; HttpGet req; CacheSet key v] |})
         end.
Proof.
  intros key req.
  unfold Legacy._apiRequest, Legacy._findInCache. simpl Legacy.falsy.
  cbv iota.
  unfold Legacy._findInCacheSimple, bind, cache_get.
  fold (legacy_collection_key this path page pageSize). fold key.
  simpl. destruct (truthy_opt (value <$> cache w !! key)); [reflexivity|].
  unfold Legacy._request, bind, http_get, ret, emit. simpl.
  change {| url := _buildURL path;
            qs := [("page", page); ("page_size", pageSize);
                   ("lang", SStr (Legacy.lang this))];
            headers := [] |} with req.
  destruct (Legacy.on_response json_parse (transport req)) as [e|v]; simpl.
  - rewrite <- app_assoc. reflexivity.
  - unfold Legacy._setCacheObject, Legacy.cache_set. simpl.
    fold (legacy_collection_key this path page pageSize). fold key.
    rewrite <- !app_assoc. reflexivity.
Qed.

(** X17. In the earlier revision only status 200 is a success.  A
    collection fetch that misses and is answered with any other status,
    206 included and whatever the body, rejects its promise with an
    [Error] that carries the status and the body; nothing is cached.  The
    request it sent names the language of the client, which the cache key
    starts with. *)
Theorem legacy_only_status_200_succeeds (path : string)
    (page pageSize : scalar) (w : world) (statusCode : Z)
    (hdrs : list (string * string)) (body : string) :
  let key := legacy_collection_key this path page pageSize in
  let req := legacy_collection_request this path page pageSize in
  let r := fst (apiRequest path page pageSize w) in
  let w' := snd (apiRequest path page pageSize w) in
  truthy_opt (value <$> cache w !! key) = false ->
  transport req = Response statusCode hdrs body ->
  statusCode <> 200 ->
  r = Rejected (Error ("HTTPstatusCode: " +:+ string_of_Z statusCode
                       +:+ " - " +:+ body)) /\
  new_events w w' = [CacheGet key; HttpGet req] /\
  cache w' = cache w /\
  assoc "lang" (qs req) = Some (SStr (Legacy.lang this)) /\
  exists rest, key = Legacy.lang this +:+ "#" +:+ rest.
Proof.
  intros key req r w' Hmiss Ht Hst.
  unfold r, w'. rewrite legacy_apiRequest_eq. cbv zeta. fold key req.
  rewrite Hmiss, Ht. unfold Legacy.on_response.
  destruct (Z.eqb_spec statusCode 200) as [E|_]; [contradiction|]. simpl.
  rewrite new_events_app.
  split; [reflexivity|]. split; [reflexivity|]. split; [reflexivity|].
  split; [reflexivity|]. eexists. reflexivity.
Qed.

(** The detail fetch of the earlier revision for an [ids] that is not an
    array. *)
Lemma legacy_single_eq (path : string) (s : scalar) (w : world) :
  let probe := if truthy_scalar s
               then legacy_detail_key this path (string_of_scalar s)
               else Legacy.lang this +:+ "#" +:+ path in
  apiDetailsRequest path (Single s) w =
    match s with
    | SNum _ | SUndef | SNull | SBool false | SStr EmptyString
    | SNegZero | SNaN =>
        (match value <$> cache w !! probe with
         | Some (JArr _) => Some (Rejected (Legacy.no_filter (Single s)))
         | v =>
             if truthy_opt v then Some (Resolved (jsvalue_of_opt v))
             else match Legacy.has_length s with
                  | inl e => Some (Rejected e)
                  | inr _ => Some (Resolved (jsvalue_of_opt v))
                  end
         end,
         emit (CacheGet probe) w)
    | SBool true | SInf _ =>
        (Some (Rejected (Legacy.no_filter (Single s))), w)
    | SStr t =>
        (Some (Rejected (Legacy.no_filter (Single s))),
         {| cache := cache w;
            log := log w
                   ++ map (fun x => CacheGet (legacy_detail_key this path x))
                          (Legacy.chars t) |})
    end.
Proof.
  intros probe. subst probe.
  unfold Legacy._apiDetailsRequest, Legacy._findInCache.
  destruct s as [| |[|]|n|[|c t]| | |b].
  1-2, 4-6, 8-9:
    simpl; try (destruct (n =? 0) eqn:E; simpl);
    unfold bind, Legacy._findInCacheSimple, cache_get, ret,
      legacy_detail_key; simpl;
    destruct (value <$> cache w !! _) as [[|[|]|m|u|xs|fs]|];
    try reflexivity;
    simpl;
    repeat match goal with
           | |- context [if ?c then _ else _] => destruct c
           end; reflexivity.
  - reflexivity.
  - change (Legacy.falsy (Single (SStr (String c t)))) with false.
    change (Legacy.isInt (Single (SStr (String c t)))) with false.
    cbv iota.
    change (Legacy.elements (Single (SStr (String c t))))
      with (Legacy.chars (String c t)).
    unfold bind at 1. unfold bind at 1.
    rewrite (mapM_cache_get_keys
               (fun x => Legacy.lang this +:+ "#" +:+ path +:+ "#" +:+ x)).
    reflexivity.
  - reflexivity.
Qed.

(** X18. In the earlier revision an [ids] that is not an array never
    reaches the Transport: the detail fetch makes no request and no cache
    write whatever the argument is, and an integer id that is not cached
    resolves with [undefined].  The [Error] of [_idListToParams] for an
    argument that is neither an array nor an integer is never thrown: such
    an argument ends in a [TypeError] of the runtime, or in what the cache
    holds. *)
Theorem legacy_single_id_is_never_fetched (path : string) (s : scalar)
    (w : world) :
  let r := fst (apiDetailsRequest path (Single s) w) in
  let w' := snd (apiDetailsRequest path (Single s) w) in
  transport_calls (new_events w w') = 0%nat /\
  cache_writes (new_events w w') = 0%nat /\
  cache w' = cache w /\
  (exists o : outcome, r = Some o) /\
  (forall msg, r <> Some (Rejected (Error msg))) /\
  (forall n, s = SNum n -> n <> 0 ->
             cache w !! legacy_detail_key this path (string_of_Z n) = None ->
             r = Some (Resolved VUndefined)).
Proof.
  intros r w'. unfold r, w'. rewrite legacy_single_eq. cbv zeta.
  assert (forall (f : string -> string) (l : list string),
            transport_calls (map (fun x => CacheGet (f x)) l) = 0%nat /\
            cache_writes (map (fun x => CacheGet (f x)) l) = 0%nat) as Hreads.
  { intros f l. unfold transport_calls, cache_writes.
    induction l as [|x l [IH1 IH2]]; simpl; auto. }
  assert (forall (probe : string) (o : option outcome),
            (exists x, o = Some x) ->
            (forall msg, o <> Some (Rejected (Error msg))) ->
            transport_calls (new_events w (snd (o, emit (CacheGet probe) w)))
              = 0%nat /\
            cache_writes (new_events w (snd (o, emit (CacheGet probe) w)))
              = 0%nat /\
            cache (snd (o, emit (CacheGet probe) w)) = cache w /\
            (exists x, fst (o, emit (CacheGet probe) w) = Some x) /\
            (forall msg, fst (o, emit (CacheGet probe) w)
                         <> Some (Rejected (Error msg)))) as Hone.
  { intros probe o Ho Hne. simpl. rewrite new_events_emit.
    repeat split; auto. }
  assert (forall (probe : string) (t : scalar),
            (t = SNegZero \/ t = SNaN \/
             t = SUndef \/ t = SNull \/ t = SBool false \/ t = SStr ""
             \/ exists n, t = SNum n) ->
            let o :=
              match value <$> cache w !! probe with
              | Some (JArr _) => Some (Rejected (Legacy.no_filter (Single t)))
              | v =>
                  if truthy_opt v then Some (Resolved (jsvalue_of_opt v))
                  else match Legacy.has_length t with
                       | inl e => Some (Rejected e)
                       | inr _ => Some (Resolved (jsvalue_of_opt v))
                       end
              end in
            (exists x, o = Some x) /\
            (forall msg, o <> Some (Rejected (Error msg)))) as Hcase.
  { intros probe t Ht o. subst o.
    assert (forall v : jsvalue,
              (exists x, match Legacy.has_length t with
                         | inl e => Some (Rejected e)
                         | inr _ => Some (Resolved v)
                         end = Some x) /\
              (forall msg, match Legacy.has_length t with
                           | inl e => Some (Rejected e)
                           | inr _ => Some (Resolved v)
                           end <> Some (Rejected (Error msg)))) as Hlen.
    { intros v. destruct Ht as [->|[->|[->|[->|[->|[->|[n ->]]]]]]]; simpl;
        (split; [eexists; reflexivity|intros msg; discriminate]). }
    assert ((exists x, Some (Rejected (Legacy.no_filter (Single t))) = Some x) /\
            (forall msg, Some (Rejected (Legacy.no_filter (Single t)))
                         <> Some (Rejected (Error msg)))) as Hfilter.
    { destruct Ht as [->|[->|[->|[->|[->|[->|[n ->]]]]]]]; simpl;
        (split; [eexists; reflexivity|intros msg; discriminate]). }
    destruct (value <$> cache w !! probe) as [[|b|m|u|xs|fs]|];
      cbv iota zeta; try exact Hfilter;
      (destruct (truthy_opt _);
       [split; [eexists; reflexivity|intros msg; discriminate]
       |apply Hlen]). }
  assert (forall t : scalar,
            (t = SNegZero \/ t = SNaN \/
             t = SUndef \/ t = SNull \/ t = SBool false \/ t = SStr ""
             \/ exists n, t = SNum n) ->
            forall probe : string,
            let o :=
              match value <$> cache w !! probe with
              | Some (JArr _) => Some (Rejected (Legacy.no_filter (Single t)))
              | v =>
                  if truthy_opt v then Some (Resolved (jsvalue_of_opt v))
                  else match Legacy.has_length t with
                       | inl e => Some (Rejected e)
                       | inr _ => Some (Resolved (jsvalue_of_opt v))
                       end
              end in
            transport_calls (new_events w (snd (o, emit (CacheGet probe) w)))
              = 0%nat /\
            cache_writes (new_events w (snd (o, emit (CacheGet probe) w)))
              = 0%nat /\
            cache (snd (o, emit (CacheGet probe) w)) = cache w /\
            (exists x, fst (o, emit (CacheGet probe) w) = Some x) /\
            (forall msg, fst (o, emit (CacheGet probe) w)
                         <> Some (Rejected (Error msg)))) as Hfalsy.
  { intros t Ht probe o. destruct (Hcase probe t Ht) as [H1 H2].
    apply (Hone probe o H1 H2). }
  destruct s as [| |[|]|n|[|c t]| | |b].
  - destruct (Hfalsy SUndef ltac:(auto 8) (Legacy.lang this +:+ "#" +:+ path))
      as (A & B & C & D & E).
    split; [exact A|]. split; [exact B|]. split; [exact C|].
    split; [exact D|]. split; [exact E|]. intros n Hn. discriminate Hn.
  - destruct (Hfalsy SNull ltac:(auto 8) (Legacy.lang this +:+ "#" +:+ path))
      as (A & B & C & D & E).
    split; [exact A|]. split; [exact B|]. split; [exact C|].
    split; [exact D|]. split; [exact E|]. intros n Hn. discriminate Hn.
  - simpl. rewrite new_events_refl.
    split; [reflexivity|]. split; [reflexivity|]. split; [reflexivity|].
    split; [eexists; reflexivity|]. split; [intros msg; discriminate|].
    intros n Hn. discriminate Hn.
  - destruct (Hfalsy (SBool false) ltac:(auto 8)
                (Legacy.lang this +:+ "#" +:+ path))
      as (A & B & C & D & E).
    split; [exact A|]. split; [exact B|]. split; [exact C|].
    split; [exact D|]. split; [exact E|]. intros n Hn. discriminate Hn.
  - set (probe := if truthy_scalar (SNum n)
                  then legacy_detail_key this path (string_of_scalar (SNum n))
                  else Legacy.lang this +:+ "#" +:+ path).
    destruct (Hfalsy (SNum n) ltac:(eauto 9) probe) as (A & B & C & D & E).
    split; [exact A|]. split; [exact B|]. split; [exact C|].
    split; [exact D|]. split; [exact E|].
    intros m Hm Hne Hmiss. inversion Hm; subst m.
    unfold probe. simpl.
    destruct (Z.eqb_spec n 0) as [E0|_]; [contradiction|]. simpl.
    rewrite Hmiss. reflexivity.
  - destruct (Hfalsy (SStr "") ltac:(auto 8)
                (Legacy.lang this +:+ "#" +:+ path))
      as (A & B & C & D & E).
    split; [exact A|]. split; [exact B|]. split; [exact C|].
    split; [exact D|]. split; [exact E|]. intros n Hn. discriminate Hn.
  - simpl. rewrite new_events_app.
    destruct (Hreads (legacy_detail_key this path) (Legacy.chars (String c t)))
      as [A B].
    split; [exact A|]. split; [exact B|]. split; [reflexivity|].
    split; [eexists; reflexivity|]. split; [intros msg; discriminate|].
    intros n Hn. discriminate Hn.
  - destruct (Hfalsy SNegZero ltac:(auto 8)
                (Legacy.lang this +:+ "#" +:+ path))
      as (A & B & C & D & E).
    split; [exact A|]. split; [exact B|]. split; [exact C|].
    split; [exact D|]. split; [exact E|]. intros n Hn. discriminate Hn.
  - destruct (Hfalsy SNaN ltac:(auto 8)
                (Legacy.lang this +:+ "#" +:+ path))
      as (A & B & C & D & E).
    split; [exact A|]. split; [exact B|]. split; [exact C|].
    split; [exact D|]. split; [exact E|]. intros n Hn. discriminate Hn.
  - simpl. rewrite new_events_refl.
    split; [reflexivity|]. split; [reflexivity|]. split; [reflexivity|].
    split; [eexists; reflexivity|]. split; [intros msg; discriminate|].
    intros n Hn. discriminate Hn.
Qed.

(** *** Batches of the earlier revision *)

Lemma legacy_key_inj (path : string) (id id' : Z) :
  legacy_detail_key this path (string_of_Z id)
  = legacy_detail_key this path (string_of_Z id') ->
  id = id'.
Proof.
  unfold legacy_detail_key. intros E.
  do 4 apply append_inv_head in E.
  pose proof (Z_of_string_of_Z id) as H.
  rewrite E, Z_of_string_of_Z in H. congruence.
Qed.

Lemma legacy_not_cached (w : world) (path : string) (l : list Z) :
  Legacy.not_cached l (map (legacy_lookup this w path) l)
  = legacy_missing this w path l.
Proof.
  unfold legacy_missing. induction l as [|id l IH]; [reflexivity|].
  simpl. destruct (legacy_lookup this w path id); simpl; rewrite IH;
    reflexivity.
Qed.

(** The loop of [_setCacheObjects] when there are enough objects. *)
Lemma legacy_store_at (path : string) (ids : list Z) (objects : list json)
    (w : world) :
  (length ids <= length objects)%nat ->
  Legacy.store_at this path (map string_of_Z ids) objects w =
    (true,
     {| cache := stored_at this path ids objects (cache w);
        log := log w
               ++ map (fun kv => CacheSet
                                   (legacy_detail_key this path
                                      (string_of_Z (fst kv))) (snd kv))
                      (combine ids objects) |}).
Proof.
  revert objects w. induction ids as [|id ids IH]; intros objects w Hlen.
  - simpl. unfold ret, stored_at. simpl. rewrite app_nil_r.
    destruct w; reflexivity.
  - destruct objects as [|x objects]; [simpl in Hlen; lia|].
    simpl in Hlen. simpl. unfold bind, Legacy.cache_set. simpl.
    rewrite IH by lia. simpl. unfold stored_at. simpl.
    rewrite <- app_assoc. reflexivity.
Qed.

(** The detail fetch of the earlier revision for an array of ids. *)
Lemma legacy_many_eq (path : string) (ids : list Z) (w : world) :
  let sorted := sort_ids ids in
  let vs := map (legacy_lookup this w path) sorted in
  let w1 := {| cache := cache w;
               log := log w
                      ++ map (fun id => CacheGet
                                (legacy_detail_key this path (string_of_Z id)))
                             sorted |} in
  apiDetailsRequest path (Many ids) w =
    match legacy_missing this w path sorted with
    | [] => (Some (Resolved (VJson (JArr (omap (fun v => v) vs)))), w1)
    | missing =>
        Legacy.fetch_missing this transport json_parse path missing vs w1
    end.
Proof.
  intros sorted vs w1.
  unfold Legacy._apiDetailsRequest, Legacy._findInCache. fold sorted.
  change (Legacy.elements (Many sorted)) with (map string_of_Z sorted).
  unfold bind at 1. unfold bind at 1.
  rewrite (mapM_cache_get_keys
             (fun x => Legacy.lang this +:+ "#" +:+ path +:+ "#" +:+ x)).
  rewrite !map_map. unfold ret at 1.
  change (map (fun x => value <$> cache w !! (Legacy.lang this +:+ "#" +:+ path
                                              +:+ "#" +:+ string_of_Z x)) sorted)
    with vs.
  change {| cache := cache w;
            log := log w
                   ++ map (fun x => CacheGet (Legacy.lang this +:+ "#" +:+ path
                                              +:+ "#" +:+ string_of_Z x))
                          sorted |} with w1.
  unfold vs at 1. rewrite legacy_not_cached.
  destruct (legacy_missing this w path sorted); reflexivity.
Qed.

Lemma legacy_many_missing (path : string) (ids : list Z) (w : world) :
  let sorted := sort_ids ids in
  let missing := legacy_missing this w path sorted in
  missing <> [] ->
  apiDetailsRequest path (Many ids) w =
    Legacy.fetch_missing this transport json_parse path missing
      (map (legacy_lookup this w path) sorted)
      {| cache := cache w;
         log := log w
                ++ map (fun id => CacheGet
                          (legacy_detail_key this path (string_of_Z id)))
                       sorted |}.
Proof.
  intros sorted missing Hm. rewrite legacy_many_eq. cbv zeta.
  fold sorted. fold missing. destruct missing; [congruence|reflexivity].
Qed.

(** The request for the missing ids when the Transport answers with at
    least as many objects. *)
Lemma legacy_fetch_answered (path : string) (missing : list Z)
    (vs : list (option json)) (w : world) (hdrs : list (string * string))
    (body : string) (xs : list json) (objs : list (Z * json)) :
  let req := legacy_details_request this path missing in
  let objects := map snd (sort_on fst objs) in
  transport req = Response 200 hdrs body ->
  json_parse body = Some (JArr xs) ->
  as_objects xs = Some objs ->
  (length missing <= length objs)%nat ->
  Legacy.fetch_missing this transport json_parse path missing vs w =
    (Some (Resolved (VJson (JArr (omap (fun v => v) (Legacy.patch vs objects))))),
     {| cache := stored_at this path missing objects (cache w);
        log := log w
               ++ HttpGet req
                  :: map (fun kv => CacheSet
                                      (legacy_detail_key this path
                                         (string_of_Z (fst kv))) (snd kv))
                         (combine missing objects) |}).
Proof.
  intros req objects Ht Hp Ho Hlen.
  unfold Legacy.fetch_missing.
  change (Legacy._idListToParams (Many missing))
    with (@inr js_error params
            [("ids", SStr (join "," (map string_of_Z missing)))]).
  cbv iota.
  unfold bind at 1. unfold Legacy._request, bind at 1, http_get, ret at 1.
  simpl set_prop.
  change {| url := _buildURL path;
            qs := [("ids", SStr (join "," (map string_of_Z missing)));
                   ("lang", SStr (Legacy.lang this))];
            headers := [] |} with req.
  match goal with
  | |- context [transport ?r] => change r with req
  end.
  rewrite Ht. unfold Legacy.on_response.
  change (negb (200 =? 200)) with false. cbv iota.
  unfold _jsonParse. rewrite Hp. cbv iota.
  unfold Legacy._setCacheObjects. cbv beta iota zeta. rewrite Ho.
  unfold bind.
  change (Legacy.elements (Many missing)) with (map string_of_Z missing).
  fold objects.
  rewrite legacy_store_at
    by (unfold objects; rewrite length_map,
          (Permutation_length (sort_on_perm fst objs)); exact Hlen).
  unfold ret, emit. simpl. rewrite <- app_assoc. reflexivity.
Qed.

(** The entry of an id that is not among the stored ones is left alone,
    and the object at a position is stored under the id at that
    position. *)
Lemma stored_at_old (path : string) (ids : list Z) (objects : list json)
    (c : gmap string entry) (id : Z) :
  ~ In id ids ->
  stored_at this path ids objects c
    !! legacy_detail_key this path (string_of_Z id)
  = c !! legacy_detail_key this path (string_of_Z id).
Proof.
  unfold stored_at. revert objects c.
  induction ids as [|k ids IH]; intros objects c Hn; [reflexivity|].
  destruct objects as [|x objects]; [reflexivity|]. simpl.
  rewrite IH by (simpl in Hn; tauto).
  apply lookup_insert_ne. intros E. apply legacy_key_inj in E.
  simpl in Hn. tauto.
Qed.

Lemma stored_at_nth (path : string) (ids : list Z) (objects : list json)
    (c : gmap string entry) (i : nat) (id : Z) (x : json) :
  List.NoDup ids ->
  nth_error ids i = Some id ->
  nth_error objects i = Some x ->
  value <$> stored_at this path ids objects c
              !! legacy_detail_key this path (string_of_Z id)
  = Some x.
Proof.
  revert objects c i. induction ids as [|k ids IH];
    intros objects c i Hnd Hid Hx.
  - destruct i; discriminate Hid.
  - destruct objects as [|y objects]; [destruct i; discriminate Hx|].
    inversion Hnd as [|? ? Hk Hnd']; subst.
    destruct i as [|i]; simpl in Hid, Hx.
    + inversion Hid; inversion Hx; subst k y.
      change (stored_at this path (id :: ids) (x :: objects) c)
        with (stored_at this path ids objects
                (<[legacy_detail_key this path (string_of_Z id)
                   := {| value := x; ttl := Legacy.cacheTimeout this |}]> c)).
      rewrite stored_at_old by exact Hk.
      rewrite lookup_insert_eq. reflexivity.
    + change (stored_at this path (k :: ids) (y :: objects) c)
        with (stored_at this path ids objects
                (<[legacy_detail_key this path (string_of_Z k)
                   := {| value := y; ttl := Legacy.cacheTimeout this |}]> c)).
      apply (IH objects _ i Hnd' Hid Hx).
Qed.

(** X19. A batch of the earlier revision that the Transport answers with
    at least as many objects as ids are missing sends one request and
    returns one object per requested id, repeated ids included.  When the
    response carries the missing ids, and the cached objects theirs, the
    result follows the ids in ascending order, which is the caller's order
    only if the caller's ids ascend. *)
Theorem legacy_batch_follows_the_sorted_ids (path : string) (ids : list Z)
    (w : world) (hdrs : list (string * string)) (body : string)
    (xs : list json) (objs : list (Z * json)) :
  let missing := legacy_missing this w path (sort_ids ids) in
  let req := legacy_details_request this path missing in
  let r := fst (apiDetailsRequest path (Many ids) w) in
  let w' := snd (apiDetailsRequest path (Many ids) w) in
  missing <> [] ->
  transport req = Response 200 hdrs body ->
  json_parse body = Some (JArr xs) ->
  as_objects xs = Some objs ->
  (length missing <= length objs)%nat ->
  exists result : list json,
    r = Some (Resolved (VJson (JArr result))) /\
    length result = length ids /\
    transport_calls (new_events w w') = 1%nat /\
    (map fst (sort_on fst objs) = missing ->
     (forall id v, In id ids -> legacy_lookup this w path id = Some v ->
                   num_id v = Some id) ->
     ids_of result = map Some (sort_ids ids)).
Proof.
  intros missing req r w' Hm Ht Hp Ho Hlen.
  unfold r, w'. rewrite (legacy_many_missing path ids w Hm). fold missing.
  rewrite (legacy_fetch_answered path missing _ _ hdrs body xs objs Ht Hp Ho
             Hlen).
  cbv zeta. simpl fst. simpl snd.
  assert (length (map snd (sort_on fst objs)) = length objs) as Hl
    by (rewrite length_map; apply Permutation_length, sort_on_perm).
  destruct (patch_full (legacy_lookup this w path) (sort_ids ids)
              (map snd (sort_on fst objs))) as (result & H1 & H2).
  { fold (legacy_missing this w path (sort_ids ids)). fold missing. lia. }
  exists result. rewrite H1, omap_Some.
  split; [reflexivity|].
  split; [rewrite H2; apply Permutation_length, sort_ids_perm|]. split.
  - unfold new_events. simpl. rewrite <- app_assoc, drop_app_length.
    unfold transport_calls. rewrite List.filter_app. rewrite length_app.
    assert (forall l : list Z,
              List.filter is_http
                (map (fun id => CacheGet
                        (legacy_detail_key this path (string_of_Z id))) l)
              = []) as Hg by (induction l; simpl; auto).
    assert (forall l : list (Z * json),
              List.filter is_http
                (map (fun kv => CacheSet
                        (legacy_detail_key this path (string_of_Z (fst kv)))
                        (snd kv)) l)
              = []) as Hs by (induction l; simpl; auto).
    rewrite Hg. simpl. rewrite Hs. reflexivity.
  - intros Hids Hc.
    destruct (patch_ids (legacy_lookup this w path) (sort_ids ids)
                (sort_on fst objs)) as (result' & H1' & H2').
    + exact Hids.
    + intros id v Hid. apply Hc. apply (sort_on_In (fun n => n)), Hid.
    + eapply Permutation_Forall; [symmetry; apply sort_on_perm|].
      apply (as_objects_ids xs), Ho.
    + rewrite H1 in H1'. apply map_Some_inj in H1'. subst result'.
      exact H2'.
Qed.

(** X20. The earlier revision stores by position.  While the store has
    room for one entry per missing id, after a batch that the Transport
    answered the cache holds under the id at a position of the missing ids
    the object at that position of the response, sorted by [id], whatever
    id this object carries. *)
Theorem legacy_objects_are_stored_by_position (path : string) (ids : list Z)
    (w : world) (hdrs : list (string * string)) (body : string)
    (xs : list json) (objs : list (Z * json)) (i : nat) (id : Z) (x : json) :
  let missing := legacy_missing this w path (sort_ids ids) in
  let req := legacy_details_request this path missing in
  let w' := snd (apiDetailsRequest path (Many ids) w) in
  legacy_has_room this (length missing) w = true ->
  List.NoDup ids ->
  transport req = Response 200 hdrs body ->
  json_parse body = Some (JArr xs) ->
  as_objects xs = Some objs ->
  (length missing <= length objs)%nat ->
  nth_error missing i = Some id ->
  nth_error (map snd (sort_on fst objs)) i = Some x ->
  legacy_lookup this w' path id = Some x.
Proof.
  intros missing req w' _ Hnd Ht Hp Ho Hlen Hid Hx.
  assert (missing <> []) as Hm
    by (intros E; rewrite E in Hid; destruct i; discriminate Hid).
  unfold w'. rewrite (legacy_many_missing path ids w Hm). fold missing.
  rewrite (legacy_fetch_answered path missing _ _ hdrs body xs objs Ht Hp Ho
             Hlen).
  cbv zeta. unfold legacy_lookup. simpl snd. simpl cache.
  apply (stored_at_nth path missing _ _ i id x); [|exact Hid|exact Hx].
  unfold missing, legacy_missing. apply List.NoDup_filter.
  eapply Permutation_NoDup; [symmetry; apply sort_ids_perm|exact Hnd].
Qed.

(** X21. The earlier revision has no fallback.  A batch whose request for
    the missing ids fails, by the call itself, a status other than 200 or
    a body that cannot be decoded, rejects its promise with that error,
    however many of the requested ids the cache holds; nothing is
    written. *)
Theorem legacy_failed_batch_rejects (path : string) (ids : list Z)
    (w : world) (e : js_error) :
  let missing := legacy_missing this w path (sort_ids ids) in
  let req := legacy_details_request this path missing in
  let r := fst (apiDetailsRequest path (Many ids) w) in
  let w' := snd (apiDetailsRequest path (Many ids) w) in
  missing <> [] ->
  Legacy.on_response json_parse (transport req) = inl e ->
  r = Some (Rejected e) /\
  cache w' = cache w /\
  new_events w w'
    = (map (fun id => CacheGet (legacy_detail_key this path (string_of_Z id)))
           (sort_ids ids)
       ++ [HttpGet req])%list.
Proof.
  intros missing req r w' Hm Hf.
  assert (forall vs w1,
            Legacy.fetch_missing this transport json_parse path missing vs w1
            = (Some (Rejected e), emit (HttpGet req) w1)) as E.
  { intros vs w1. unfold Legacy.fetch_missing.
    change (Legacy._idListToParams (Many missing))
      with (@inr js_error params
              [("ids", SStr (join "," (map string_of_Z missing)))]).
    cbv iota. unfold Legacy._request, bind, http_get, ret.
    match goal with
    | |- context [transport ?r] => change r with req
    end.
    rewrite Hf. reflexivity. }
  unfold r, w'. rewrite (legacy_many_missing path ids w Hm). fold missing.
  rewrite E. unfold emit. simpl.
  split; [reflexivity|]. split; [reflexivity|].
  unfold new_events. simpl. rewrite <- app_assoc. apply drop_app_length.
Qed.

End LegacyClient.

(** X17 on an example: the first page of the items, answered with status
    206. *)
Lemma legacy_only_status_200_succeeds_witness :
  let key := legacy_collection_key legacy_config "items" (SNum 1) SUndef in
  let req := legacy_collection_request legacy_config "items" (SNum 1) SUndef in
  let r := fst (Legacy._apiRequest legacy_config partial_content_transport
                  demo_parse "items" (SNum 1) SUndef empty_world) in
  let w' := snd (Legacy._apiRequest legacy_config partial_content_transport
                   demo_parse "items" (SNum 1) SUndef empty_world) in
  r = Rejected (Error ("HTTPstatusCode: " +:+ string_of_Z 206
                       +:+ " - " +:+ "[1, 2, 3]")) /\
  new_events empty_world w' = [CacheGet key; HttpGet req] /\
  cache w' = cache empty_world /\
  assoc "lang" (qs req) = Some (SStr (Legacy.lang legacy_config)) /\
  exists rest, key = Legacy.lang legacy_config +:+ "#" +:+ rest.
Proof.
  apply (legacy_only_status_200_succeeds legacy_config
           partial_content_transport demo_parse "items" (SNum 1) SUndef
           empty_world 206 [] "[1, 2, 3]").
  - reflexivity.
  - reflexivity.
  - discriminate.
Defined.

(** X19 on an example: the items 2016 and 15, in this order, the second
    one cached. *)
Lemma legacy_batch_follows_the_sorted_ids_witness :
  let r := fst (Legacy._apiDetailsRequest legacy_config legacy_transport
                  demo_parse "items" (Many [2016; 15]) legacy_item15_world) in
  let w' := snd (Legacy._apiDetailsRequest legacy_config legacy_transport
                   demo_parse "items" (Many [2016; 15]) legacy_item15_world) in
  exists result : list json,
    r = Some (Resolved (VJson (JArr result))) /\
    length result = length [2016; 15] /\
    transport_calls (new_events legacy_item15_world w') = 1%nat /\
    (map fst (sort_on fst [(2016, item 2016 "Guard Emblem")])
     = legacy_missing legacy_config legacy_item15_world "items"
         (sort_ids [2016; 15]) ->
     (forall id v, In id [2016; 15] ->
                   legacy_lookup legacy_config legacy_item15_world "items" id
                   = Some v ->
                   num_id v = Some id) ->
     ids_of result = map Some (sort_ids [2016; 15])).
Proof.
  apply (legacy_batch_follows_the_sorted_ids legacy_config legacy_transport
           demo_parse "items" [2016; 15] legacy_item15_world []
           "[item 2016]" [item 2016 "Guard Emblem"]
           [(2016, item 2016 "Guard Emblem")]).
  - vm_compute; discriminate.
  - reflexivity.
  - reflexivity.
  - reflexivity.
  - vm_compute. lia.
Defined.

(** X20 on an example: asked for the items 7 and 8, the Transport answers
    with the items 2016 and 15; item 15 is then cached as item 7. *)
Lemma legacy_objects_are_stored_by_position_witness :
  legacy_lookup legacy_config
    (snd (Legacy._apiDetailsRequest legacy_config legacy_transport demo_parse
            "items" (Many [7; 8]) empty_world))
    "items" 7
  = Some (item 15 "Abomination Hammer").
Proof.
  apply (legacy_objects_are_stored_by_position legacy_config legacy_transport
           demo_parse "items" [7; 8] empty_world [] "[item 2016, item 15]"
           [item 2016 "Guard Emblem"; item 15 "Abomination Hammer"]
           [(2016, item 2016 "Guard Emblem");
            (15, item 15 "Abomination Hammer")]
           0%nat 7 (item 15 "Abomination Hammer")).
  - reflexivity.
  - repeat constructor; simpl; intuition discriminate.
  - reflexivity.
  - reflexivity.
  - reflexivity.
  - vm_compute. lia.
  - reflexivity.
  - reflexivity.
Defined.

(** X21 on an example: item 15 is cached, item 7 does not exist. *)
Lemma legacy_failed_batch_rejects_witness :
  let r := fst (Legacy._apiDetailsRequest legacy_config legacy_transport
                  demo_parse "items" (Many [15; 7]) legacy_item15_world) in
  let w' := snd (Legacy._apiDetailsRequest legacy_config legacy_transport
                   demo_parse "items" (Many [15; 7]) legacy_item15_world) in
  r = Some (Rejected (Error ("HTTPstatusCode: " +:+ string_of_Z 404
                             +:+ " - " +:+ "no such id"))) /\
  cache w' = cache legacy_item15_world /\
  new_events legacy_item15_world w'
    = (map (fun id => CacheGet
              (legacy_detail_key legacy_config "items" (string_of_Z id)))
           (sort_ids [15; 7])
       ++ [HttpGet (legacy_details_request legacy_config "items"
                      (legacy_missing legacy_config legacy_item15_world
                         "items" (sort_ids [15; 7])))])%list.
Proof.
  apply (legacy_failed_batch_rejects legacy_config legacy_transport
           demo_parse "items" [15; 7] legacy_item15_world
           (Error ("HTTPstatusCode: " +:+ string_of_Z 404
                   +:+ " - " +:+ "no such id"))).
  - vm_compute; discriminate.
  - reflexivity.
Defined.

(** * Further properties of the latest revision *)

Section Payload.

Variable this : config.
Variable json_parse : string -> option json.

Lemma on_response_payload (r r' : reply) :
  same_payload r r' ->
  match on_response json_parse r, on_response json_parse r' with
  | inl e, inl e' => e = e'
  | inr res, inr res' => data res = data res'
  | _, _ => False
  end.
Proof.
  destruct r as [e|st hdrs body], r' as [e'|st' hdrs' body']; simpl;
    try tauto.
  intros [<- <-].
  destruct (negb (st =? 200) && negb (st =? 206)); [reflexivity|].
  unfold _jsonParse. destruct (json_parse body); reflexivity.
Qed.

Lemma fetch_missing_payload (t t' : http_request -> reply)
    (path base : string) (ak : option string) (ids : idarg) (o : lookup_obj)
    (cachedResult : jsvalue) (w : world) :
  (forall req, same_payload (t req) (t' req)) ->
  fetch_missing this t json_parse path base ak ids o cachedResult w
  = fetch_missing this t' json_parse path base ak ids o cachedResult w.
Proof.
  intros H. rewrite !fetch_missing_eq.
  destruct (length_le_0 ids) as [e|[|]]; try reflexivity.
  cbv zeta.
  pose proof (on_response_payload _ _ (H (details_request path ak ids))) as Hp.
  destruct (on_response json_parse (t (details_request path ak ids)))
    as [e|res],
    (on_response json_parse (t' (details_request path ak ids)))
    as [e'|res']; try contradiction.
  - subst e'. reflexivity.
  - rewrite Hp. reflexivity.
Qed.

(** X22. The headers of a response never reach the caller.  [_request]
    reads the pagination headers into [meta], but both generic requests
    pass on [data] only: two Transports whose responses differ in their
    headers alone give, for every call and every cache, the same result,
    the same cache and the same I/O. *)
Theorem headers_never_reach_the_caller (t t' : http_request -> reply) :
  (forall req, same_payload (t req) (t' req)) ->
  (forall path a k w,
     _apiRequest this t json_parse path a k w
     = _apiRequest this t' json_parse path a k w) /\
  (forall path ids a k w,
     _apiDetailsRequest this t json_parse path ids a k w
     = _apiDetailsRequest this t' json_parse path ids a k w).
Proof.
  intros H. split.
  - intros path a k w. rewrite !apiRequest_eq. cbv zeta.
    destruct (truthy_opt _); [reflexivity|].
    pose proof (H (collection_request this path a k)) as Hp.
    destruct (t (collection_request this path a k)) as [e|st hdrs body],
      (t' (collection_request this path a k)) as [e'|st' hdrs' body'];
      simpl in Hp; try contradiction.
    + subst e'. reflexivity.
    + destruct Hp as [<- <-]. reflexivity.
  - intros path ids a k w. destruct ids as [l|s].
    + rewrite !details_many_eq. cbv zeta.
      apply fetch_missing_payload, H.
    + rewrite !details_single_eq. cbv zeta.
      destruct (value <$> cache w !! _) as [[|b|n|u|xs|fs]|];
        try (destruct (truthy_json _); [reflexivity|]);
        try apply fetch_missing_payload, H.
      destruct s as [| |b|n|[|c r]| | |b']; try reflexivity;
        apply fetch_missing_payload, H.
Qed.

End Payload.

(** X22 on the example client: the same Transport with pagination
    headers. *)
Lemma headers_never_reach_the_caller_witness :
  let t' := with_headers [("X-Page-Total", "7"); ("X-Result-Total", "21")]
              demo_transport in
  (forall path a k w,
     _apiRequest default_config demo_transport demo_parse path a k w
     = _apiRequest default_config t' demo_parse path a k w) /\
  (forall path ids a k w,
     _apiDetailsRequest default_config demo_transport demo_parse path ids a k w
     = _apiDetailsRequest default_config t' demo_parse path ids a k w).
Proof.
  apply (headers_never_reach_the_caller default_config demo_parse
           demo_transport
           (with_headers [("X-Page-Total", "7"); ("X-Result-Total", "21")]
              demo_transport)).
  intros req. unfold with_headers, same_payload.
  destruct (demo_transport req); simpl; auto.
Defined.

Section BareAnswer.

Variable this : config.
Variable transport : http_request -> reply.
Variable json_parse : string -> option json.

(** X23. Sequence in, single object out.  When a batch asks for its
    missing ids and the Transport answers with a body that decodes to a
    value that is not an array, then, unless the value is [null], the
    batch resolves with that value itself: not with an array, and without
    the cached objects of the other requested ids; the value is stored
    under the [id] property it carries.  When the value is [null],
    reading its [id] throws: the batch rejects with that [TypeError] and
    stores nothing. *)
Theorem batch_answered_with_one_object (path : string) (ids : list Z)
    (a : arg) (k : option string) (w : world) (statusCode : Z)
    (hdrs : list (string * string)) (body : string) (j : json) :
  let base := request_key this path a k in
  let missing := missing_of w base (sort_ids ids) in
  let req := details_request path (effective_apiKey a k) (Many missing) in
  let reads := map (fun id => CacheGet (base +:+ "#" +:+ string_of_Z id))
                   (sort_ids ids) in
  let r := fst (_apiDetailsRequest this transport json_parse path (Many ids)
                  a k w) in
  let w' := snd (_apiDetailsRequest this transport json_parse path (Many ids)
                   a k w) in
  missing <> [] ->
  transport req = Response statusCode hdrs body ->
  statusCode = 200 \/ statusCode = 206 ->
  json_parse body = Some j ->
  (forall xs, j <> JArr xs) ->
  match get_id j with
  | inr id =>
      let key := base +:+ "#" +:+ string_of_opt_json id in
      r = Some (Resolved (VJson j)) /\
      new_events w w' = (reads ++ [HttpGet req; CacheSet key j])%list /\
      cache w' !! key = Some (stored_as this j)
  | inl e =>
      j = JNull /\
      r = Some (Rejected e) /\
      new_events w w' = (reads ++ [HttpGet req])%list /\
      cache w' = cache w
  end.
Proof.
  intros base missing req reads r w' Hm Ht Hst Hp Harr.
  unfold r, w'. rewrite details_many_eq. cbv zeta. fold base missing.
  rewrite fetch_missing_eq.
  assert (length_le_0 (Many missing) = inr false) as ->
    by (simpl; destruct missing; [congruence|reflexivity]).
  cbv zeta. fold req.
  destruct (on_response_ok transport json_parse req statusCode hdrs body j
              Ht Hst Hp) as [m ->].
  simpl data.
  destruct (get_id j) as [e|id] eqn:Hid.
  - assert (j = JNull) as Hnull
      by (destruct j; simpl in Hid; try discriminate Hid; reflexivity).
    split; [exact Hnull|].
    rewrite (setCacheObjects_throws this base j e _ Harr Hid). simpl.
    split; [reflexivity|]. split; [|reflexivity].
    unfold new_events, reads. simpl. rewrite <- !app_assoc.
    apply drop_app_length.
  - rewrite (setCacheObjects_one this base j id _ Harr Hid). simpl.
    split; [reflexivity|]. split; [|apply lookup_insert_eq].
    unfold new_events, reads. simpl. rewrite <- !app_assoc.
    apply drop_app_length.
Qed.

End BareAnswer.

(** X23 on an example: item 15 is cached, and the request for item 2016 is
    answered with the item and not with an array of one item. *)
Lemma batch_answered_with_one_object_witness :
  let base := request_key default_config "items" ArgUndef None in
  let req := details_request "items" None (Many [2016]) in
  let key := base +:+ "#2016" in
  let r := fst (_apiDetailsRequest default_config bare_transport bare_parse
                  "items" (Many [15; 2016]) ArgUndef None item15_world) in
  let w' := snd (_apiDetailsRequest default_config bare_transport bare_parse
                   "items" (Many [15; 2016]) ArgUndef None item15_world) in
  r = Some (Resolved (VJson (item 2016 "Guard Emblem"))) /\
  new_events item15_world w'
    = (map (fun id => CacheGet (base +:+ "#" +:+ string_of_Z id))
           (sort_ids [15; 2016])
       ++ [HttpGet req; CacheSet key (item 2016 "Guard Emblem")])%list /\
  cache w' !! key = Some (stored_as default_config (item 2016 "Guard Emblem")).
Proof.
  apply (batch_answered_with_one_object default_config bare_transport
           bare_parse "items" [15; 2016] ArgUndef None item15_world 200 []
           "item 2016" (item 2016 "Guard Emblem")).
  - vm_compute; discriminate.
  - reflexivity.
  - left; reflexivity.
  - reflexivity.
  - intros xs; discriminate.
Defined.

(** *** The public methods of the earlier revision *)

Section LegacyMethods.

Variable this : Legacy.config.
Variable transport : http_request -> reply.
Variable json_parse : string -> option json.

Local Abbreviation invoke := (Legacy.invoke this transport json_parse).

Lemma legacy_find_method_In (name : string) (m : Legacy.method) :
  Legacy.find_method name = Some m ->
  In m Legacy.methods /\ Legacy.method_name m = name.
Proof.
  unfold Legacy.find_method. intros H. apply find_some in H.
  destruct H as [Hin Hn]. split; [apply in_rev, Hin|].
  symmetry. apply String.eqb_eq, Hn.
Qed.

(** X24. In the earlier revision [listItems] cannot work: its body calls
    [_apiBasicRequest], which the class does not define, so the call
    throws a [TypeError] whatever its arguments, before any I/O and
    without returning a promise.  It is the only public method that
    throws in this way.  As in the latest revision, the second definitions
    of [listGuildPermissions] and [getGuildPermissions] replace the first
    ones, and both methods request [guild/upgrades]. *)
Theorem legacy_listItems_can_only_throw :
  (forall actuals : list jsarg,
     invoke "listItems" actuals
     = Some (inl (TypeError "this._apiBasicRequest is not a function"))) /\
  (forall (name : string) (actuals : list jsarg) (e : js_error),
     invoke name actuals = Some (inl e) -> name = "listItems") /\
  (forall page pageSize : scalar,
     invoke "listGuildPermissions" [AVal page; AVal pageSize]
     = Some (inr (fun w =>
                    let (r, w') :=
                      Legacy._apiRequest this transport json_parse
                        "guild/upgrades" page pageSize w
                    in (Some r, w')))) /\
  (forall ids : list Z,
     invoke "getGuildPermissions" [AArr ids]
     = Some (inr (Legacy._apiDetailsRequest this transport json_parse
                    "guild/upgrades" (Many ids)))).
Proof.
  assert (Legacy.find_method "listItems"
          = Some {| Legacy.method_name := "listItems";
                    Legacy.method_formals := ["page"; "pageSize"];
                    Legacy.callee := "_apiBasicRequest";
                    Legacy.path := "items";
                    Legacy.args := ["page"; "pageSize"] |}) as Hitems
    by (vm_compute; reflexivity).
  assert (Legacy.defines "_apiBasicRequest" = false) as Hbasic
    by (vm_compute; reflexivity).
  assert (Legacy.find_method "listGuildPermissions"
          = Some {| Legacy.method_name := "listGuildPermissions";
                    Legacy.method_formals := ["page"; "pageSize"];
                    Legacy.callee := "_apiRequest";
                    Legacy.path := "guild/upgrades";
                    Legacy.args := ["page"; "pageSize"] |}) as Hlist
    by (vm_compute; reflexivity).
  assert (Legacy.find_method "getGuildPermissions"
          = Some {| Legacy.method_name := "getGuildPermissions";
                    Legacy.method_formals := ["ids"];
                    Legacy.callee := "_apiDetailsRequest";
                    Legacy.path := "guild/upgrades";
                    Legacy.args := ["ids"] |}) as Hget
    by (vm_compute; reflexivity).
  assert (Legacy.defines "_apiRequest" = true) as Hreq
    by (vm_compute; reflexivity).
  assert (Legacy.defines "_apiDetailsRequest" = true) as Hdet
    by (vm_compute; reflexivity).
  split; [|split; [|split]].
  - intros actuals. unfold Legacy.invoke. rewrite Hitems. cbv zeta.
    simpl Legacy.callee. rewrite Hbasic. reflexivity.
  - intros name actuals e H. unfold Legacy.invoke in H.
    destruct (Legacy.find_method name) as [m|] eqn:Hm; [|discriminate H].
    destruct (legacy_find_method_In name m Hm) as [Hin Hname].
    assert (forallb (fun m => Legacy.defines (Legacy.callee m)
                              || String.eqb (Legacy.method_name m) "listItems")
                    Legacy.methods = true) as Hall
      by (vm_compute; reflexivity).
    rewrite forallb_forall in Hall. specialize (Hall m Hin).
    cbv zeta in H.
    destruct (Legacy.defines (Legacy.callee m)) eqn:Hd; simpl in Hall.
    + simpl in H.
      destruct (String.eqb (Legacy.callee m) "_apiRequest").
      * destruct (nth_arg 0 _) as [page| |]; try discriminate H.
        destruct (nth_arg 1 _) as [pageSize| |]; discriminate H.
      * destruct (String.eqb (Legacy.callee m) "_apiDetailsRequest");
          [|discriminate H].
        destruct (as_ids _); discriminate H.
    + apply String.eqb_eq in Hall. congruence.
  - intros page pageSize. unfold Legacy.invoke. rewrite Hlist. cbv zeta.
    simpl Legacy.callee. rewrite Hreq. reflexivity.
  - intros ids. unfold Legacy.invoke. rewrite Hget. cbv zeta.
    simpl Legacy.callee. rewrite Hdet. reflexivity.
Qed.

End LegacyMethods.

Section LegacyRoundTrip.

Variable this : Legacy.config.
Variable transport : http_request -> reply.
Variable json_parse : string -> option json.

Local Abbreviation apiRequest :=
  (Legacy._apiRequest this transport json_parse).

(** X25. The collection round trip of the earlier revision.  A miss that
    is answered with status 200 and a body that decodes resolves with the
    decoded value and stores it under the key that starts with the
    language, with the configured time-to-live; when the value is truthy,
    the same call is then served from the cache with one read and no
    request. *)
Theorem legacy_collection_round_trip (path : string) (page pageSize : scalar)
    (w : world) (hdrs : list (string * string)) (body : string) (v : json) :
  let key := legacy_collection_key this path page pageSize in
  let req := legacy_collection_request this path page pageSize in
  let w1 := snd (apiRequest path page pageSize w) in
  let w2 := snd (apiRequest path page pageSize w1) in
  truthy_opt (value <$> cache w !! key) = false ->
  transport req = Response 200 hdrs body ->
  json_parse body = Some v ->
  fst (apiRequest path page pageSize w) = Resolved (VJson v) /\
  new_events w w1 = [CacheGet key; HttpGet req; CacheSet key v] /\
  cache w1 = <[key := {| value := v; ttl := Legacy.cacheTimeout this |}]>
               (cache w) /\
  (truthy_json v = true ->
   fst (apiRequest path page pageSize w1) = Resolved (VJson v) /\
   new_events w1 w2 = [CacheGet key] /\
   cache w2 = cache w1).
Proof.
  intros key req w1 w2 Hmiss Ht Hp.
  assert (apiRequest path page pageSize w
          = (Resolved (VJson v),
             {| cache := <[key := {| value := v;
                                     ttl := Legacy.cacheTimeout this |}]>
                           (cache w);
                log := log w ++ [CacheGet key; HttpGet req; CacheSet key v] |}))
    as E1.
  { rewrite legacy_apiRequest_eq. cbv zeta. fold key req.
    rewrite Hmiss, Ht. unfold Legacy.on_response, _jsonParse.
    change (negb (200 =? 200)) with false. cbv iota. rewrite Hp.
    reflexivity. }
  assert (cache w1 = <[key := {| value := v; ttl := Legacy.cacheTimeout this |}]>
                       (cache w)) as Hc
    by (unfold w1; rewrite E1; reflexivity).
  split; [rewrite E1; reflexivity|].
  split; [unfold w1; rewrite E1; simpl; apply new_events_app|].
  split; [exact Hc|].
  intros Hv. unfold w2. rewrite legacy_apiRequest_eq. cbv zeta.
  fold key req. rewrite Hc, lookup_insert_eq. simpl. rewrite Hv. simpl.
  rewrite new_events_emit. rewrite Hc. auto.
Qed.

End LegacyRoundTrip.

(** X25 on an example: a Transport of the earlier revision that answers
    with status 200. *)
Lemma legacy_collection_round_trip_witness :
  let t := list_transport in
  let v := JArr [JNum 1; JNum 2; JNum 3] in
  let key := legacy_collection_key legacy_config "items" (SNum 1) SUndef in
  let req := legacy_collection_request legacy_config "items" (SNum 1) SUndef in
  let w1 := snd (Legacy._apiRequest legacy_config t demo_parse "items"
                   (SNum 1) SUndef empty_world) in
  let w2 := snd (Legacy._apiRequest legacy_config t demo_parse "items"
                   (SNum 1) SUndef w1) in
  fst (Legacy._apiRequest legacy_config t demo_parse "items" (SNum 1) SUndef
         empty_world) = Resolved (VJson v) /\
  new_events empty_world w1 = [CacheGet key; HttpGet req; CacheSet key v] /\
  cache w1 = <[key := {| value := v;
                         ttl := Legacy.cacheTimeout legacy_config |}]>
               (cache empty_world) /\
  (truthy_json v = true ->
   fst (Legacy._apiRequest legacy_config t demo_parse "items" (SNum 1) SUndef
          w1) = Resolved (VJson v) /\
   new_events w1 w2 = [CacheGet key] /\
   cache w2 = cache w1).
Proof.
  apply (legacy_collection_round_trip legacy_config
           list_transport demo_parse "items" (SNum 1) SUndef empty_world []
           "[1, 2, 3]" (JArr [JNum 1; JNum 2; JNum 3])).
  - reflexivity.
  - reflexivity.
  - reflexivity.
Defined.
